(** * Particle sources of PENTrack (source.cpp)

    A shallow embedding of the particle-source classes of [source.cpp]
    and the properties of their [CreateParticle] methods.

    Conventions of the embedding.
    - A C++ [double] is a real number of the Standard Library; rounding,
      infinities and NaN are not modelled.  Comparisons are the decidable
      comparisons [Rle_dec], [Rlt_dec], [Rgt_dec].
    - An [int] is an integer of [Z].  The loop variable [nroll] stays
      below 2^31; the particle counter, which source.h declares, is taken
      without a bound.
    - Objects allocated with [new] live in a heap, a list of cells
      addressed by their index; [delete] empties the cell.
    - The random generator [TMCGenerator] (mc.h, not part of the sources)
      is an oracle: it answers its n-th request with a scripted value and
      records which request was made.
    - A method is a function from the object and the world (generator,
      heap, standard output) to an [Outcome]: a normal return, a call of
      [exit], undefined behaviour, or a [for(;;)] loop that is still
      running when the fuel given to it has run out. *)

From Stdlib Require Import Reals Lra Lia ZArith List String Ascii Bool.
Import ListNotations.

Local Open Scope R_scope.

(** ** Numbers, points and vectors *)

Definition CPoint : Type := (R * R * R)%type.
Definition CVector : Type := (R * R * R)%type.

Definition coord0 (p : CPoint) : R := fst (fst p).
Definition coord1 (p : CPoint) : R := snd (fst p).
Definition coord2 (p : CPoint) : R := snd p.

(** [p - q], [p + v] and [a * v] of the geometry kernel. *)
Definition psub (p q : CPoint) : CVector :=
  (coord0 p - coord0 q, coord1 p - coord1 q, coord2 p - coord2 q).
Definition padd (p : CPoint) (v : CVector) : CPoint :=
  (coord0 p + coord0 v, coord1 p + coord1 v, coord2 p + coord2 v).
Definition vscale (a : R) (v : CVector) : CVector :=
  (a * coord0 v, a * coord1 v, a * coord2 v).

(** [atan2] of the C library on finite arguments. *)
Definition atan2 (y x : R) : R :=
  if Rlt_dec 0 x then atan (y / x)
  else if Rlt_dec x 0 then
    (if Rle_dec 0 y then atan (y / x) + PI else atan (y / x) - PI)
  else if Rlt_dec 0 y then PI / 2
  else if Rlt_dec y 0 then - (PI / 2)
  else 0.

(** A triangle of the mesh (trianglemesh.h is not part of the sources):
    its three vertices [tri[0..2]] and what its methods [normal()] and
    [area()] return. *)
Record TTriangle := mkTriangle {
  tri0 : CPoint;
  tri1 : CPoint;
  tri2 : CPoint;
  normal : CVector;
  area : R
}.

(** ** Particles *)

Inductive ParticleClass := TNeutron | TProton | TElectron.

(** What a particle constructor is given, and the stop status [ID]. *)
Record TParticle := mkParticle {
  pclass : ParticleClass;
  particlenumber : Z;
  tstart : R;
  xstart : R;
  ystart : R;
  zstart : R;
  Estart : R;
  phistart : R;
  thetastart : R;
  ID : Z
}.

Definition set_ID (p : TParticle) (v : Z) : TParticle :=
  mkParticle (pclass p) (particlenumber p) (tstart p) (xstart p) (ystart p)
             (zstart p) (Estart p) (phistart p) (thetastart p) v.

(** Modelled from the spec: the particle-type tags of globals.h, the
    closed set neutron, proton, electron. *)
Definition NAME_NEUTRON : string := "neutron".
Definition NAME_PROTON : string := "proton".
Definition NAME_ELECTRON : string := "electron".

Definition MAX_DICE_ROLL : Z := 42000000.

(** ** The collaborators that are declared outside source.cpp *)

Record Collaborators := mkCollaborators {
  (** constants of globals.h *)
  REFLECT_TOLERANCE : R;
  ID_UNKNOWN : Z;
  ID_INITIAL_NOT_FOUND : Z;
  conv : R;
  (** [RotateVector(v, n)]: the new contents of [v] *)
  RotateVector : CVector -> CVector -> CVector;
  (** [p->Hstart()] of a particle *)
  Hstart : TParticle -> R;
  (** [InSolid] of the mesh read from a file *)
  InSolid : string -> CPoint -> bool;
  (** bounding box of the tree read from a file:
      xmin, xmax, ymin, ymax, zmin, zmax *)
  bbox : string -> (R * R) * (R * R) * (R * R);
  (** the extraction operators [>>] of the C++ library on the characters
      still to be read: the value and the characters left, or a failure *)
  scan_string : string -> option (string * string);
  scan_double : string -> option (R * string);
  scan_bool : string -> option (bool * string)
}.

(** ** The random generator *)

Inductive Draw :=
| UniformDraw (lo hi : R)
| LinearDraw (lo hi : R)
| SinCosDraw (lo hi : R)
| SpectrumDraw (name : string)
| AngularDraw (name : string)
| PolarisationDraw (name : string).

Record TMCGenerator := mkGenerator {
  reals : nat -> R;
  ints : nat -> Z;
  cursor : nat;
  served : list Draw
}.

Definition advance (g : TMCGenerator) (k : nat) (d : Draw) : TMCGenerator :=
  mkGenerator (reals g) (ints g) (cursor g + k) (served g ++ [d]).

Definition gen_UniformDist (lo hi : R) (g : TMCGenerator) : R * TMCGenerator :=
  (reals g (cursor g), advance g 1 (UniformDraw lo hi)).
Definition gen_LinearDist (lo hi : R) (g : TMCGenerator) : R * TMCGenerator :=
  (reals g (cursor g), advance g 1 (LinearDraw lo hi)).
Definition gen_SinCosDist (lo hi : R) (g : TMCGenerator) : R * TMCGenerator :=
  (reals g (cursor g), advance g 1 (SinCosDraw lo hi)).
Definition gen_Spectrum (name : string) (g : TMCGenerator) : R * TMCGenerator :=
  (reals g (cursor g), advance g 1 (SpectrumDraw name)).
Definition gen_AngularDist (name : string) (g : TMCGenerator)
  : (R * R) * TMCGenerator :=
  ((reals g (cursor g), reals g (S (cursor g))), advance g 2 (AngularDraw name)).
Definition gen_DicePolarisation (name : string) (g : TMCGenerator)
  : Z * TMCGenerator :=
  (ints g (cursor g), advance g 1 (PolarisationDraw name)).

(** ** The world and the outcome of a call *)

Inductive Output :=
| Text (s : string)
| Real (r : R)
| Int (z : Z).

Record World := mkWorld {
  mc : TMCGenerator;
  heap : list (option TParticle);
  out : list Output
}.

Inductive Outcome (A : Type) : Type :=
| Ret (a : A) (w : World)
| Exit (status : Z) (w : World)
| Undefined (w : World)
| Spin (w : World).
Arguments Ret {A} a w.
Arguments Exit {A} status w.
Arguments Undefined {A} w.
Arguments Spin {A} w.

Definition M (A : Type) : Type := World -> Outcome A.

Definition ret {A} (a : A) : M A := fun w => Ret a w.

Definition bind {A B} (m : M A) (k : A -> M B) : M B :=
  fun w =>
    match m w with
    | Ret a w' => k a w'
    | Exit s w' => Exit s w'
    | Undefined w' => Undefined w'
    | Spin w' => Spin w'
    end.

Declare Scope source_scope.
Delimit Scope source_scope with source.
Notation "x <- m ;; k" := (bind m (fun x => k))
  (at level 61, m at next level, right associativity) : source_scope.
Notation "m ;;; k" := (bind m (fun _ => k))
  (at level 61, right associativity) : source_scope.
Local Open Scope source_scope.

(** the world left behind by a call, whatever its outcome *)
Definition world_of {A} (o : Outcome A) : World :=
  match o with
  | Ret _ w => w
  | Exit _ w => w
  | Undefined w => w
  | Spin w => w
  end.

(** the status the process ends with after [exit(code)] *)
Definition exit_status (code : Z) : Z := (code mod 256)%Z.

Definition exit {A} (code : Z) : M A := fun w => Exit code w.

Definition undefined {A} : M A := fun w => Undefined w.

Definition print (l : list Output) : M unit :=
  fun w => Ret tt (mkWorld (mc w) (heap w) (out w ++ l)).

Definition draw {A} (f : TMCGenerator -> A * TMCGenerator) : M A :=
  fun w => let (a, g) := f (mc w) in Ret a (mkWorld g (heap w) (out w)).

Definition UniformDist (lo hi : R) : M R := draw (gen_UniformDist lo hi).
Definition LinearDist (lo hi : R) : M R := draw (gen_LinearDist lo hi).
Definition SinCosDist (lo hi : R) : M R := draw (gen_SinCosDist lo hi).
Definition Spectrum (name : string) : M R := draw (gen_Spectrum name).
Definition AngularDist (name : string) : M (R * R) := draw (gen_AngularDist name).
Definition DicePolarisation (name : string) : M Z :=
  draw (gen_DicePolarisation name).

(** *** The heap *)

Definition ptr : Type := nat.

Fixpoint store {A} (l : list A) (i : nat) (a : A) : list A :=
  match l, i with
  | [], _ => []
  | _ :: l', O => a :: l'
  | b :: l', S i' => b :: store l' i' a
  end.

Definition new (p : TParticle) : M ptr :=
  fun w => Ret (List.length (heap w)) (mkWorld (mc w) (heap w ++ [Some p]) (out w)).

Definition load (q : ptr) : M TParticle :=
  fun w =>
    match nth_error (heap w) q with
    | Some (Some p) => Ret p w
    | _ => Undefined w
    end.

Definition delete (q : ptr) : M unit :=
  fun w =>
    match nth_error (heap w) q with
    | Some (Some _) => Ret tt (mkWorld (mc w) (store (heap w) q None) (out w))
    | _ => Undefined w
    end.

Definition assign_ID (q : ptr) (v : Z) : M unit :=
  fun w =>
    match nth_error (heap w) q with
    | Some (Some p) =>
        Ret tt (mkWorld (mc w) (store (heap w) q (Some (set_ID p v))) (out w))
    | _ => Undefined w
    end.

Definition nl : string := String (ascii_of_nat 10) EmptyString.

(** ** TParticleSource *)

Record TParticleSource := mkParticleSource {
  fActiveTime : R;
  fParticleName : string;
  ParticleCounter : Z
}.

(** the constructor *)
Definition TParticleSource_new (ParticleName : string) (ActiveTime : R)
  : TParticleSource :=
  mkParticleSource ActiveTime ParticleName 0.

Definition set_ParticleCounter (s : TParticleSource) (c : Z) : TParticleSource :=
  mkParticleSource (fActiveTime s) (fParticleName s) c.

Section WithCollaborators.

Variable env : Collaborators.

(** [new TNeutron(number, t, x, y, z, E, phi, theta, ...)] and its
    siblings: the particle starts with the status [ID_UNKNOWN]. *)
Definition construct (c : ParticleClass) (number : Z)
  (t x y z E phi theta : R) : TParticle :=
  mkParticle c number t x y z E phi theta (ID_UNKNOWN env).

Definition TParticleSource_CreateParticle (self : TParticleSource)
  (t x y z E phi theta : R) (polarisation : Z) : M (ptr * TParticleSource) :=
  let incremented := set_ParticleCounter self (ParticleCounter self + 1) in
  if (fParticleName self =? NAME_NEUTRON)%string then
    p <- new (construct TNeutron (ParticleCounter incremented) t x y z E phi theta) ;;
    ret (p, incremented)
  else if (fParticleName self =? NAME_PROTON)%string then
    p <- new (construct TProton (ParticleCounter incremented) t x y z E phi theta) ;;
    ret (p, incremented)
  else if (fParticleName self =? NAME_ELECTRON)%string then
    p <- new (construct TElectron (ParticleCounter incremented) t x y z E phi theta) ;;
    ret (p, incremented)
  else
    print [Text "Could not create particle "; Text (fParticleName self); Text nl] ;;;
    exit (-1).

End WithCollaborators.

Notation "' pat <- m ;; k" :=
  (bind m (fun x => match x with pat => k end))
  (at level 61, pat pattern, m at next level, right associativity) : source_scope.

(** ** TSurfaceSource *)

Record TSurfaceSource := mkSurfaceSource {
  surface_base : TParticleSource;
  sourcearea : R;
  sourcetris : list TTriangle;
  Enormal : R
}.

(** the constructor *)
Definition TSurfaceSource_new (ParticleName : string) (ActiveTime E_normal : R)
  : TSurfaceSource :=
  mkSurfaceSource (TParticleSource_new ParticleName ActiveTime) 0 [] E_normal.

Definition set_surface_base (s : TSurfaceSource) (b : TParticleSource)
  : TSurfaceSource :=
  mkSurfaceSource b (sourcearea s) (sourcetris s) (Enormal s).

(** The scan [for (i = sourcetris.begin(); i != sourcetris.end(); i++)]
    from position [i] on, [rest] being the triangles from [i] to the end.
    The result is the position of the iterator after the loop;
    the length of the list stands for [end()]. *)
Fixpoint scan_triangles (rest : list TTriangle) (i : nat) (RandA SumA : R) : nat :=
  match rest with
  | [] => i
  | t :: rest' =>
      let SumA := SumA + area t in
      if Rle_dec RandA SumA then i else scan_triangles rest' (S i) RandA SumA
  end.

(** [*i]: reading through [end()] is undefined *)
Definition at_iterator (tris : list TTriangle) (i : nat) : M TTriangle :=
  match nth_error tris i with
  | Some t => ret t
  | None => undefined
  end.

(** [if (a+b > 1){ a = 1 - a; b = 1 - b; }] *)
Definition fold_pair (a b : R) : R * R :=
  if Rgt_dec (a + b) 1 then (1 - a, 1 - b) else (a, b).

(** [i->tri[0] + a*(i->tri[1] - i->tri[0]) + b*(i->tri[2] - i->tri[0])
     + nv*REFLECT_TOLERANCE] *)
Definition point_above (tolerance : R) (i : TTriangle) (a b : R) : CPoint :=
  padd (padd (padd (tri0 i) (vscale a (psub (tri1 i) (tri0 i))))
             (vscale b (psub (tri2 i) (tri0 i))))
       (vscale tolerance (normal i)).

(** the block guarded by [if (Enormal > 0)]: the new [theta_v] and [Ekin] *)
Definition add_Enormal (Enormal Ekin theta_v : R) : R * R :=
  if Rgt_dec Enormal 0 then
    let vnormal := sqrt (Ekin * cos theta_v * cos theta_v + Enormal) in
    let vtangential := sqrt Ekin * sin theta_v in
    (atan2 vtangential vnormal, vnormal * vnormal + vtangential * vtangential)
  else (theta_v, Ekin).

Section Sources.

Variable env : Collaborators.

(** the velocity angles in the global frame: [phi_v] and [theta_v] *)
Definition rotate_angles (phi_v theta_v : R) (nv : CVector) : R * R :=
  let v := RotateVector env
             (cos phi_v * sin theta_v, sin phi_v * sin theta_v, cos theta_v) nv in
  (atan2 (coord1 v) (coord0 v), acos (coord2 v)).

Definition TSurfaceSource_CreateParticle (self : TSurfaceSource)
  : M (ptr * TSurfaceSource) :=
  let base := surface_base self in
  t <- UniformDist 0 (fActiveTime base) ;;
  RandA <- UniformDist 0 (sourcearea self) ;;
  let i := scan_triangles (sourcetris self) 0 RandA 0 in
  a <- UniformDist 0 1 ;;
  b <- UniformDist 0 1 ;;
  let (a, b) := fold_pair a b in
  tri <- at_iterator (sourcetris self) i ;;
  let nv := normal tri in
  let p := point_above (REFLECT_TOLERANCE env) tri a b in
  Ekin <- Spectrum (fParticleName base) ;;
  phi_v <- UniformDist 0 (2 * PI) ;;
  theta_v <- SinCosDist 0 (0.5 * PI) ;;
  let (theta_v, Ekin) := add_Enormal (Enormal self) Ekin theta_v in
  let (phi_v, theta_v) := rotate_angles phi_v theta_v nv in
  polarisation <- DicePolarisation (fParticleName base) ;;
  ' (q, base) <- TParticleSource_CreateParticle env base t
                   (coord0 p) (coord1 p) (coord2 p) Ekin phi_v theta_v polarisation ;;
  ret (q, set_surface_base self base).

(** ** TVolumeSource and its shapes *)

Record Cylinder := mkCylinder {
  rmin : R; rmax : R; phimin : R; phimax : R; zmin : R; zmax : R
}.

Record Cuboid := mkCuboid {
  xmin : R; xmax : R; ymin : R; ymax : R; cuboid_zmin : R; cuboid_zmax : R
}.

(** the classes derived from [TVolumeSource] differ in their members and
    in [RandomPointInSourceVolume] *)
Inductive Shape :=
| CuboidShape (c : Cuboid)
| CylindricalShape (c : Cylinder)
| STLShape (sourcefile : string).

Record TVolumeSource := mkVolumeSource {
  volume_base : TParticleSource;
  fPhaseSpaceWeighting : bool;
  shape : Shape
}.

Definition set_volume_base (s : TVolumeSource) (b : TParticleSource)
  : TVolumeSource :=
  mkVolumeSource b (fPhaseSpaceWeighting s) (shape s).

Definition TCuboidVolumeSource_RandomPointInSourceVolume (c : Cuboid) : M CPoint :=
  x <- UniformDist (xmin c) (xmax c) ;;
  y <- UniformDist (ymin c) (ymax c) ;;
  z <- UniformDist (cuboid_zmin c) (cuboid_zmax c) ;;
  ret (x, y, z).

Definition TCylindricalVolumeSource_RandomPointInSourceVolume (c : Cylinder)
  : M CPoint :=
  r <- LinearDist (rmin c) (rmax c) ;;
  phi_r <- UniformDist (phimin c) (phimax c) ;;
  z <- UniformDist (zmin c) (zmax c) ;;
  ret (r * cos phi_r, r * sin phi_r, z).

(** [for(;;)] with at most [fuel] rounds *)
Fixpoint TSTLVolumeSource_RandomPointInSourceVolume (fuel : nat)
  (sourcefile : string) : M CPoint :=
  match fuel with
  | O => fun w => Spin w
  | S fuel' =>
      let '(bx, by_, bz) := bbox env sourcefile in
      p0 <- UniformDist (fst bx) (snd bx) ;;
      p1 <- UniformDist (fst by_) (snd by_) ;;
      p2 <- UniformDist (fst bz) (snd bz) ;;
      if InSolid env sourcefile (p0, p1, p2) then ret (p0, p1, p2)
      else TSTLVolumeSource_RandomPointInSourceVolume fuel' sourcefile
  end.

(** the virtual call *)
Definition RandomPointInSourceVolume (fuel : nat) (s : Shape) : M CPoint :=
  match s with
  | CuboidShape c => TCuboidVolumeSource_RandomPointInSourceVolume c
  | CylindricalShape c => TCylindricalVolumeSource_RandomPointInSourceVolume c
  | STLShape f => TSTLVolumeSource_RandomPointInSourceVolume fuel f
  end.

(** The loop [for (int nroll = 0; nroll <= MAX_DICE_ROLL; nroll++)] from
    the test of its condition on.  [inl p] is [return p] from within the
    loop; [inr (x, y, z, E)] are the variables with which the statements
    after the loop are reached.  The quotient [(H - V) / H] and its root
    are those of the real numbers: what the doubles give for [H = 0] or
    for a negative quotient (an infinity or not a number) is not
    modelled.  The test is the one of the code when [H] is not 0 and the
    number drawn is not negative. *)
Fixpoint dice_loop (rounds : nat) (point : M CPoint) (self : TParticleSource)
  (t H phi_v theta_v : R) (polarisation : Z)
  (nroll : Z) (x y z E : R) {struct rounds}
  : M ((ptr + (R * R * R * R)) * TParticleSource) :=
  match rounds with
  | O => fun w => Spin w
  | S rounds' =>
      if (nroll <=? MAX_DICE_ROLL)%Z then
        (if (nroll mod 100000 =? 0)%Z then print [Text "."] else ret tt) ;;;
        ' (p, self) <- TParticleSource_CreateParticle env self t x y z H
                         phi_v theta_v polarisation ;;
        let self := set_ParticleCounter self (ParticleCounter self - 1) in
        particle <- load p ;;
        let V := Hstart env particle - H in
        u <- UniformDist 0 1 ;;
        if Rlt_dec u (sqrt ((H - V) / H)) then
          let E := H - V in
          delete p ;;;
          if Rgt_dec E 0 then ret (inr (x, y, z, E), self)
          else
            ' (x, y, z) <- point ;;
            dice_loop rounds' point self t H phi_v theta_v polarisation
                      (nroll + 1) x y z E
        else if (MAX_DICE_ROLL <=? nroll)%Z then
          assign_ID p (ID_INITIAL_NOT_FOUND env) ;;;
          print [Text nl; Text "ABORT: Failed "; Int MAX_DICE_ROLL;
                 Text " times to find a compatible spot!! NO particle will be simulated!!";
                 Text nl; Text nl] ;;;
          ret (inl p, self)
        else
          ' (x, y, z) <- point ;;
          dice_loop rounds' point self t H phi_v theta_v polarisation
                    (nroll + 1) x y z E
      else ret (inr (x, y, z, E), self)
  end.

(** enough rounds for every pass of the loop and the last test of its
    condition *)
Definition dice_rounds : nat := Z.to_nat (MAX_DICE_ROLL + 2).

(** the draws before [if (fPhaseSpaceWeighting)]:
    [t], [E], [phi_v], [theta_v], [polarisation] and the point *)
Definition start_values (fuel : nat) (self : TVolumeSource)
  : M (R * R * R * R * Z * CPoint) :=
  let base := volume_base self in
  t <- UniformDist 0 (fActiveTime base) ;;
  E <- Spectrum (fParticleName base) ;;
  ' (phi_v, theta_v) <- AngularDist (fParticleName base) ;;
  polarisation <- DicePolarisation (fParticleName base) ;;
  p <- RandomPointInSourceVolume fuel (shape self) ;;
  ret (t, E, phi_v, theta_v, polarisation, p).

(** the two statements after [if (fPhaseSpaceWeighting){...}] *)
Definition final_particle (self : TVolumeSource) (base : TParticleSource)
  (t x y z E phi_v theta_v : R) (polarisation : Z) : M (ptr * TVolumeSource) :=
  print [Text nl] ;;;
  ' (p, base) <- TParticleSource_CreateParticle env base t x y z E
                   phi_v theta_v polarisation ;;
  ret (p, set_volume_base self base).

Definition TVolumeSource_CreateParticle (fuel : nat) (self : TVolumeSource)
  : M (ptr * TVolumeSource) :=
  let base := volume_base self in
  ' (t, E, phi_v, theta_v, polarisation, (x, y, z)) <- start_values fuel self ;;
  if fPhaseSpaceWeighting self then
    let H := E in
    print [Text "Trying to find starting position for "; Text (fParticleName base);
           Text " with total energy = "; Real (H * 1e9); Text " neV "] ;;;
    ' (r, base) <- dice_loop dice_rounds (RandomPointInSourceVolume fuel (shape self))
                     base t H phi_v theta_v polarisation 0 x y z E ;;
    match r with
    | inl p => ret (p, set_volume_base self base)
    | inr (x, y, z, E) =>
        final_particle self base t x y z E phi_v theta_v polarisation
    end
  else final_particle self base t x y z E phi_v theta_v polarisation.

End Sources.

(** ** The surface sources cut out of the geometry *)

Definition Rleb (a b : R) : bool := if Rle_dec a b then true else false.
Definition Rgeb (a b : R) : bool := if Rge_dec a b then true else false.

Record TGeometry := mkGeometry {
  mesh_triangles : list TTriangle
}.

Definition TCylindricalSurfaceSource_InSourceVolume (c : Cylinder) (p : CPoint)
  : bool :=
  let r := sqrt (coord0 p * coord0 p + coord1 p * coord1 p) in
  let phi := atan2 (coord1 p) (coord0 p) in
  Rgeb r (rmin c) && Rleb r (rmax c) &&
  Rgeb phi (phimin c) && Rleb phi (phimax c) &&
  Rgeb (coord2 p) (zmin c) && Rleb (coord2 p) (zmax c).

(** The loop of both constructors over [geometry.mesh.triangles], with the
    members [sourcetris] and [sourcearea] as they stand. *)
Fixpoint collect_triangles (inside : CPoint -> bool) (triangles : list TTriangle)
  (sourcetris : list TTriangle) (sourcearea : R) : list TTriangle * R :=
  match triangles with
  | [] => (sourcetris, sourcearea)
  | i :: rest =>
      if inside (tri0 i) && inside (tri1 i) && inside (tri2 i) then
        collect_triangles inside rest (sourcetris ++ [i]) (sourcearea + area i)
      else collect_triangles inside rest sourcetris sourcearea
  end.

Definition TCylindricalSurfaceSource_new (ParticleName : string) (ActiveTime : R)
  (geometry : TGeometry) (E_normal : R) (c : Cylinder) : M TSurfaceSource :=
  let self := TSurfaceSource_new ParticleName ActiveTime E_normal in
  let (tris, total) :=
    collect_triangles (TCylindricalSurfaceSource_InSourceVolume c)
      (mesh_triangles geometry) (sourcetris self) (sourcearea self) in
  print [Text "Source Area: "; Real total; Text " m^2"; Text nl] ;;;
  ret (mkSurfaceSource (surface_base self) total tris (Enormal self)).

Section Dispatcher.

Variable env : Collaborators.

Definition TSTLSurfaceSource_new (ParticleName : string) (ActiveTime : R)
  (geometry : TGeometry) (sourcefile : string) (E_normal : R) : M TSurfaceSource :=
  let self := TSurfaceSource_new ParticleName ActiveTime E_normal in
  let (tris, total) :=
    collect_triangles (InSolid env sourcefile)
      (mesh_triangles geometry) (sourcetris self) 0 in
  print [Text "Source Area: "; Real total; Text " m^2"; Text nl] ;;;
  ret (mkSurfaceSource (surface_base self) total tris (Enormal self)).

Definition TCuboidVolumeSource_new (ParticleName : string) (ActiveTime : R)
  (PhaseSpaceWeighting : bool) (x_min x_max y_min y_max z_min z_max : R)
  : TVolumeSource :=
  mkVolumeSource (TParticleSource_new ParticleName ActiveTime) PhaseSpaceWeighting
    (CuboidShape (mkCuboid x_min x_max y_min y_max z_min z_max)).

Definition TCylindricalVolumeSource_new (ParticleName : string) (ActiveTime : R)
  (PhaseSpaceWeighting : bool) (r_min r_max phi_min phi_max z_min z_max : R)
  : TVolumeSource :=
  mkVolumeSource (TParticleSource_new ParticleName ActiveTime) PhaseSpaceWeighting
    (CylindricalShape (mkCylinder r_min r_max phi_min phi_max z_min z_max)).

Definition TSTLVolumeSource_new (ParticleName : string) (ActiveTime : R)
  (PhaseSpaceWeighting : bool) (sourcefile : string) : TVolumeSource :=
  mkVolumeSource (TParticleSource_new ParticleName ActiveTime) PhaseSpaceWeighting
    (STLShape sourcefile).

(** ** TSource *)

(** what [source] points to *)
Inductive SourceObject :=
| VolumeSource (v : TVolumeSource)
| SurfaceSource (s : TSurfaceSource).

Record TSource := mkSource {
  sourcemode : string;
  source : SourceObject
}.

(** A chain of extractions [sourceconf >> a >> b] from the characters of
    the stream.  Once an extraction has failed the stream stays failed and
    the later ones do nothing: the chain as a whole fails, which is what
    [if (sourceconf)] tests. *)
Definition Extraction (A : Type) : Type := string -> option (A * string).

Definition xret {A} (a : A) : Extraction A := fun s => Some (a, s).

Definition xbind {A B} (e : Extraction A) (k : A -> Extraction B) : Extraction B :=
  fun s =>
    match e s with
    | Some (a, s') => k a s'
    | None => None
    end.

Notation "x <~ e ;; k" := (xbind e (fun x => k))
  (at level 61, e at next level, right associativity) : source_scope.

Definition extract_volume_box : Extraction (string * (R * R * R * R * R * R) * R * bool) :=
  ParticleName <~ scan_string env ;;
  a <~ scan_double env ;; b <~ scan_double env ;; c <~ scan_double env ;;
  d <~ scan_double env ;; e <~ scan_double env ;; f <~ scan_double env ;;
  ActiveTime <~ scan_double env ;;
  PhaseSpaceWeighting <~ scan_bool env ;;
  xret (ParticleName, (a, b, c, d, e, f), ActiveTime, PhaseSpaceWeighting).

Definition extract_surface_box : Extraction (string * (R * R * R * R * R * R) * R * R) :=
  ParticleName <~ scan_string env ;;
  a <~ scan_double env ;; b <~ scan_double env ;; c <~ scan_double env ;;
  d <~ scan_double env ;; e <~ scan_double env ;; f <~ scan_double env ;;
  ActiveTime <~ scan_double env ;;
  E_normal <~ scan_double env ;;
  xret (ParticleName, (a, b, c, d, e, f), ActiveTime, E_normal).

Definition extract_volume_file : Extraction (string * string * R * bool) :=
  ParticleName <~ scan_string env ;;
  sourcefile <~ scan_string env ;;
  ActiveTime <~ scan_double env ;;
  PhaseSpaceWeighting <~ scan_bool env ;;
  xret (ParticleName, sourcefile, ActiveTime, PhaseSpaceWeighting).

Definition extract_surface_file : Extraction (string * string * R * R) :=
  ParticleName <~ scan_string env ;;
  sourcefile <~ scan_string env ;;
  ActiveTime <~ scan_double env ;;
  E_normal <~ scan_double env ;;
  xret (ParticleName, sourcefile, ActiveTime, E_normal).

(** The body of the constructor up to [if (!source)]: [Some] of the source
    that was built, [None] for the null pointer. *)
Definition TSource_build (sourcemode line : string) (geom : TGeometry)
  : M (option SourceObject) :=
  if (sourcemode =? "boxvolume")%string then
    match extract_volume_box line with
    | Some ((ParticleName, (x_min, x_max, y_min, y_max, z_min, z_max),
             ActiveTime, PhaseSpaceWeighting), _) =>
        ret (Some (VolumeSource
          (TCuboidVolumeSource_new ParticleName ActiveTime PhaseSpaceWeighting
             x_min x_max y_min y_max z_min z_max)))
    | None => ret None
    end
  else if (sourcemode =? "cylvolume")%string then
    match extract_volume_box line with
    | Some ((ParticleName, (r_min, r_max, phi_min, phi_max, z_min, z_max),
             ActiveTime, PhaseSpaceWeighting), _) =>
        ret (Some (VolumeSource
          (TCylindricalVolumeSource_new ParticleName ActiveTime PhaseSpaceWeighting
             r_min r_max (phi_min * conv env) (phi_max * conv env) z_min z_max)))
    | None => ret None
    end
  else if (sourcemode =? "STLvolume")%string then
    match extract_volume_file line with
    | Some ((ParticleName, sourcefile, ActiveTime, PhaseSpaceWeighting), _) =>
        ret (Some (VolumeSource
          (TSTLVolumeSource_new ParticleName ActiveTime PhaseSpaceWeighting sourcefile)))
    | None => ret None
    end
  else if (sourcemode =? "cylsurface")%string then
    match extract_surface_box line with
    | Some ((ParticleName, (r_min, r_max, phi_min, phi_max, z_min, z_max),
             ActiveTime, E_normal), _) =>
        s <- TCylindricalSurfaceSource_new ParticleName ActiveTime geom E_normal
               (mkCylinder r_min r_max (phi_min * conv env) (phi_max * conv env)
                  z_min z_max) ;;
        ret (Some (SurfaceSource s))
    | None => ret None
    end
  else if (sourcemode =? "STLsurface")%string then
    match extract_surface_file line with
    | Some ((ParticleName, sourcefile, ActiveTime, E_normal), _) =>
        s <- TSTLSurfaceSource_new ParticleName ActiveTime geom sourcefile E_normal ;;
        ret (Some (SurfaceSource s))
    | None => ret None
    end
  else ret None.

(** The constructor of [TSource].  [SOURCE] holds the entries of
    [geometryconf["SOURCE"]] in the order of the map; only the first one is
    read, and [begin()] of an empty section cannot be read through. *)
Definition TSource_new (SOURCE : list (string * string)) (geom : TGeometry)
  : M TSource :=
  match SOURCE with
  | [] => undefined
  | (sourcemode, line) :: _ =>
      source <- TSource_build sourcemode line geom ;;
      match source with
      | None =>
          print [Text nl; Text "Could not load source "; Text sourcemode;
                 Text "! Did you enter invalid parameters?"; Text nl] ;;;
          exit (-1)
      | Some s =>
          print [Text nl] ;;;
          ret (mkSource sourcemode s)
      end
  end.

Definition TSource_CreateParticle (fuel : nat) (self : TSource) : M (ptr * TSource) :=
  match source self with
  | VolumeSource v =>
      ' (p, v) <- TVolumeSource_CreateParticle env fuel v ;;
      ret (p, mkSource (sourcemode self) (VolumeSource v))
  | SurfaceSource s =>
      ' (p, s) <- TSurfaceSource_CreateParticle env s ;;
      ret (p, mkSource (sourcemode self) (SurfaceSource s))
  end.

(** [n] calls of [CreateParticle] in a row, as the simulation makes them:
    the particles they return, oldest first. *)
Fixpoint simulate (fuel : nat) (n : nat) (self : TSource) : M (list ptr * TSource) :=
  match n with
  | O => ret ([], self)
  | S n' =>
      ' (p, self) <- TSource_CreateParticle fuel self ;;
      ' (ps, self) <- simulate fuel n' self ;;
      ret (p :: ps, self)
  end.

End Dispatcher.

(** * Vocabulary of the statements *)

(** the class a particle name stands for, if any *)
Definition class_of_name (name : string) : option ParticleClass :=
  if (name =? NAME_NEUTRON)%string then Some TNeutron
  else if (name =? NAME_PROTON)%string then Some TProton
  else if (name =? NAME_ELECTRON)%string then Some TElectron
  else None.

(** the answer to the request number [k] from now on *)
Definition real_at (w : World) (k : nat) : R := reals (mc w) (cursor (mc w) + k).
Definition int_at (w : World) (k : nat) : Z := ints (mc w) (cursor (mc w) + k).

(** the generator after the requests [l], which took [k] answers *)
Definition consumed (g : TMCGenerator) (k : nat) (l : list Draw) : TMCGenerator :=
  mkGenerator (reals g) (ints g) (cursor g + k) (served g ++ l).

(** the particle a pointer of the heap points to *)
Definition particle_at (w : World) (q : ptr) : option TParticle :=
  match nth_error (heap w) q with
  | Some (Some p) => Some p
  | _ => None
  end.

Definition total_area (tris : list TTriangle) : R :=
  fold_right (fun t acc => area t + acc) 0 tris.

(** the running sum of the scan once it has added the triangle number [k] *)
Definition running_sum (tris : list TTriangle) (k : nat) : R :=
  total_area (firstn (S k) tris).

(** [c0 * tri[0] + c1 * tri[1] + c2 * tri[2]] *)
Definition combination (c0 c1 c2 : R) (i : TTriangle) : CPoint :=
  (c0 * coord0 (tri0 i) + c1 * coord0 (tri1 i) + c2 * coord0 (tri2 i),
   c0 * coord1 (tri0 i) + c1 * coord1 (tri1 i) + c2 * coord1 (tri2 i),
   c0 * coord2 (tri0 i) + c1 * coord2 (tri1 i) + c2 * coord2 (tri2 i)).

(** the requests of one call of [TSurfaceSource::CreateParticle] *)
Definition surface_draws (self : TSurfaceSource) : list Draw :=
  [UniformDraw 0 (fActiveTime (surface_base self));
   UniformDraw 0 (sourcearea self);
   UniformDraw 0 1; UniformDraw 0 1;
   SpectrumDraw (fParticleName (surface_base self));
   UniformDraw 0 (2 * PI); SinCosDraw 0 (0.5 * PI);
   PolarisationDraw (fParticleName (surface_base self))].

(** the triangle the scan of a call stops at *)
Definition chosen_triangle (self : TSurfaceSource) (w : World) : option TTriangle :=
  nth_error (sourcetris self)
    (scan_triangles (sourcetris self) 0 (real_at w 1) 0).

(** the particle a surface source emits from the triangle [tri] *)
Definition surface_particle (env : Collaborators) (self : TSurfaceSource)
  (w : World) (c : ParticleClass) (tri : TTriangle) : TParticle :=
  let ab := fold_pair (real_at w 2) (real_at w 3) in
  let p := point_above (REFLECT_TOLERANCE env) tri (fst ab) (snd ab) in
  let te := add_Enormal (Enormal self) (real_at w 4) (real_at w 6) in
  let angles := rotate_angles env (real_at w 5) (fst te) (normal tri) in
  construct env c (ParticleCounter (surface_base self) + 1) (real_at w 0)
    (coord0 p) (coord1 p) (coord2 p) (snd te) (fst angles) (snd angles).

(** the test of both constructors on a triangle of the geometry *)
Definition all_inside (inside : CPoint -> bool) (i : TTriangle) : bool :=
  inside (tri0 i) && inside (tri1 i) && inside (tri2 i).

(** the source modes the constructor of [TSource] knows *)
Definition recognized (mode : string) : bool :=
  ((mode =? "boxvolume") || (mode =? "cylvolume") || (mode =? "STLvolume")
   || (mode =? "cylsurface") || (mode =? "STLsurface"))%string.

(** one of the extractions of the fields of a known mode failed *)
Definition parse_failed (env : Collaborators) (mode line : string) : Prop :=
  ((mode = "boxvolume"%string \/ mode = "cylvolume"%string) /\ extract_volume_box env line = None) \/
  (mode = "STLvolume"%string /\ extract_volume_file env line = None) \/
  (mode = "cylsurface"%string /\ extract_surface_box env line = None) \/
  (mode = "STLsurface"%string /\ extract_surface_file env line = None).

(** a request for a uniform or a linear draw: in a volume source these
    are the requests for the time, for a position and for the acceptance
    of a position *)
Definition uniform_or_linear (d : Draw) : bool :=
  match d with
  | UniformDraw _ _ | LinearDraw _ _ => true
  | _ => false
  end.

(** a computation that only asks the generator for uniform or linear
    draws, and returns or is still running when the fuel has run out *)
Definition draws_only {A} (m : M A) : Prop :=
  forall w, exists k l,
    forallb uniform_or_linear l = true /\
    ((exists a, m w = Ret a (mkWorld (consumed (mc w) k l) (heap w) (out w))) \/
     m w = Spin (mkWorld (consumed (mc w) k l) (heap w) (out w))).

(** *** One trial of the phase-space loop *)

(** the provisional particle of the trial at [(x, y, z)] *)
Definition provisional (env : Collaborators) (c : ParticleClass)
  (self : TParticleSource) (t H phi_v theta_v x y z : R) : TParticle :=
  construct env c (ParticleCounter self + 1) t x y z H phi_v theta_v.

(** the potential [V = p->Hstart() - H] seen by the trial *)
Definition potential (env : Collaborators) (c : ParticleClass)
  (self : TParticleSource) (t H phi_v theta_v x y z : R) : R :=
  Hstart env (provisional env c self t H phi_v theta_v x y z) - H.

(** the next answer of the generator *)
Definition next_real (w : World) : R := reals (mc w) (cursor (mc w)).

(** the dot printed every 100000 trials *)
Definition progress (nroll : Z) : list Output :=
  if (nroll mod 100000 =? 0)%Z then [Text "."] else [].

(** the world after the trial has built its particle and drawn the
    number that decides on it; [cell] is what the trial leaves in the
    heap *)
Definition tried (nroll : Z) (cell : option TParticle) (w : World) : World :=
  mkWorld (advance (mc w) 1 (UniformDraw 0 1)) (heap w ++ [cell])
          (out w ++ progress nroll).

Definition abort_message : list Output :=
  [Text nl; Text "ABORT: Failed "; Int MAX_DICE_ROLL;
   Text " times to find a compatible spot!! NO particle will be simulated!!";
   Text nl; Text nl].

(** From the trial number [nroll] at [(x, y, z)] on, [n] further trials
    follow and none of them, this one included, passes the test. *)
Fixpoint never_accepted (env : Collaborators) (point : M CPoint)
  (c : ParticleClass) (self : TParticleSource) (t H phi_v theta_v : R)
  (n : nat) (nroll : Z) (x y z : R) (w : World) : Prop :=
  ~ next_real w < sqrt ((H - potential env c self t H phi_v theta_v x y z) / H) /\
  match n with
  | O => True
  | S n' =>
      exists x' y' z' w',
        point (tried nroll (Some (provisional env c self t H phi_v theta_v x y z)) w)
          = Ret (x', y', z') w' /\
        never_accepted env point c self t H phi_v theta_v n' (nroll + 1) x' y' z' w'
  end.

(** what holds of every outcome of the phase-space loop of the source
    [self] that started in the world [w] *)
Definition loop_outcome (env : Collaborators) (self : TParticleSource) (w : World)
  (o : Outcome ((ptr + (R * R * R * R)) * TParticleSource)) : Prop :=
  (exists k l, forallb uniform_or_linear l = true /\
               mc (world_of o) = consumed (mc w) k l) /\
  (exists extra, heap (world_of o) = heap w ++ extra) /\
  match o with
  | Ret (inl q, s) w' =>
      s = self /\ (List.length (heap w) <= q)%nat /\
      exists p, particle_at w' q = Some p /\
                particlenumber p = (ParticleCounter self + 1)%Z /\
                ID p = ID_INITIAL_NOT_FOUND env
  | Ret (inr _, s) _ => s = self
  | Exit code _ => class_of_name (fParticleName self) = None /\ code = (-1)%Z
  | Undefined _ => False
  | Spin _ => True
  end.

(** the requests of [TVolumeSource::CreateParticle] before the first
    point is drawn *)
Definition volume_draws (self : TVolumeSource) : list Draw :=
  [UniformDraw 0 (fActiveTime (volume_base self));
   SpectrumDraw (fParticleName (volume_base self));
   AngularDraw (fParticleName (volume_base self));
   PolarisationDraw (fParticleName (volume_base self))].

(** the world in which the phase-space loop is entered *)
Definition announced (self : TVolumeSource) (H : R) (w : World) : World :=
  mkWorld (mc w) (heap w)
    (out w ++ [Text "Trying to find starting position for ";
               Text (fParticleName (volume_base self));
               Text " with total energy = "; Real (H * 1e9); Text " neV "]).

(** what holds of every outcome of [TVolumeSource::CreateParticle] called
    on [self] in the world [w] *)
Definition volume_outcome (env : Collaborators) (self : TVolumeSource) (w : World)
  (o : Outcome (ptr * TVolumeSource)) : Prop :=
  (exists k l, forallb uniform_or_linear l = true /\
               mc (world_of o) = consumed (mc w) (5 + k) (volume_draws self ++ l)) /\
  (exists extra, heap (world_of o) = heap w ++ extra) /\
  match o with
  | Ret (q, self') w' =>
      fPhaseSpaceWeighting self' = fPhaseSpaceWeighting self /\
      shape self' = shape self /\
      fParticleName (volume_base self') = fParticleName (volume_base self) /\
      fActiveTime (volume_base self') = fActiveTime (volume_base self) /\
      (List.length (heap w) <= q)%nat /\
      exists p, particle_at w' q = Some p /\
        particlenumber p = (ParticleCounter (volume_base self) + 1)%Z /\
        ((ParticleCounter (volume_base self')
            = (ParticleCounter (volume_base self) + 1)%Z /\
          ID p = ID_UNKNOWN env) \/
         (ParticleCounter (volume_base self') = ParticleCounter (volume_base self) /\
          ID p = ID_INITIAL_NOT_FOUND env /\
          fPhaseSpaceWeighting self = true))
  | Exit code _ =>
      class_of_name (fParticleName (volume_base self)) = None /\ code = (-1)%Z
  | Undefined _ => False
  | Spin _ => True
  end.

(** the variables of the loop at the head of a trial *)
Record Trial := mkTrial {
  trial_nroll : Z;
  trial_x : R;
  trial_y : R;
  trial_z : R;
  trial_E : R;
  trial_world : World
}.

(** A trial that does not leave the loop is followed by the next one:
    either its candidate was not accepted and the budget is not used up,
    or its candidate was accepted with a kinetic energy that is not
    positive; a new point is drawn in both cases. *)
Inductive goes_on (env : Collaborators) (point : M CPoint) (c : ParticleClass)
  (self : TParticleSource) (t H phi_v theta_v : R) : Trial -> Trial -> Prop :=
| goes_on_rejected nroll x y z E w x' y' z' w' :
    ~ next_real w < sqrt ((H - potential env c self t H phi_v theta_v x y z) / H) ->
    (nroll < MAX_DICE_ROLL)%Z ->
    point (tried nroll (Some (provisional env c self t H phi_v theta_v x y z)) w)
      = Ret (x', y', z') w' ->
    goes_on env point c self t H phi_v theta_v
      (mkTrial nroll x y z E w) (mkTrial (nroll + 1) x' y' z' E w')
| goes_on_unusable nroll x y z E w x' y' z' w' :
    next_real w < sqrt ((H - potential env c self t H phi_v theta_v x y z) / H) ->
    ~ H - potential env c self t H phi_v theta_v x y z > 0 ->
    (nroll <= MAX_DICE_ROLL)%Z ->
    point (tried nroll None w) = Ret (x', y', z') w' ->
    goes_on env point c self t H phi_v theta_v
      (mkTrial nroll x y z E w)
      (mkTrial (nroll + 1) x' y' z'
         (H - potential env c self t H phi_v theta_v x y z) w').

(** the trials the loop comes to, one after the other *)
Inductive reaches (env : Collaborators) (point : M CPoint) (c : ParticleClass)
  (self : TParticleSource) (t H phi_v theta_v : R) : Trial -> Trial -> Prop :=
| reaches_here s : reaches env point c self t H phi_v theta_v s s
| reaches_later s s' s'' :
    goes_on env point c self t H phi_v theta_v s s' ->
    reaches env point c self t H phi_v theta_v s' s'' ->
    reaches env point c self t H phi_v theta_v s s''.

(** the loop from the head of a trial on *)
Definition dice_loop_from (env : Collaborators) (rounds : nat) (point : M CPoint)
  (self : TParticleSource) (t H phi_v theta_v : R) (polarisation : Z) (s : Trial)
  : Outcome ((ptr + (R * R * R * R)) * TParticleSource) :=
  dice_loop env rounds point self t H phi_v theta_v polarisation
    (trial_nroll s) (trial_x s) (trial_y s) (trial_z s) (trial_E s) (trial_world s).

(** the particle counter of the source a [TSource] holds *)
Definition counter (src : TSource) : Z :=
  match source src with
  | VolumeSource v => ParticleCounter (volume_base v)
  | SurfaceSource s => ParticleCounter (surface_base s)
  end.

(** what holds of every outcome of [TSource::CreateParticle] called on
    [src] in the world [w] *)
Definition call_outcome (env : Collaborators) (src : TSource) (w : World)
  (o : Outcome (ptr * TSource)) : Prop :=
  (exists extra, heap (world_of o) = heap w ++ extra) /\
  match o with
  | Ret (q, src') w' =>
      (List.length (heap w) <= q)%nat /\
      exists p, particle_at w' q = Some p /\
        particlenumber p = (counter src + 1)%Z /\
        ((counter src' = (counter src + 1)%Z /\ ID p = ID_UNKNOWN env) \/
         (counter src' = counter src /\ ID p = ID_INITIAL_NOT_FOUND env))
  | _ => True
  end.



(** [s] is what one of the two constructors of a clipped surface source
    returns for the geometry, [inside] being the test it makes on a
    vertex *)
Definition constructed (env : Collaborators) (geometry : TGeometry)
  (inside : CPoint -> bool) (s : TSurfaceSource) : Prop :=
  (exists ParticleName ActiveTime E_normal c w0 w1,
     inside = TCylindricalSurfaceSource_InSourceVolume c /\
     TCylindricalSurfaceSource_new ParticleName ActiveTime geometry E_normal c w0
       = Ret s w1) \/
  (exists ParticleName ActiveTime E_normal sourcefile w0 w1,
     inside = InSolid env sourcefile /\
     TSTLSurfaceSource_new env ParticleName ActiveTime geometry sourcefile E_normal w0
       = Ret s w1).

(** the candidate number [j] of the search in the bounding box: three
    answers of the generator in a row *)
Definition candidate (w : World) (j : nat) : CPoint :=
  (real_at w (3 * j), real_at w (3 * j + 1), real_at w (3 * j + 2)).

(** the requests of [n] rounds of that search *)
Fixpoint box_draws (env : Collaborators) (sourcefile : string) (n : nat) : list Draw :=
  match n with
  | O => []
  | S n' =>
      [UniformDraw (fst (fst (fst (bbox env sourcefile))))
                   (snd (fst (fst (bbox env sourcefile))));
       UniformDraw (fst (snd (fst (bbox env sourcefile))))
                   (snd (snd (fst (bbox env sourcefile))));
       UniformDraw (fst (snd (bbox env sourcefile)))
                   (snd (snd (bbox env sourcefile)))]
      ++ box_draws env sourcefile n'
  end.

(** whether the source a [TSource] holds weights its positions by the
    available phase space *)
Definition weighted (src : TSource) : bool :=
  match source src with
  | VolumeSource v => fPhaseSpaceWeighting v
  | SurfaceSource _ => false
  end.

(** the base object of the source a [TSource] holds *)
Definition base_of (src : TSource) : TParticleSource :=
  match source src with
  | VolumeSource v => volume_base v
  | SurfaceSource s => surface_base s
  end.

(** a computation that takes three answers of the generator and returns *)
Definition takes_three {A} (m : M A) : Prop :=
  forall w, exists a l,
    m w = Ret a (mkWorld (consumed (mc w) 3 l) (heap w) (out w)).



(** ** Concrete collaborators, sources and worlds *)

(** Collaborators in which nothing can be parsed, [RotateVector] leaves
    the vector as it is, and the potential of a particle is its height
    [z]: [Hstart] is the kinetic energy plus [z]. *)
Definition plain_env : Collaborators :=
  mkCollaborators (1 / 1000000) 0 (-5) (PI / 180)
    (fun v _ => v)
    (fun p => Estart p + zstart p)
    (fun _ _ => true)
    (fun _ => ((0, 1), (0, 1), (0, 1)))
    (fun _ => None) (fun _ => None) (fun _ => None).

(** a generator that answers from the script [f] and always dices the
    polarisation 1 *)
Definition scripted (f : nat -> R) : TMCGenerator :=
  mkGenerator f (fun _ => 1%Z) 0 [].

Definition fresh_world (g : TMCGenerator) : World := mkWorld g [] [].

Definition small_triangle : TTriangle :=
  mkTriangle (0, 0, 0) (1, 0, 0) (0, 1, 0) (0, 0, 1) (1 / 2).

Definition large_triangle : TTriangle :=
  mkTriangle (0, 0, 0) (2, 0, 0) (0, 1, 0) (0, 0, 1) 1.

(** a neutron source on the two triangles with the normal field [En] *)
Definition two_triangles (En : R) : TSurfaceSource :=
  mkSurfaceSource (TParticleSource_new "neutron" 1) (3 / 2)
    [small_triangle; large_triangle] En.

(** the same source without triangles *)
Definition no_triangles : TSurfaceSource := TSurfaceSource_new "neutron" 1 0.

(** a script whose answer number 4, the energy of the surface source,
    is 4, and whose other answers are 0 *)
Definition energy_four (n : nat) : R := if (n =? 4)%nat then 4 else 0.

(** a neutron source in the unit cube, weighted by the phase space or not *)
Definition unit_cube (PhaseSpaceWeighting : bool) : TVolumeSource :=
  TCuboidVolumeSource_new "neutron" 1 PhaseSpaceWeighting 0 1 0 1 0 1.

(** the script whose answers are all 1: in [plain_env] the energy is 1
    and every point has the height 1, so that no kinetic energy is left *)
Definition all_ones : nat -> R := fun _ => 1.

(** a script for a search that succeeds at the second candidate: the
    energy, answer number 1, is 1; the first candidate has the height 1,
    answer number 7, and is not accepted; the second one has the height 0
    and the number that decides on it, answer number 12, is one half *)
Definition second_try (n : nat) : R :=
  match n with
  | 1%nat => 1
  | 7%nat => 1
  | 12%nat => 1 / 2
  | _ => 0
  end.

(** a sector whose azimuth starts at 5, above pi *)
Definition beyond_pi : Cylinder := mkCylinder 0 10 5 6 (-10) 10.

(** a sector around the positive x axis *)
Definition front_sector : Cylinder := mkCylinder 0 10 (-1) 1 (-10) 10.

(** a script whose first answer is 1 and whose other answers are 0 *)
Definition one_then_zeros (n : nat) : R := if (n =? 0)%nat then 1 else 0.

(** the collaborators of [plain_env] with a solid that holds no point *)
Definition hollow_env : Collaborators :=
  mkCollaborators (1 / 1000000) 0 (-5) (PI / 180)
    (fun v _ => v)
    (fun p => Estart p + zstart p)
    (fun _ _ => false)
    (fun _ => ((0, 1), (0, 1), (0, 1)))
    (fun _ => None) (fun _ => None) (fun _ => None).

(** collaborators whose extractions always succeed: every string that is
    read is [name], every number 1 and every flag [psw] *)
Definition reading_env (name : string) (psw : bool) : Collaborators :=
  mkCollaborators (1 / 1000000) 0 (-5) (PI / 180)
    (fun v _ => v)
    (fun p => Estart p + zstart p)
    (fun _ _ => true)
    (fun _ => ((0, 1), (0, 1), (0, 1)))
    (fun s => Some (name, s)) (fun s => Some (1, s)) (fun s => Some (psw, s)).


(** a script for a point on a triangle: the two numbers drawn for it,
    the answers number 2 and 3, are 3/4 and 1/2; the other answers are 0 *)
Definition on_the_triangle (n : nat) : R :=
  match n with
  | 2%nat => 3 / 4
  | 3%nat => 1 / 2
  | _ => 0
  end.


(** * Properties *)

(** ** Stepping through a method *)

Lemma bind_ret {A B} (a : A) (k : A -> M B) w : bind (ret a) k w = k a w.
Proof. reflexivity. Qed.

Lemma bind_print {B} (l : list Output) (k : unit -> M B) w :
  bind (print l) k w = k tt (mkWorld (mc w) (heap w) (out w ++ l)).
Proof. reflexivity. Qed.

Lemma bind_draw {A B} (f : TMCGenerator -> A * TMCGenerator) (k : A -> M B) w :
  bind (draw f) k w =
  k (fst (f (mc w))) (mkWorld (snd (f (mc w))) (heap w) (out w)).
Proof. unfold bind, draw. destruct (f (mc w)). reflexivity. Qed.

Lemma bind_assoc {A B C} (m : M A) (f : A -> M B) (g : B -> M C) w :
  bind (bind m f) g w = bind m (fun a => bind (f a) g) w.
Proof. unfold bind. destruct (m w); reflexivity. Qed.

Lemma advance_consumed g k l j d :
  advance (consumed g k l) j d = consumed g (k + j) (l ++ [d]).
Proof.
  unfold advance, consumed; cbn.
  now rewrite Nat.add_assoc, <- app_assoc.
Qed.

Lemma advance_first g j d : advance g j d = consumed g j [d].
Proof. reflexivity. Qed.

Lemma consumed_nothing g : consumed g 0 [] = g.
Proof.
  destruct g; unfold consumed; cbn. now rewrite Nat.add_0_r, app_nil_r.
Qed.

Lemma consumed_consumed g k l k' l' :
  consumed (consumed g k l) k' l' = consumed g (k + k') (l ++ l').
Proof.
  unfold consumed; cbn. now rewrite Nat.add_assoc, <- app_assoc.
Qed.

Ltac step_draw :=
  unfold UniformDist, LinearDist, SinCosDist, Spectrum, AngularDist,
    DicePolarisation;
  rewrite bind_draw;
  cbn [fst snd gen_UniformDist gen_LinearDist gen_SinCosDist gen_Spectrum
       gen_AngularDist gen_DicePolarisation mc heap out];
  rewrite ?advance_consumed, ?advance_first;
  cbn [consumed reals ints cursor served Nat.add app].

(** decides the comparisons of reals that stand in the goal *)
Ltac decide_reals :=
  repeat match goal with
    | |- context [Rle_dec ?a ?b] => destruct (Rle_dec a b); try lra
    | |- context [Rlt_dec ?a ?b] => destruct (Rlt_dec a b); try lra
    | |- context [Rgt_dec ?a ?b] => destruct (Rgt_dec a b); try lra
    | |- context [Rge_dec ?a ?b] => destruct (Rge_dec a b); try lra
    end.

(** ** The base factory *)

Lemma factory_known env self t x y z E phi theta pol c w :
  class_of_name (fParticleName self) = Some c ->
  TParticleSource_CreateParticle env self t x y z E phi theta pol w =
  Ret (List.length (heap w), set_ParticleCounter self (ParticleCounter self + 1))
      (mkWorld (mc w)
         (heap w ++ [Some (construct env c (ParticleCounter self + 1)
                             t x y z E phi theta)])
         (out w)).
Proof.
  unfold class_of_name, TParticleSource_CreateParticle.
  destruct (fParticleName self =? NAME_NEUTRON)%string.
  { intros [= <-]. reflexivity. }
  destruct (fParticleName self =? NAME_PROTON)%string.
  { intros [= <-]. reflexivity. }
  destruct (fParticleName self =? NAME_ELECTRON)%string.
  { intros [= <-]. reflexivity. }
  discriminate.
Qed.

Lemma factory_unknown env self t x y z E phi theta pol w :
  class_of_name (fParticleName self) = None ->
  TParticleSource_CreateParticle env self t x y z E phi theta pol w =
  Exit (-1)
    (mkWorld (mc w) (heap w)
       (out w ++ [Text "Could not create particle "; Text (fParticleName self);
                  Text nl])).
Proof.
  unfold class_of_name, TParticleSource_CreateParticle.
  destruct (fParticleName self =? NAME_NEUTRON)%string; [discriminate|].
  destruct (fParticleName self =? NAME_PROTON)%string; [discriminate|].
  destruct (fParticleName self =? NAME_ELECTRON)%string; [discriminate|].
  reflexivity.
Qed.

(** ** One call of the surface source, in closed form *)

Lemma surface_returns env self w c tri :
  class_of_name (fParticleName (surface_base self)) = Some c ->
  chosen_triangle self w = Some tri ->
  TSurfaceSource_CreateParticle env self w =
  Ret (List.length (heap w),
       set_surface_base self
         (set_ParticleCounter (surface_base self)
            (ParticleCounter (surface_base self) + 1)))
      (mkWorld (consumed (mc w) 8 (surface_draws self))
         (heap w ++ [Some (surface_particle env self w c tri)])
         (out w)).
Proof.
  intros Hc Ht.
  unfold TSurfaceSource_CreateParticle, chosen_triangle, surface_particle,
    real_at in *.
  do 4 step_draw.
  rewrite Nat.add_0_r.
  destruct (fold_pair _ _) as [a b]; cbn [fst snd].
  unfold at_iterator. rewrite Ht, bind_ret.
  do 3 step_draw.
  destruct (add_Enormal _ _ _) as [th Ek]; cbn [fst snd].
  destruct (rotate_angles _ _ _ _) as [ph th']; cbn [fst snd].
  step_draw.
  unfold bind at 1. rewrite (factory_known _ _ _ _ _ _ _ _ _ _ c) by exact Hc.
  reflexivity.
Qed.

Lemma surface_exits env self w tri :
  class_of_name (fParticleName (surface_base self)) = None ->
  chosen_triangle self w = Some tri ->
  TSurfaceSource_CreateParticle env self w =
  Exit (-1)
    (mkWorld (consumed (mc w) 8 (surface_draws self)) (heap w)
       (out w ++ [Text "Could not create particle ";
                  Text (fParticleName (surface_base self)); Text nl])).
Proof.
  intros Hc Ht.
  unfold TSurfaceSource_CreateParticle, chosen_triangle, real_at in *.
  do 4 step_draw.
  destruct (fold_pair _ _) as [a b]; cbn [fst snd].
  unfold at_iterator. rewrite Ht, bind_ret.
  do 3 step_draw.
  destruct (add_Enormal _ _ _) as [th Ek]; cbn [fst snd].
  destruct (rotate_angles _ _ _ _) as [ph th']; cbn [fst snd].
  step_draw.
  unfold bind at 1. rewrite factory_unknown by exact Hc.
  reflexivity.
Qed.

Lemma surface_reads_end env self w :
  chosen_triangle self w = None ->
  TSurfaceSource_CreateParticle env self w =
  Undefined
    (mkWorld (consumed (mc w) 4
                [UniformDraw 0 (fActiveTime (surface_base self));
                 UniformDraw 0 (sourcearea self);
                 UniformDraw 0 1; UniformDraw 0 1])
       (heap w) (out w)).
Proof.
  intros Ht.
  unfold TSurfaceSource_CreateParticle, chosen_triangle, real_at in *.
  do 4 step_draw.
  destruct (fold_pair _ _) as [a b]; cbn [fst snd].
  unfold at_iterator. rewrite Ht.
  reflexivity.
Qed.

(** ** The scan over the triangles *)

Lemma scan_triangles_shift rest i u s :
  scan_triangles rest i u s = (i + scan_triangles rest 0 u s)%nat.
Proof.
  revert i s; induction rest as [|t rest IH]; intros i s; cbn.
  - lia.
  - destruct (Rle_dec u (s + area t)); [lia|].
    rewrite (IH (S i)), (IH 1%nat). lia.
Qed.

Lemma total_area_cons t tris : total_area (t :: tris) = area t + total_area tris.
Proof. reflexivity. Qed.

Lemma scan_triangles_stops rest u s :
  let k := scan_triangles rest 0 u s in
  (k <= List.length rest)%nat /\
  (forall j, (j < k)%nat -> s + total_area (firstn (S j) rest) < u) /\
  ((k < List.length rest)%nat -> u <= s + total_area (firstn (S k) rest)).
Proof.
  revert s; induction rest as [|t rest IH]; intros s; cbn zeta.
  - cbn. repeat split; intros; lia.
  - cbn [scan_triangles].
    destruct (Rle_dec u (s + area t)) as [Hle|Hgt].
    + repeat split; [cbn; lia | intros; lia |].
      intros _. cbn. lra.
    + apply Rnot_le_lt in Hgt.
      rewrite scan_triangles_shift.
      destruct (IH (s + area t)) as (Hk & Hbefore & Hat).
      repeat split.
      * cbn. lia.
      * intros [|j] Hj.
        -- clear - Hgt. cbn. destruct rest; cbn; lra.
        -- specialize (Hbefore j ltac:(lia)).
           change (firstn (S (S j)) (t :: rest)) with (t :: firstn (S j) rest).
           rewrite total_area_cons. lra.
      * intros Hlt. cbn [List.length] in Hlt.
        specialize (Hat ltac:(lia)).
        change (firstn (S (1 + scan_triangles rest 0 u (s + area t))) (t :: rest))
          with (t :: firstn (S (scan_triangles rest 0 u (s + area t))) rest).
        rewrite total_area_cons. lra.
Qed.

Lemma prefix_area_le tris n :
  (forall t, In t tris -> 0 <= area t) ->
  total_area (firstn n tris) <= total_area tris.
Proof.
  revert n; induction tris as [|t tris IH]; intros n Hpos.
  - rewrite firstn_nil. cbn. lra.
  - assert (Hrest : 0 <= total_area tris).
    { specialize (IH 0%nat ltac:(intros; apply Hpos; now right)). cbn in IH. lra. }
    destruct n as [|n]; cbn [firstn]; rewrite ?total_area_cons.
    + specialize (Hpos t (or_introl eq_refl)). cbn. lra.
    + specialize (IH n ltac:(intros; apply Hpos; now right)). lra.
Qed.

Lemma scan_triangles_inside tris u :
  tris <> [] -> u <= total_area tris ->
  (scan_triangles tris 0 u 0 < List.length tris)%nat.
Proof.
  intros Hne Hu.
  destruct (scan_triangles_stops tris u 0) as (Hk & Hbefore & _).
  destruct (Nat.eq_dec (scan_triangles tris 0 u 0) (List.length tris)) as [E|]; [|lia].
  exfalso.
  destruct tris as [|t tris]; [congruence|].
  specialize (Hbefore (List.length tris) ltac:(rewrite E; cbn; lia)).
  change (S (List.length tris)) with (List.length (t :: tris)) in Hbefore.
  rewrite firstn_all in Hbefore. lra.
Qed.

Lemma scan_triangles_outside tris u :
  (forall t, In t tris -> 0 <= area t) -> total_area tris < u ->
  scan_triangles tris 0 u 0 = List.length tris.
Proof.
  intros Hpos Hu.
  destruct (scan_triangles_stops tris u 0) as (Hk & _ & Hat).
  destruct (Nat.eq_dec (scan_triangles tris 0 u 0) (List.length tris)) as [E|]; [exact E|].
  specialize (Hat ltac:(lia)).
  pose proof (prefix_area_le tris (S (scan_triangles tris 0 u 0)) Hpos). lra.
Qed.

Lemma nth_error_inside {A} (l : list A) k :
  (k < List.length l)%nat -> exists a, nth_error l k = Some a.
Proof.
  intros H. destruct (nth_error l k) eqn:E; [eauto|].
  apply nth_error_None in E. lia.
Qed.

(** ** The point on the triangle *)

Lemma fold_pair_inside a b :
  0 <= a <= 1 -> 0 <= b <= 1 ->
  0 <= fst (fold_pair a b) /\ 0 <= snd (fold_pair a b) /\
  fst (fold_pair a b) + snd (fold_pair a b) <= 1.
Proof.
  intros Ha Hb. unfold fold_pair.
  destruct (Rgt_dec (a + b) 1) as [Hgt|Hle]; cbn [fst snd]; lra.
Qed.

Lemma point_above_combination tol i a b :
  point_above tol i a b =
  padd (combination (1 - a - b) a b i) (vscale tol (normal i)).
Proof.
  unfold point_above, combination, padd, vscale, psub, coord0, coord1, coord2.
  cbn [fst snd].
  repeat (f_equal; try ring).
Qed.

Lemma particle_at_new g h o p :
  particle_at (mkWorld g (h ++ [Some p]) o) (List.length h) = Some p.
Proof.
  unfold particle_at; cbn [heap].
  now rewrite nth_error_app2, Nat.sub_diag by lia.
Qed.

(** C6: with [a] and [b] drawn from the unit square, the pair left by
    the fold is [(1 - a, 1 - b)] when [a + b > 1] and [(a, b)] otherwise;
    its members are non-negative and sum to at most one, so that the
    point [(1 - a - b) * v0 + a * v1 + b * v2] lies in the closed triangle
    with the vertices [v0], [v1], [v2].  The particle starts at this
    point moved by [REFLECT_TOLERANCE] times the normal [n] of the
    triangle: each of its three coordinates is given from those of the
    vertices and of the normal. *)
Theorem C6_point_in_closed_triangle env self w :
  0 <= real_at w 2 <= 1 ->
  0 <= real_at w 3 <= 1 ->
  let a := fst (fold_pair (real_at w 2) (real_at w 3)) in
  let b := snd (fold_pair (real_at w 2) (real_at w 3)) in
  (0 <= a /\ 0 <= b /\ a + b <= 1) /\
  (0 <= 1 - a - b /\ (1 - a - b) + a + b = 1) /\
  (real_at w 2 + real_at w 3 > 1 -> a = 1 - real_at w 2 /\ b = 1 - real_at w 3) /\
  (real_at w 2 + real_at w 3 <= 1 -> a = real_at w 2 /\ b = real_at w 3) /\
  (forall tol x0 y0 z0 x1 y1 z1 x2 y2 z2 nx ny nz ar,
     point_above tol
       (mkTriangle (x0, y0, z0) (x1, y1, z1) (x2, y2, z2) (nx, ny, nz) ar) a b =
     ((1 - a - b) * x0 + a * x1 + b * x2 + tol * nx,
      (1 - a - b) * y0 + a * y1 + b * y2 + tol * ny,
      (1 - a - b) * z0 + a * z1 + b * z2 + tol * nz)) /\
  (forall c x0 y0 z0 x1 y1 z1 x2 y2 z2 nx ny nz ar,
     class_of_name (fParticleName (surface_base self)) = Some c ->
     chosen_triangle self w =
       Some (mkTriangle (x0, y0, z0) (x1, y1, z1) (x2, y2, z2) (nx, ny, nz) ar) ->
     exists q self' w' p,
       TSurfaceSource_CreateParticle env self w = Ret (q, self') w' /\
       particle_at w' q = Some p /\
       xstart p = (1 - a - b) * x0 + a * x1 + b * x2 + REFLECT_TOLERANCE env * nx /\
       ystart p = (1 - a - b) * y0 + a * y1 + b * y2 + REFLECT_TOLERANCE env * ny /\
       zstart p = (1 - a - b) * z0 + a * z1 + b * z2 + REFLECT_TOLERANCE env * nz).
Proof.
  intros Ha Hb a b.
  destruct (fold_pair_inside _ _ Ha Hb) as (H1 & H2 & H3).
  fold a b in H1, H2, H3.
  assert (Hpoint : forall tol x0 y0 z0 x1 y1 z1 x2 y2 z2 nx ny nz ar,
    point_above tol
      (mkTriangle (x0, y0, z0) (x1, y1, z1) (x2, y2, z2) (nx, ny, nz) ar) a b =
    ((1 - a - b) * x0 + a * x1 + b * x2 + tol * nx,
     (1 - a - b) * y0 + a * y1 + b * y2 + tol * ny,
     (1 - a - b) * z0 + a * z1 + b * z2 + tol * nz)).
  { intros tol x0 y0 z0 x1 y1 z1 x2 y2 z2 nx ny nz ar.
    unfold point_above, padd, vscale, psub, coord0, coord1, coord2.
    cbn [tri0 tri1 tri2 normal fst snd].
    f_equal; [f_equal|]; ring. }
  split; [auto|]. split; [lra|].
  split.
  { intros Hgt. subst a b. unfold fold_pair.
    destruct (Rgt_dec _ 1) as [_|Hle]; [cbn [fst snd]; auto|contradiction]. }
  split.
  { intros Hle. subst a b. unfold fold_pair.
    destruct (Rgt_dec _ 1) as [Hgt|_]; [lra|cbn [fst snd]; auto]. }
  split; [exact Hpoint|].
  intros c x0 y0 z0 x1 y1 z1 x2 y2 z2 nx ny nz ar Hc Ht.
  eexists _, _, _, _. split; [apply (surface_returns env self w c _ Hc Ht)|].
  split; [apply particle_at_new|].
  unfold surface_particle, construct; cbn [xstart ystart zstart].
  fold a b. rewrite Hpoint. cbn [coord0 coord1 coord2 fst snd].
  repeat split.
Qed.

Lemma C6_witness :
  (0 <= fst (fold_pair (3 / 4) (1 / 2)) /\ 0 <= snd (fold_pair (3 / 4) (1 / 2)) /\
   fst (fold_pair (3 / 4) (1 / 2)) + snd (fold_pair (3 / 4) (1 / 2)) <= 1) /\
  (fst (fold_pair (3 / 4) (1 / 2)) = 1 / 4 /\ snd (fold_pair (3 / 4) (1 / 2)) = 1 / 2) /\
  exists q self' w' p,
    TSurfaceSource_CreateParticle plain_env (two_triangles 0)
      (fresh_world (scripted on_the_triangle)) = Ret (q, self') w' /\
    particle_at w' q = Some p /\
    xstart p = 1 / 4 /\ ystart p = 1 / 2 /\ zstart p = 1 / 1000000.
Proof.
  pose proof (C6_point_in_closed_triangle plain_env (two_triangles 0)
                (fresh_world (scripted on_the_triangle))
                ltac:(cbn; lra) ltac:(cbn; lra)) as H.
  cbv zeta in H.
  change (real_at (fresh_world (scripted on_the_triangle)) 2) with (3 / 4) in H.
  change (real_at (fresh_world (scripted on_the_triangle)) 3) with (1 / 2) in H.
  destruct H as (Hin & _ & Hfold & _ & _ & Hcall).
  destruct (Hfold ltac:(lra)) as (Hfa & Hfb).
  split; [exact Hin|].
  split; [split; lra|].
  destruct (Hcall TNeutron 0 0 0 1 0 0 0 1 0 0 0 1 (1 / 2)) as (q & s' & w' & p & Hret & Hp & Hx & Hy & Hz).
  - reflexivity.
  - unfold chosen_triangle, real_at; cbn. decide_reals. reflexivity.
  - exists q, s', w', p. split; [exact Hret|]. split; [exact Hp|].
    rewrite Hfa, Hfb in Hx, Hy, Hz. cbn [plain_env REFLECT_TOLERANCE] in Hx, Hy, Hz.
    split; [lra|]. split; lra.
Defined.

(** ** The triangle that is chosen *)

(** C5: on a source whose cached area is the sum of the areas of its
    triangles, a draw [u] between 0 and that area stops the scan at the
    first triangle, in the order of the list, whose running sum reaches or
    exceeds [u]; this is the triangle the particle is emitted from. *)
Theorem C5_first_triangle_reaching_the_draw env self w :
  sourcetris self <> [] ->
  sourcearea self = total_area (sourcetris self) ->
  0 <= real_at w 1 <= sourcearea self ->
  exists k tri,
    scan_triangles (sourcetris self) 0 (real_at w 1) 0 = k /\
    nth_error (sourcetris self) k = Some tri /\
    real_at w 1 <= running_sum (sourcetris self) k /\
    (forall j, (j < k)%nat -> running_sum (sourcetris self) j < real_at w 1) /\
    (forall c,
       class_of_name (fParticleName (surface_base self)) = Some c ->
       exists q self' w',
         TSurfaceSource_CreateParticle env self w = Ret (q, self') w' /\
         particle_at w' q = Some (surface_particle env self w c tri)).
Proof.
  intros Hne Hinv [_ Hu]. rewrite Hinv in Hu.
  pose proof (scan_triangles_inside _ _ Hne Hu) as Hk.
  destruct (nth_error_inside _ _ Hk) as [tri Ht].
  destruct (scan_triangles_stops (sourcetris self) (real_at w 1) 0)
    as (_ & Hbefore & Hat).
  exists (scan_triangles (sourcetris self) 0 (real_at w 1) 0), tri.
  split; [reflexivity|]. split; [exact Ht|].
  unfold running_sum.
  split; [specialize (Hat Hk); lra|].
  split; [intros j Hj; specialize (Hbefore j Hj); lra|].
  intros c Hc. eexists _, _, _.
  split; [apply (surface_returns env self w c tri Hc Ht)|].
  apply particle_at_new.
Qed.

Lemma C5_witness :
  exists k tri,
    scan_triangles (sourcetris (two_triangles 0)) 0 1 0 = k /\
    nth_error (sourcetris (two_triangles 0)) k = Some tri /\
    1 <= running_sum (sourcetris (two_triangles 0)) k /\
    (forall j, (j < k)%nat -> running_sum (sourcetris (two_triangles 0)) j < 1) /\
    (forall c,
       class_of_name (fParticleName (surface_base (two_triangles 0))) = Some c ->
       exists q self' w',
         TSurfaceSource_CreateParticle plain_env (two_triangles 0)
           (fresh_world (scripted all_ones)) = Ret (q, self') w' /\
         particle_at w' q =
           Some (surface_particle plain_env (two_triangles 0)
                   (fresh_world (scripted all_ones)) c tri)).
Proof.
  apply (C5_first_triangle_reaching_the_draw plain_env (two_triangles 0)
           (fresh_world (scripted all_ones))).
  - discriminate.
  - cbn. lra.
  - cbn. unfold all_ones. lra.
Defined.

(** C10: when the list of triangles is not empty and the draw does not
    exceed the sum of their areas, the scan leaves through [break] with
    the iterator on an element of the list, and the call never reads
    through [end()].  With an empty list, or with triangles of
    non-negative area and a draw above the sum of the areas, the iterator
    is [end()] after the scan and the call reads through it. *)
Theorem C10_iterator_of_the_scan env self w :
  (sourcetris self <> [] ->
   real_at w 1 <= total_area (sourcetris self) ->
   (scan_triangles (sourcetris self) 0 (real_at w 1) 0
      < List.length (sourcetris self))%nat /\
   (exists tri, chosen_triangle self w = Some tri) /\
   (forall w', TSurfaceSource_CreateParticle env self w <> Undefined w')) /\
  (sourcetris self = [] ->
   scan_triangles (sourcetris self) 0 (real_at w 1) 0
     = List.length (sourcetris self) /\
   exists w', TSurfaceSource_CreateParticle env self w = Undefined w') /\
  ((forall t, In t (sourcetris self) -> 0 <= area t) ->
   total_area (sourcetris self) < real_at w 1 ->
   scan_triangles (sourcetris self) 0 (real_at w 1) 0
     = List.length (sourcetris self) /\
   exists w', TSurfaceSource_CreateParticle env self w = Undefined w').
Proof.
  assert (Hend : scan_triangles (sourcetris self) 0 (real_at w 1) 0
                 = List.length (sourcetris self) ->
                 exists w', TSurfaceSource_CreateParticle env self w = Undefined w').
  { intros E. eexists. apply surface_reads_end.
    unfold chosen_triangle. rewrite E. apply nth_error_None. lia. }
  split; [|split].
  - intros Hne Hu.
    pose proof (scan_triangles_inside _ _ Hne Hu) as Hk.
    destruct (nth_error_inside _ _ Hk) as [tri Ht].
    split; [exact Hk|]. split; [now exists tri|].
    intros w'.
    destruct (class_of_name (fParticleName (surface_base self))) as [c|] eqn:Hc.
    + rewrite (surface_returns env self w c tri Hc Ht). discriminate.
    + rewrite (surface_exits env self w tri Hc Ht). discriminate.
  - intros E.
    assert (H : scan_triangles (sourcetris self) 0 (real_at w 1) 0
                = List.length (sourcetris self)) by now rewrite E.
    split; [exact H | exact (Hend H)].
  - intros Hpos Hu.
    pose proof (scan_triangles_outside _ _ Hpos Hu) as H.
    split; [exact H | exact (Hend H)].
Qed.

Lemma C10_witness :
  ((scan_triangles (sourcetris (two_triangles 0)) 0 1 0
      < List.length (sourcetris (two_triangles 0)))%nat /\
   (exists tri, chosen_triangle (two_triangles 0)
                  (fresh_world (scripted (fun _ => 1))) = Some tri) /\
   (forall w', TSurfaceSource_CreateParticle plain_env (two_triangles 0)
                 (fresh_world (scripted (fun _ => 1))) <> Undefined w')) /\
  (scan_triangles (sourcetris no_triangles) 0 1 0
     = List.length (sourcetris no_triangles) /\
   exists w', TSurfaceSource_CreateParticle plain_env no_triangles
                (fresh_world (scripted (fun _ => 1))) = Undefined w') /\
  (scan_triangles (sourcetris (two_triangles 0)) 0 2 0
     = List.length (sourcetris (two_triangles 0)) /\
   exists w', TSurfaceSource_CreateParticle plain_env (two_triangles 0)
                (fresh_world (scripted (fun _ => 2))) = Undefined w').
Proof.
  split; [|split].
  - apply (proj1 (C10_iterator_of_the_scan plain_env (two_triangles 0)
                    (fresh_world (scripted (fun _ => 1))))).
    + discriminate.
    + cbn. lra.
  - apply (proj1 (proj2 (C10_iterator_of_the_scan plain_env no_triangles
                           (fresh_world (scripted (fun _ => 1)))))).
    reflexivity.
  - apply (proj2 (proj2 (C10_iterator_of_the_scan plain_env (two_triangles 0)
                           (fresh_world (scripted (fun _ => 2)))))).
    + intros t [<-|[<-|[]]]; cbn; lra.
    + cbn. lra.
Defined.

(** ** The field normal to the surface *)

Lemma add_Enormal_positive En Ekin theta :
  0 < En ->
  add_Enormal En Ekin theta =
  (atan2 (sqrt Ekin * sin theta) (sqrt (Ekin * cos theta * cos theta + En)),
   sqrt (Ekin * cos theta * cos theta + En) * sqrt (Ekin * cos theta * cos theta + En)
   + sqrt Ekin * sin theta * (sqrt Ekin * sin theta)).
Proof.
  intros H. unfold add_Enormal. destruct (Rgt_dec En 0); [reflexivity|lra].
Qed.

Lemma add_Enormal_not_positive En Ekin theta :
  En <= 0 -> add_Enormal En Ekin theta = (theta, Ekin).
Proof.
  intros H. unfold add_Enormal. destruct (Rgt_dec En 0); [lra|reflexivity].
Qed.

Lemma accelerated_energy En Ekin theta :
  0 < En -> 0 <= Ekin ->
  sqrt (Ekin * cos theta * cos theta + En) * sqrt (Ekin * cos theta * cos theta + En)
  + sqrt Ekin * sin theta * (sqrt Ekin * sin theta) = Ekin + En.
Proof.
  intros HEn HE.
  assert (Hc : 0 <= Ekin * cos theta * cos theta).
  { rewrite Rmult_assoc. apply Rmult_le_pos; [exact HE|]. nra. }
  rewrite sqrt_sqrt by lra.
  replace (sqrt Ekin * sin theta * (sqrt Ekin * sin theta))
    with (sqrt Ekin * sqrt Ekin * (sin theta * sin theta)) by ring.
  rewrite sqrt_sqrt by exact HE.
  pose proof (sin2_cos2 theta) as Hsc. unfold Rsqr in Hsc. nra.
Qed.

(** C4, as the code has it: the block is guarded by [Enormal > 0].  With
    a positive [Enormal] the polar angle and the energy are recomputed
    from [vnormal] and [vtangential] as the claim says, the new energy is
    [Ekin + Enormal] for a non-negative [Ekin], and these are the energy
    and the direction (rotated into the global frame) of the particle;
    with an [Enormal] that is not positive both are left as drawn. *)
Theorem C4_normal_field_when_positive env self w c tri :
  class_of_name (fParticleName (surface_base self)) = Some c ->
  chosen_triangle self w = Some tri ->
  let Ekin := real_at w 4 in
  let theta := real_at w 6 in
  let vnormal := sqrt (Ekin * cos theta * cos theta + Enormal self) in
  let vtangential := sqrt Ekin * sin theta in
  exists q self' w' p,
    TSurfaceSource_CreateParticle env self w = Ret (q, self') w' /\
    particle_at w' q = Some p /\
    (0 < Enormal self ->
     add_Enormal (Enormal self) Ekin theta =
       (atan2 vtangential vnormal,
        vnormal * vnormal + vtangential * vtangential) /\
     Estart p = vnormal * vnormal + vtangential * vtangential /\
     (0 <= Ekin -> Estart p = Ekin + Enormal self) /\
     (phistart p, thetastart p) =
       rotate_angles env (real_at w 5) (atan2 vtangential vnormal) (normal tri)) /\
    (Enormal self <= 0 ->
     Estart p = Ekin /\
     (phistart p, thetastart p) =
       rotate_angles env (real_at w 5) theta (normal tri)).
Proof.
  intros Hc Ht Ekin theta vnormal vtangential.
  eexists _, _, _, _.
  split; [apply (surface_returns env self w c tri Hc Ht)|].
  split; [apply particle_at_new|].
  unfold surface_particle, construct; cbn [Estart phistart thetastart].
  fold Ekin theta.
  split.
  - intros HEn.
    rewrite (add_Enormal_positive _ _ _ HEn); cbn [fst snd].
    fold vnormal vtangential.
    split; [reflexivity|]. split; [reflexivity|]. split.
    + intros HE. now apply accelerated_energy.
    + now destruct (rotate_angles _ _ _ _).
  - intros HEn.
    rewrite (add_Enormal_not_positive _ _ _ HEn); cbn [fst snd].
    split; [reflexivity|]. now destruct (rotate_angles _ _ _ _).
Qed.

Lemma C4_witness :
  exists q self' w' p,
    TSurfaceSource_CreateParticle plain_env (two_triangles 1)
      (fresh_world (scripted energy_four)) = Ret (q, self') w' /\
    particle_at w' q = Some p /\
    (0 < Enormal (two_triangles 1) ->
     add_Enormal (Enormal (two_triangles 1)) 4 0 =
       (atan2 (sqrt 4 * sin 0) (sqrt (4 * cos 0 * cos 0 + 1)),
        sqrt (4 * cos 0 * cos 0 + 1) * sqrt (4 * cos 0 * cos 0 + 1)
        + sqrt 4 * sin 0 * (sqrt 4 * sin 0)) /\
     Estart p = sqrt (4 * cos 0 * cos 0 + 1) * sqrt (4 * cos 0 * cos 0 + 1)
                + sqrt 4 * sin 0 * (sqrt 4 * sin 0) /\
     (0 <= 4 -> Estart p = 4 + Enormal (two_triangles 1)) /\
     (phistart p, thetastart p) =
       rotate_angles plain_env 0
         (atan2 (sqrt 4 * sin 0) (sqrt (4 * cos 0 * cos 0 + 1)))
         (normal small_triangle)) /\
    (Enormal (two_triangles 1) <= 0 ->
     Estart p = 4 /\
     (phistart p, thetastart p) =
       rotate_angles plain_env 0 0 (normal small_triangle)).
Proof.
  apply (C4_normal_field_when_positive plain_env (two_triangles 1)
           (fresh_world (scripted energy_four)) TNeutron small_triangle).
  - reflexivity.
  - unfold chosen_triangle, real_at; cbn. decide_reals. reflexivity.
Defined.

(** C4 as stated fails for a normal field that is not zero but negative:
    the source with [Enormal = -1] emits the particle with the energy 4 it
    drew, not with [vnormal^2 + vtangential^2 = 3]. *)
Lemma C4_counterexample :
  Enormal (two_triangles (-1)) <> 0 /\
  exists q self' w' p,
    TSurfaceSource_CreateParticle plain_env (two_triangles (-1))
      (fresh_world (scripted energy_four)) = Ret (q, self') w' /\
    particle_at w' q = Some p /\
    real_at (fresh_world (scripted energy_four)) 4 = 4 /\
    real_at (fresh_world (scripted energy_four)) 6 = 0 /\
    Estart p = 4 /\
    sqrt (4 * cos 0 * cos 0 + Enormal (two_triangles (-1)))
    * sqrt (4 * cos 0 * cos 0 + Enormal (two_triangles (-1)))
    + sqrt 4 * sin 0 * (sqrt 4 * sin 0) = 3 /\
    Estart p <>
      sqrt (4 * cos 0 * cos 0 + Enormal (two_triangles (-1)))
      * sqrt (4 * cos 0 * cos 0 + Enormal (two_triangles (-1)))
      + sqrt 4 * sin 0 * (sqrt 4 * sin 0).
Proof.
  assert (Hclaimed :
    sqrt (4 * cos 0 * cos 0 + Enormal (two_triangles (-1)))
    * sqrt (4 * cos 0 * cos 0 + Enormal (two_triangles (-1)))
    + sqrt 4 * sin 0 * (sqrt 4 * sin 0) = 3).
  { cbn [Enormal two_triangles]. rewrite cos_0, sin_0.
    rewrite sqrt_sqrt by lra. lra. }
  split; [cbn; lra|].
  eexists _, _, _, _.
  split.
  { apply (surface_returns plain_env _ _ TNeutron small_triangle).
    - reflexivity.
    - unfold chosen_triangle, real_at; cbn. decide_reals. reflexivity. }
  split; [apply particle_at_new|].
  split; [reflexivity|]. split; [reflexivity|].
  assert (HE : Estart (surface_particle plain_env (two_triangles (-1))
                         (fresh_world (scripted energy_four)) TNeutron small_triangle)
               = 4).
  { unfold surface_particle, construct; cbn [Estart].
    rewrite add_Enormal_not_positive by (cbn; lra). reflexivity. }
  split; [exact HE|]. split; [exact Hclaimed|].
  rewrite HE, Hclaimed. lra.
Qed.

(** ** The emitting triangles of the clipped surface sources *)

Lemma bind_Ret_inv {A B} (m : M A) (k : A -> M B) w b w' :
  bind m k w = Ret b w' ->
  exists a w1, m w = Ret a w1 /\ k a w1 = Ret b w'.
Proof.
  unfold bind. destruct (m w) as [a w1| | |]; try discriminate. eauto.
Qed.

Lemma collect_triangles_filter inside triangles tris total :
  collect_triangles inside triangles tris total =
  (tris ++ filter (all_inside inside) triangles,
   total + total_area (filter (all_inside inside) triangles)).
Proof.
  revert tris total; induction triangles as [|i rest IH]; intros tris total.
  - cbn. rewrite app_nil_r. f_equal. lra.
  - cbn [collect_triangles filter].
    change (inside (tri0 i) && inside (tri1 i) && inside (tri2 i))
      with (all_inside inside i).
    destruct (all_inside inside i).
    + rewrite IH, <- app_assoc, total_area_cons. cbn [app]. f_equal. lra.
    + apply IH.
Qed.

Lemma surface_call_keeps_triangles env s w q s' w' :
  TSurfaceSource_CreateParticle env s w = Ret (q, s') w' ->
  sourcetris s' = sourcetris s /\ sourcearea s' = sourcearea s.
Proof.
  destruct (chosen_triangle s w) as [tri|] eqn:Ht.
  - destruct (class_of_name (fParticleName (surface_base s))) as [c|] eqn:Hc.
    + rewrite (surface_returns env s w c tri Hc Ht).
      intros [= _ <- _]. split; reflexivity.
    + rewrite (surface_exits env s w tri Hc Ht). discriminate.
  - rewrite (surface_reads_end env s w Ht). discriminate.
Qed.

Lemma simulate_keeps_triangles env fuel n mode s w ps src' w' :
  simulate env fuel n (mkSource mode (SurfaceSource s)) w = Ret (ps, src') w' ->
  exists s', source src' = SurfaceSource s' /\
             sourcetris s' = sourcetris s /\ sourcearea s' = sourcearea s.
Proof.
  revert s w ps src' w'; induction n as [|n IH]; intros s w ps src' w'.
  - cbn. intros [= _ <- _]. exists s. auto.
  - cbn [simulate]. intros H.
    apply bind_Ret_inv in H as ([p src1] & w1 & Hcall & H).
    unfold TSource_CreateParticle in Hcall; cbn [source sourcemode] in Hcall.
    apply bind_Ret_inv in Hcall as ([p' s1] & w0 & Hcall & Hret).
    injection Hret as _ <- _.
    apply surface_call_keeps_triangles in Hcall as [Ht Ha].
    apply bind_Ret_inv in H as ([ps' src2] & w2 & Hrest & Hret).
    injection Hret as _ <- _.
    apply IH in Hrest as (s' & Hs' & Ht' & Ha').
    exists s'. split; [exact Hs'|]. split; congruence.
Qed.

(** C8: the constructor of a clipped surface source keeps a triangle of
    the geometry exactly when its three vertices pass the test
    ([InSourceVolume] of the cylindrical sector, [InSolid] of the mesh read
    from the file), in the order of the geometry; the cached area is the
    sum of the areas of the triangles it kept; and no call of
    [CreateParticle], alone or in a run, changes either of them. *)
Theorem C8_emitting_triangles env ParticleName ActiveTime geometry E_normal :
  (forall c w, exists s w',
     TCylindricalSurfaceSource_new ParticleName ActiveTime geometry E_normal c w
       = Ret s w' /\
     sourcetris s =
       filter (all_inside (TCylindricalSurfaceSource_InSourceVolume c))
              (mesh_triangles geometry) /\
     (forall i, In i (sourcetris s) <->
        In i (mesh_triangles geometry) /\
        TCylindricalSurfaceSource_InSourceVolume c (tri0 i) = true /\
        TCylindricalSurfaceSource_InSourceVolume c (tri1 i) = true /\
        TCylindricalSurfaceSource_InSourceVolume c (tri2 i) = true) /\
     sourcearea s = total_area (sourcetris s)) /\
  (forall sourcefile w, exists s w',
     TSTLSurfaceSource_new env ParticleName ActiveTime geometry sourcefile E_normal w
       = Ret s w' /\
     sourcetris s =
       filter (all_inside (InSolid env sourcefile)) (mesh_triangles geometry) /\
     (forall i, In i (sourcetris s) <->
        In i (mesh_triangles geometry) /\
        InSolid env sourcefile (tri0 i) = true /\
        InSolid env sourcefile (tri1 i) = true /\
        InSolid env sourcefile (tri2 i) = true) /\
     sourcearea s = total_area (sourcetris s)) /\
  (forall s w q s' w',
     TSurfaceSource_CreateParticle env s w = Ret (q, s') w' ->
     sourcetris s' = sourcetris s /\ sourcearea s' = sourcearea s) /\
  (forall fuel n mode s w ps src' w',
     simulate env fuel n (mkSource mode (SurfaceSource s)) w = Ret (ps, src') w' ->
     exists s', source src' = SurfaceSource s' /\
                sourcetris s' = sourcetris s /\ sourcearea s' = sourcearea s).
Proof.
  assert (Hmem : forall inside i,
            In i (filter (all_inside inside) (mesh_triangles geometry)) <->
            In i (mesh_triangles geometry) /\
            inside (tri0 i) = true /\ inside (tri1 i) = true /\
            inside (tri2 i) = true).
  { intros inside i. rewrite filter_In. unfold all_inside.
    rewrite !andb_true_iff. tauto. }
  split; [|split; [|split]].
  - intros c w.
    unfold TCylindricalSurfaceSource_new.
    rewrite collect_triangles_filter. cbn [TSurfaceSource_new sourcetris sourcearea app].
    eexists _, _. split; [reflexivity|]. cbn [sourcetris sourcearea].
    split; [reflexivity|]. split; [apply Hmem|]. lra.
  - intros sourcefile w.
    unfold TSTLSurfaceSource_new.
    rewrite collect_triangles_filter. cbn [TSurfaceSource_new sourcetris sourcearea app].
    eexists _, _. split; [reflexivity|]. cbn [sourcetris sourcearea].
    split; [reflexivity|]. split; [apply Hmem|]. lra.
  - apply surface_call_keeps_triangles.
  - apply simulate_keeps_triangles.
Qed.

Lemma C8_witness :
  (exists s w',
     TSTLSurfaceSource_new plain_env "neutron" 1
       (mkGeometry [small_triangle; large_triangle]) "source.stl" 0
       (fresh_world (scripted (fun _ => 0))) = Ret s w' /\
     sourcetris s = [small_triangle; large_triangle] /\
     sourcearea s = total_area (sourcetris s)) /\
  (exists q s' w',
     TSurfaceSource_CreateParticle plain_env (two_triangles 0)
       (fresh_world (scripted (fun _ => 0))) = Ret (q, s') w' /\
     sourcetris s' = sourcetris (two_triangles 0) /\
     sourcearea s' = sourcearea (two_triangles 0)).
Proof.
  split.
  - destruct (proj1 (proj2 (C8_emitting_triangles plain_env "neutron" 1
                              (mkGeometry [small_triangle; large_triangle]) 0))
                "source.stl"%string (fresh_world (scripted (fun _ => 0))))
      as (s & w' & Hnew & Htris & _ & Harea).
    exists s, w'. split; [exact Hnew|]. split; [exact Htris|exact Harea].
  - assert (Hcall := surface_returns plain_env (two_triangles 0)
                       (fresh_world (scripted (fun _ => 0))) TNeutron small_triangle
                       eq_refl
                       ltac:(unfold chosen_triangle, real_at; cbn; decide_reals;
                             reflexivity)).
    eexists _, _, _. split; [exact Hcall|].
    exact (proj1 (proj2 (proj2 (C8_emitting_triangles plain_env "neutron" 1
                                  (mkGeometry []) 0)))
             _ _ _ _ _ Hcall).
Defined.

(** ** Fatal errors *)

Lemma TSource_build_unrecognized env mode line geom w :
  recognized mode = false -> TSource_build env mode line geom w = Ret None w.
Proof.
  unfold recognized, TSource_build. rewrite !orb_false_iff.
  intros ((((-> & ->) & ->) & ->) & ->). reflexivity.
Qed.

Lemma TSource_build_parse_failed env mode line geom w :
  parse_failed env mode line -> TSource_build env mode line geom w = Ret None w.
Proof.
  unfold parse_failed, TSource_build.
  intros [[[-> | ->] H] | [[-> H] | [[-> H] | [-> H]]]]; cbn; rewrite H; reflexivity.
Qed.

(** C9: when the mode is not recognized or an extraction of the fields
    fails, the constructor of [TSource] builds no source, prints the mode
    and calls [exit(-1)]; when the particle name is none of the three known
    ones, the factory builds no particle, prints the name and calls
    [exit(-1)].  The process ends with the status 255, and in neither case
    does the call return. *)
Theorem C9_fatal_configuration env :
  (forall mode line rest geom w,
     recognized mode = false \/ parse_failed env mode line ->
     TSource_build env mode line geom w = Ret None w /\
     TSource_new env ((mode, line) :: rest) geom w =
       Exit (-1)
         (mkWorld (mc w) (heap w)
            (out w ++ [Text nl; Text "Could not load source "; Text mode;
                       Text "! Did you enter invalid parameters?"; Text nl])) /\
     (forall src w', TSource_new env ((mode, line) :: rest) geom w <> Ret src w')) /\
  (forall self t x y z E phi theta pol w,
     class_of_name (fParticleName self) = None ->
     TParticleSource_CreateParticle env self t x y z E phi theta pol w =
       Exit (-1)
         (mkWorld (mc w) (heap w)
            (out w ++ [Text "Could not create particle ";
                       Text (fParticleName self); Text nl])) /\
     (forall r w',
        TParticleSource_CreateParticle env self t x y z E phi theta pol w
          <> Ret r w')) /\
  exit_status (-1) = 255%Z /\ exit_status (-1) <> 0%Z.
Proof.
  split; [|split].
  - intros mode line rest geom w H.
    assert (Hb : TSource_build env mode line geom w = Ret None w).
    { destruct H as [H|H];
        [now apply TSource_build_unrecognized | now apply TSource_build_parse_failed]. }
    assert (Hn : TSource_new env ((mode, line) :: rest) geom w =
       Exit (-1)
         (mkWorld (mc w) (heap w)
            (out w ++ [Text nl; Text "Could not load source "; Text mode;
                       Text "! Did you enter invalid parameters?"; Text nl]))).
    { unfold TSource_new. unfold bind at 1. rewrite Hb. reflexivity. }
    split; [exact Hb|]. split; [exact Hn|].
    intros src w'. rewrite Hn. discriminate.
  - intros self t x y z E phi theta pol w H.
    rewrite (factory_unknown env self t x y z E phi theta pol w H).
    split; [reflexivity | discriminate].
  - split; [reflexivity | discriminate].
Qed.

Lemma C9_witness :
  (TSource_build plain_env "boxvolume"%string "neutron 0 1 0 1 0 1 10 x"%string
     (mkGeometry []) (fresh_world (scripted (fun _ => 0))) =
     Ret None (fresh_world (scripted (fun _ => 0))) /\
   TSource_new plain_env [("boxvolume"%string, "neutron 0 1 0 1 0 1 10 x"%string)]
     (mkGeometry []) (fresh_world (scripted (fun _ => 0))) =
     Exit (-1)
       (mkWorld (scripted (fun _ => 0)) []
          ([] ++ [Text nl; Text "Could not load source "; Text "boxvolume";
                  Text "! Did you enter invalid parameters?"; Text nl])) /\
   (forall src w',
      TSource_new plain_env [("boxvolume"%string, "neutron 0 1 0 1 0 1 10 x"%string)]
        (mkGeometry []) (fresh_world (scripted (fun _ => 0))) <> Ret src w')) /\
  (TParticleSource_CreateParticle plain_env (TParticleSource_new "muon"%string 1)
     0 0 0 0 1 0 0 1%Z (fresh_world (scripted (fun _ => 0))) =
     Exit (-1)
       (mkWorld (scripted (fun _ => 0)) []
          ([] ++ [Text "Could not create particle "; Text "muon"; Text nl])) /\
   (forall r w',
      TParticleSource_CreateParticle plain_env (TParticleSource_new "muon"%string 1)
        0 0 0 0 1 0 0 1%Z (fresh_world (scripted (fun _ => 0))) <> Ret r w')).
Proof.
  split.
  - apply (proj1 (C9_fatal_configuration plain_env)).
    right. left. split; [left; reflexivity | reflexivity].
  - apply (proj1 (proj2 (C9_fatal_configuration plain_env))
             (TParticleSource_new "muon"%string 1)).
    reflexivity.
Defined.

(** ** The points of the volume sources *)

Lemma cuboid_point c w :
  TCuboidVolumeSource_RandomPointInSourceVolume c w =
  Ret (real_at w 0, real_at w 1, real_at w 2)
    (mkWorld (consumed (mc w) 3
                [UniformDraw (xmin c) (xmax c); UniformDraw (ymin c) (ymax c);
                 UniformDraw (cuboid_zmin c) (cuboid_zmax c)])
       (heap w) (out w)).
Proof.
  unfold TCuboidVolumeSource_RandomPointInSourceVolume, real_at.
  do 3 step_draw. now rewrite Nat.add_0_r.
Qed.

Lemma cylinder_point c w :
  TCylindricalVolumeSource_RandomPointInSourceVolume c w =
  Ret (real_at w 0 * cos (real_at w 1), real_at w 0 * sin (real_at w 1), real_at w 2)
    (mkWorld (consumed (mc w) 3
                [LinearDraw (rmin c) (rmax c); UniformDraw (phimin c) (phimax c);
                 UniformDraw (zmin c) (zmax c)])
       (heap w) (out w)).
Proof.
  unfold TCylindricalVolumeSource_RandomPointInSourceVolume, real_at.
  do 3 step_draw. now rewrite Nat.add_0_r.
Qed.

Lemma world_eta w : mkWorld (mc w) (heap w) (out w) = w.
Proof. now destruct w. Qed.

Lemma draws_only_point env fuel s :
  draws_only (RandomPointInSourceVolume env fuel s).
Proof.
  destruct s as [c|c|f]; cbn [RandomPointInSourceVolume].
  - intros w. exists 3%nat, [UniformDraw (xmin c) (xmax c); UniformDraw (ymin c) (ymax c);
                 UniformDraw (cuboid_zmin c) (cuboid_zmax c)].
    split; [reflexivity|]. left. eexists. apply cuboid_point.
  - intros w. exists 3%nat, [LinearDraw (rmin c) (rmax c); UniformDraw (phimin c) (phimax c);
                 UniformDraw (zmin c) (zmax c)].
    split; [reflexivity|]. left. eexists. apply cylinder_point.
  - induction fuel as [|fuel IH]; intros w.
    + exists 0%nat, []. split; [reflexivity|]. right. cbn.
      now rewrite consumed_nothing, world_eta.
    + cbn [TSTLVolumeSource_RandomPointInSourceVolume].
      destruct (bbox env f) as [[bx by_] bz].
      do 3 step_draw.
      match goal with |- context [InSolid env f ?p] => destruct (InSolid env f p) end.
      * eexists _, _. split; [|left; eexists; reflexivity]. reflexivity.
      * match goal with |- context [TSTLVolumeSource_RandomPointInSourceVolume _ _ _ ?w1] =>
          destruct (IH w1) as (k & l & Hl & H) end.
        cbn [mc heap out] in H. rewrite consumed_consumed in H.
        eexists _, _. split; [|exact H].
        rewrite forallb_app, Hl. reflexivity.
Qed.

(** ** One trial of the phase-space loop *)

Lemma store_last {A} (h : list A) a b :
  store (h ++ [a]) (List.length h) b = h ++ [b].
Proof. induction h as [|x h IH]; cbn; [reflexivity | now rewrite IH]. Qed.

Lemma nth_error_last {A} (h : list A) a :
  nth_error (h ++ [a]) (List.length h) = Some a.
Proof. now rewrite nth_error_app2, Nat.sub_diag by lia. Qed.

Lemma restore_counter self :
  set_ParticleCounter (set_ParticleCounter self (ParticleCounter self + 1))
    (ParticleCounter (set_ParticleCounter self (ParticleCounter self + 1)) - 1) = self.
Proof.
  destruct self as [time name counter]; unfold set_ParticleCounter; cbn.
  f_equal. lia.
Qed.

Section Trial.

Variable env : Collaborators.
Variable point : M CPoint.
Variable c : ParticleClass.
Variable self : TParticleSource.
Variables t H phi_v theta_v : R.
Variable polarisation : Z.
Hypothesis known : class_of_name (fParticleName self) = Some c.

(** the loop from the trial number [nroll] at [(x, y, z)] on *)
Lemma dice_loop_trial rounds nroll x y z E w :
  (nroll <= MAX_DICE_ROLL)%Z ->
  dice_loop env (S rounds) point self t H phi_v theta_v polarisation nroll x y z E w =
  let p := provisional env c self t H phi_v theta_v x y z in
  let V := potential env c self t H phi_v theta_v x y z in
  if Rlt_dec (next_real w) (sqrt ((H - V) / H)) then
    if Rgt_dec (H - V) 0 then Ret (inr (x, y, z, H - V), self) (tried nroll None w)
    else
      (' (x', y', z') <- point ;;
       dice_loop env rounds point self t H phi_v theta_v polarisation
         (nroll + 1) x' y' z' (H - V)) (tried nroll None w)
  else if (MAX_DICE_ROLL <=? nroll)%Z then
    Ret (inl (List.length (heap w)), self)
      (mkWorld (advance (mc w) 1 (UniformDraw 0 1))
         (heap w ++ [Some (set_ID p (ID_INITIAL_NOT_FOUND env))])
         ((out w ++ progress nroll) ++ abort_message))
  else
    (' (x', y', z') <- point ;;
     dice_loop env rounds point self t H phi_v theta_v polarisation
       (nroll + 1) x' y' z' E) (tried nroll (Some p) w).
Proof.
  intros Hroll. cbn [dice_loop].
  replace (nroll <=? MAX_DICE_ROLL)%Z with true by (symmetry; apply Z.leb_le; exact Hroll).
  cbv zeta.
  assert (Hprint :
    forall B (k : unit -> M B),
      bind (if (nroll mod 100000 =? 0)%Z then print [Text "."] else ret tt) k w =
      k tt (mkWorld (mc w) (heap w) (out w ++ progress nroll))).
  { intros B k. unfold progress.
    destruct (nroll mod 100000 =? 0)%Z.
    - apply bind_print.
    - rewrite bind_ret, app_nil_r, world_eta. reflexivity. }
  rewrite Hprint.
  unfold bind at 1.
  rewrite (factory_known env self t x y z H phi_v theta_v polarisation c _ known).
  cbn [mc heap out]. rewrite restore_counter.
  unfold bind at 1, load. cbn [heap]. rewrite nth_error_last.
  step_draw.
  fold (provisional env c self t H phi_v theta_v x y z).
  fold (potential env c self t H phi_v theta_v x y z).
  fold (next_real w).
  destruct (Rlt_dec _ _) as [Hacc|Hrej].
  - unfold bind at 1, delete. cbn [heap]. rewrite nth_error_last, store_last.
    cbn [mc out].
    destruct (Rgt_dec _ 0); reflexivity.
  - destruct (MAX_DICE_ROLL <=? nroll)%Z; [|reflexivity].
    unfold bind at 1, assign_ID. cbn [heap]. rewrite nth_error_last, store_last.
    reflexivity.
Qed.

(** the loop once [nroll] has passed [MAX_DICE_ROLL] *)
Lemma dice_loop_over rounds nroll x y z E w :
  (MAX_DICE_ROLL < nroll)%Z ->
  dice_loop env (S rounds) point self t H phi_v theta_v polarisation nroll x y z E w =
  Ret (inr (x, y, z, E), self) w.
Proof.
  intros Hroll. cbn [dice_loop].
  replace (nroll <=? MAX_DICE_ROLL)%Z with false by (symmetry; apply Z.leb_gt; exact Hroll).
  reflexivity.
Qed.

End Trial.

(** ** The phase-space loop as a whole *)

Lemma draws_only_Ret {A} (m : M A) w a w' :
  draws_only m -> m w = Ret a w' ->
  exists k l, forallb uniform_or_linear l = true /\
              w' = mkWorld (consumed (mc w) k l) (heap w) (out w).
Proof.
  intros Hm E. destruct (Hm w) as (k & l & Hl & [[a' H]|H]); rewrite H in E.
  - injection E as _ <-. eauto.
  - discriminate.
Qed.

Lemma particle_at_extended w w' q p extra :
  heap w' = heap w ++ extra ->
  particle_at w q = Some p -> particle_at w' q = Some p.
Proof.
  unfold particle_at. intros -> H.
  destruct (nth_error (heap w) q) as [cell|] eqn:E; [|discriminate].
  rewrite nth_error_app1 by (apply nth_error_Some; congruence).
  now rewrite E.
Qed.

Section Loop.

Variable env : Collaborators.
Variable point : M CPoint.
Variable self : TParticleSource.
Variables t H phi_v theta_v : R.
Variable polarisation : Z.
Hypothesis point_draws : draws_only point.

Lemma loop_outcome_later w w1 cell k l o :
  forallb uniform_or_linear l = true ->
  mc w1 = consumed (mc w) k l ->
  heap w1 = heap w ++ [cell] ->
  loop_outcome env self w1 o -> loop_outcome env self w o.
Proof.
  intros Hl Hmc Hheap ((k' & l' & Hl' & Hmc') & (extra & Hheap') & Hres).
  split; [|split].
  - exists (k + k')%nat, (l ++ l').
    rewrite forallb_app, Hl, Hl', Hmc', Hmc, consumed_consumed. auto.
  - exists (cell :: extra). rewrite Hheap', Hheap, <- app_assoc. reflexivity.
  - destruct o as [[[q|v] s] w'| | |]; auto.
    destruct Hres as (Hs & Hq & Hp). split; [exact Hs|]. split; [|exact Hp].
    rewrite Hheap, length_app in Hq. cbn in Hq. lia.
Qed.

Lemma loop_outcome_next w1
  (body : CPoint -> M ((ptr + (R * R * R * R)) * TParticleSource)) :
  (forall a w, loop_outcome env self w (body a w)) ->
  loop_outcome env self w1 (bind point body w1).
Proof.
  intros Hbody.
  destruct (point_draws w1) as (n & l & Hl & [[a Hp]|Hp]); unfold bind; rewrite Hp.
  - specialize (Hbody a (mkWorld (consumed (mc w1) n l) (heap w1) (out w1))).
    destruct Hbody as ((k' & l' & Hl' & Hmc') & (extra & Hheap') & Hres).
    cbn [mc heap] in *.
    split; [|split].
    + exists (n + k')%nat, (l ++ l').
      rewrite forallb_app, Hl, Hl', Hmc', consumed_consumed. auto.
    + exists extra. exact Hheap'.
    + exact Hres.
  - split; [|split]; cbn [world_of mc heap].
    + eauto.
    + exists []. now rewrite app_nil_r.
    + exact I.
Qed.

Lemma dice_loop_outcome rounds nroll x y z E w :
  loop_outcome env self w
    (dice_loop env rounds point self t H phi_v theta_v polarisation nroll x y z E w).
Proof.
  revert nroll x y z E w; induction rounds as [|rounds IH]; intros nroll x y z E w.
  - cbn. split; [|split]; cbn [world_of].
    + exists 0%nat, []. now rewrite consumed_nothing.
    + exists []. now rewrite app_nil_r.
    + exact I.
  - destruct (Z_le_gt_dec nroll MAX_DICE_ROLL) as [Hroll|Hroll].
    2:{ rewrite dice_loop_over by lia. split; [|split]; cbn [world_of].
        - exists 0%nat, []. now rewrite consumed_nothing.
        - exists []. now rewrite app_nil_r.
        - reflexivity. }
    destruct (class_of_name (fParticleName self)) as [c|] eqn:Hc.
    2:{ cbn [dice_loop].
        replace (nroll <=? MAX_DICE_ROLL)%Z with true by (symmetry; apply Z.leb_le; exact Hroll).
        assert (Hexit : forall w0 B (k : ptr * TParticleSource -> M B),
                  exists w1, bind (TParticleSource_CreateParticle env self t x y z H
                                     phi_v theta_v polarisation) k w0 = Exit (-1) w1 /\
                             mc w1 = mc w0 /\ heap w1 = heap w0).
        { intros w0 B k. unfold bind. rewrite factory_unknown by exact Hc.
          eexists. split; [reflexivity|]. split; reflexivity. }
        destruct (nroll mod 100000 =? 0)%Z.
        - rewrite bind_print.
          match goal with |- loop_outcome _ _ _ (bind _ ?k ?w0) =>
            destruct (Hexit w0 _ k) as (w1 & -> & Hmc & Hheap) end.
          cbn [mc heap] in *.
          split; [|split]; cbn [world_of].
          + exists 0%nat, []. now rewrite consumed_nothing.
          + exists []. now rewrite app_nil_r.
          + auto.
        - rewrite bind_ret.
          match goal with |- loop_outcome _ _ _ (bind _ ?k ?w0) =>
            destruct (Hexit w0 _ k) as (w1 & -> & Hmc & Hheap) end.
          split; [|split]; cbn [world_of].
          + exists 0%nat, []. now rewrite consumed_nothing.
          + exists []. now rewrite app_nil_r.
          + auto. }
    rewrite (dice_loop_trial env point c self t H phi_v theta_v polarisation Hc) by exact Hroll.
    cbv zeta.
    assert (Hnext : forall cell E',
      loop_outcome env self w
        (bind point
           (fun x0 => let '(x', y', z') := x0 in
              dice_loop env rounds point self t H phi_v theta_v polarisation
                (nroll + 1) x' y' z' E') (tried nroll cell w))).
    { intros cell E'.
      apply (loop_outcome_later w (tried nroll cell w) cell 1 [UniformDraw 0 1]);
        [reflexivity | reflexivity | reflexivity |].
      apply loop_outcome_next.
      intros [[x' y'] z'] w0. apply IH. }
    destruct (Rlt_dec _ _) as [Hacc|Hrej].
    + destruct (Rgt_dec _ 0) as [Hpos|Hneg].
      * split; [|split]; cbn [world_of tried mc heap].
        -- exists 1%nat, [UniformDraw 0 1]. auto.
        -- eauto.
        -- reflexivity.
      * apply Hnext.
    + destruct (MAX_DICE_ROLL <=? nroll)%Z.
      * split; [|split]; cbn [world_of mc heap].
        -- exists 1%nat, [UniformDraw 0 1]. auto.
        -- eauto.
        -- split; [reflexivity|]. split; [lia|].
           eexists. split; [apply particle_at_new|]. split; reflexivity.
      * apply Hnext.
Qed.

End Loop.

Section Exhaustion.

Variable env : Collaborators.
Variable point : M CPoint.
Variable c : ParticleClass.
Variable self : TParticleSource.
Variables t H phi_v theta_v : R.
Variable polarisation : Z.
Hypothesis known : class_of_name (fParticleName self) = Some c.
Hypothesis point_draws : draws_only point.

(** When no trial passes the test, the loop runs until
    [nroll = MAX_DICE_ROLL] and returns the particle of that trial. *)
Lemma dice_loop_exhausted n :
  forall rounds nroll x y z E w,
    (nroll + Z.of_nat n = MAX_DICE_ROLL)%Z ->
    (n < rounds)%nat ->
    never_accepted env point c self t H phi_v theta_v n nroll x y z w ->
    exists x' y' z' w',
      dice_loop env rounds point self t H phi_v theta_v polarisation nroll x y z E w
        = Ret (inl (List.length (heap w) + n)%nat, self) w' /\
      List.length (heap w') = (List.length (heap w) + n + 1)%nat /\
      particle_at w' (List.length (heap w) + n)%nat =
        Some (set_ID (provisional env c self t H phi_v theta_v x' y' z')
                     (ID_INITIAL_NOT_FOUND env)).
Proof.
  induction n as [|n IH]; intros rounds nroll x y z E w Hroll Hrounds Hnever.
  - destruct rounds as [|rounds]; [lia|].
    rewrite (dice_loop_trial env point c self t H phi_v theta_v polarisation known)
      by lia.
    cbv zeta. destruct Hnever as [Hrej _].
    destruct (Rlt_dec _ _) as [Hacc|_]; [contradiction|].
    replace (MAX_DICE_ROLL <=? nroll)%Z with true by (symmetry; apply Z.leb_le; lia).
    exists x, y, z. eexists. rewrite !Nat.add_0_r.
    split; [reflexivity|]. cbn [heap].
    split; [rewrite length_app; cbn; lia | apply particle_at_new].
  - destruct rounds as [|rounds]; [lia|].
    rewrite (dice_loop_trial env point c self t H phi_v theta_v polarisation known)
      by lia.
    cbv zeta. destruct Hnever as [Hrej (x' & y' & z' & w1 & Hpoint & Hnever)].
    destruct (Rlt_dec _ _) as [Hacc|_]; [contradiction|].
    replace (MAX_DICE_ROLL <=? nroll)%Z with false by (symmetry; apply Z.leb_gt; lia).
    unfold bind at 1. rewrite Hpoint.
    destruct (draws_only_Ret _ _ _ _ point_draws Hpoint) as (k & l & _ & Hw1).
    assert (Hheap : heap w1 = heap w ++
              [Some (provisional env c self t H phi_v theta_v x y z)])
      by (rewrite Hw1; reflexivity).
    destruct (IH rounds (nroll + 1)%Z x' y' z' E w1 ltac:(lia) ltac:(lia) Hnever)
      as (x'' & y'' & z'' & w' & Hloop & Hlen & Hpart).
    rewrite Hheap, length_app in Hloop, Hlen, Hpart. cbn [List.length] in *.
    replace (List.length (heap w) + 1 + n)%nat
      with (List.length (heap w) + S n)%nat in * by lia.
    exists x'', y'', z'', w'. split; [exact Hloop|]. split; [lia|exact Hpart].
Qed.

End Exhaustion.

(** ** One call of the volume source *)

Lemma start_values_outcome env fuel self w :
  exists k l,
    forallb uniform_or_linear l = true /\
    ((exists pt,
        start_values env fuel self w =
        Ret (real_at w 0, real_at w 1, real_at w 2, real_at w 3, int_at w 4, pt)
          (mkWorld (consumed (mc w) (5 + k) (volume_draws self ++ l))
             (heap w) (out w))) \/
     start_values env fuel self w =
       Spin (mkWorld (consumed (mc w) (5 + k) (volume_draws self ++ l))
               (heap w) (out w))).
Proof.
  unfold start_values, real_at, int_at.
  do 4 step_draw.
  rewrite Nat.add_0_r.
  match goal with |- context [bind _ _ ?w1] =>
    destruct (draws_only_point env fuel (shape self) w1) as (k & l & Hl & H) end.
  cbn [mc heap out] in H. rewrite consumed_consumed in H.
  exists k, l. split; [exact Hl|].
  unfold bind.
  replace (cursor (mc w) + 1 + 1)%nat with (cursor (mc w) + 2)%nat by lia.
  replace (S (cursor (mc w) + 2))%nat with (cursor (mc w) + 3)%nat by lia.
  replace (cursor (mc w) + 1 + 1 + 2)%nat with (cursor (mc w) + 4)%nat by lia.
  destruct H as [[pt H]|H]; rewrite H.
  - left. exists pt. reflexivity.
  - right. reflexivity.
Qed.

Lemma final_particle_known env self base t x y z E phi_v theta_v polarisation c w :
  class_of_name (fParticleName base) = Some c ->
  final_particle env self base t x y z E phi_v theta_v polarisation w =
  Ret (List.length (heap w),
       set_volume_base self (set_ParticleCounter base (ParticleCounter base + 1)))
    (mkWorld (mc w)
       (heap w ++ [Some (construct env c (ParticleCounter base + 1)
                           t x y z E phi_v theta_v)])
       (out w ++ [Text nl])).
Proof.
  intros Hc. unfold final_particle. rewrite bind_print.
  unfold bind. now rewrite (factory_known _ _ _ _ _ _ _ _ _ _ c) by exact Hc.
Qed.

Lemma final_particle_unknown env self base t x y z E phi_v theta_v polarisation w :
  class_of_name (fParticleName base) = None ->
  final_particle env self base t x y z E phi_v theta_v polarisation w =
  Exit (-1)
    (mkWorld (mc w) (heap w)
       ((out w ++ [Text nl]) ++
        [Text "Could not create particle "; Text (fParticleName base); Text nl])).
Proof.
  intros Hc. unfold final_particle. rewrite bind_print.
  unfold bind. now rewrite factory_unknown by exact Hc.
Qed.

Lemma final_particle_outcome env self base t x y z E phi_v theta_v polarisation
  w0 w k l extra :
  base = volume_base self ->
  forallb uniform_or_linear l = true ->
  mc w = consumed (mc w0) (5 + k) (volume_draws self ++ l) ->
  heap w = heap w0 ++ extra ->
  volume_outcome env self w0
    (final_particle env self base t x y z E phi_v theta_v polarisation w).
Proof.
  intros -> Hl Hmc Hheap.
  destruct (class_of_name (fParticleName (volume_base self))) as [c|] eqn:Hc.
  - rewrite (final_particle_known _ _ _ _ _ _ _ _ _ _ _ c) by exact Hc.
    split; [|split]; cbn [world_of mc heap].
    + eauto.
    + exists (extra ++ [Some (construct env c (ParticleCounter (volume_base self) + 1)
                                t x y z E phi_v theta_v)]).
      now rewrite Hheap, <- app_assoc.
    + cbn [set_volume_base fPhaseSpaceWeighting shape volume_base set_ParticleCounter
             fParticleName fActiveTime ParticleCounter].
      repeat (split; [reflexivity|]).
      split; [rewrite Hheap, length_app; lia|].
      eexists. split; [apply particle_at_new|].
      split; [reflexivity|]. left. split; reflexivity.
  - rewrite final_particle_unknown by exact Hc.
    split; [|split]; cbn [world_of mc heap].
    + eauto.
    + eauto.
    + auto.
Qed.

Lemma volume_call_outcome env fuel self w :
  volume_outcome env self w (TVolumeSource_CreateParticle env fuel self w).
Proof.
  unfold TVolumeSource_CreateParticle.
  destruct (start_values_outcome env fuel self w) as (k & l & Hl & [[[[x y] z] Hs]|Hs]);
    unfold bind at 1; rewrite Hs.
  2:{ split; [|split]; cbn [world_of mc heap].
      - eauto.
      - exists []. now rewrite app_nil_r.
      - exact I. }
  destruct (fPhaseSpaceWeighting self) eqn:Hpsw.
  2:{ apply (final_particle_outcome _ _ _ _ _ _ _ _ _ _ _ _ _ k l []);
        [reflexivity | exact Hl | reflexivity | now rewrite app_nil_r]. }
  cbv zeta. rewrite bind_print.
  match goal with |- context [dice_loop env dice_rounds ?pt ?b ?t ?H ?p ?th ?pol ?n ?x ?y ?z ?E] =>
    match goal with |- volume_outcome _ _ _ (bind _ _ ?w1) =>
      pose proof (dice_loop_outcome env pt b t H p th pol
                    (draws_only_point env fuel (shape self)) dice_rounds n x y z E w1)
        as Hloop;
      unfold bind at 1;
      destruct (dice_loop env dice_rounds pt b t H p th pol n x y z E w1)
        as [[[q|[[[x' y'] z'] E']] s] w'|code w'|w'|w']
    end
  end;
    destruct Hloop as ((k' & l' & Hl' & Hmc) & (extra & Hheap) & Hres);
    cbn [world_of mc heap] in Hmc, Hheap; rewrite consumed_consumed in Hmc;
    rewrite <- Nat.add_assoc, <- app_assoc in Hmc.
  - destruct Hres as (-> & Hq & p & Hp & Hnum & Hid).
    split; [|split]; cbn [world_of].
    + exists (k + k')%nat, (l ++ l'). rewrite forallb_app, Hl, Hl'. auto.
    + eauto.
    + destruct self as [base psw shp]; cbn in *.
      repeat (split; [reflexivity|]). split; [exact Hq|].
      exists p. split; [exact Hp|]. split; [exact Hnum|]. right. auto.
  - subst s.
    apply (final_particle_outcome _ _ _ _ _ _ _ _ _ _ _ _ _ (k + k')%nat (l ++ l') extra);
      [reflexivity | rewrite forallb_app, Hl, Hl'; reflexivity | exact Hmc | exact Hheap].
  - split; [|split]; cbn [world_of].
    + exists (k + k')%nat, (l ++ l'). rewrite forallb_app, Hl, Hl'. auto.
    + eauto.
    + exact Hres.
  - contradiction.
  - split; [|split]; cbn [world_of].
    + exists (k + k')%nat, (l ++ l'). rewrite forallb_app, Hl, Hl'. auto.
    + eauto.
    + exact I.
Qed.

Lemma set_volume_base_same self : set_volume_base self (volume_base self) = self.
Proof. now destruct self. Qed.

Lemma dice_rounds_enough : (Z.to_nat MAX_DICE_ROLL < dice_rounds)%nat.
Proof. unfold dice_rounds, MAX_DICE_ROLL. lia. Qed.

Lemma dice_rounds_cover : (MAX_DICE_ROLL + 1 < Z.of_nat dice_rounds)%Z.
Proof. unfold dice_rounds, MAX_DICE_ROLL. lia. Qed.

(** the call of a weighted source, given what its loop does *)
Lemma volume_call_with_loop env fuel self w t H phi_v theta_v polarisation x y z w0
  r base w1 :
  fPhaseSpaceWeighting self = true ->
  start_values env fuel self w = Ret (t, H, phi_v, theta_v, polarisation, (x, y, z)) w0 ->
  dice_loop env dice_rounds (RandomPointInSourceVolume env fuel (shape self))
    (volume_base self) t H phi_v theta_v polarisation 0 x y z H (announced self H w0)
    = Ret (r, base) w1 ->
  TVolumeSource_CreateParticle env fuel self w =
  match r with
  | inl p => Ret (p, set_volume_base self base) w1
  | inr (x', y', z', E') =>
      final_particle env self base t x' y' z' E' phi_v theta_v polarisation w1
  end.
Proof.
  intros Hpsw Hs.
  unfold TVolumeSource_CreateParticle.
  generalize dice_rounds. intros rounds Hloop.
  unfold bind at 1. rewrite Hs, Hpsw. cbv zeta.
  rewrite bind_print. fold (announced self H w0).
  unfold bind at 1. rewrite Hloop.
  destruct r as [p|[[[x' y'] z'] E']]; reflexivity.
Qed.

(** the call of a weighted source in which no trial passes the test *)
Lemma volume_exhaustion env fuel self w c t H phi_v theta_v polarisation x y z w0 :
  fPhaseSpaceWeighting self = true ->
  class_of_name (fParticleName (volume_base self)) = Some c ->
  start_values env fuel self w = Ret (t, H, phi_v, theta_v, polarisation, (x, y, z)) w0 ->
  never_accepted env (RandomPointInSourceVolume env fuel (shape self)) c
    (volume_base self) t H phi_v theta_v (Z.to_nat MAX_DICE_ROLL) 0 x y z
    (announced self H w0) ->
  exists q x' y' z' w',
    TVolumeSource_CreateParticle env fuel self w = Ret (q, self) w' /\
    particle_at w' q =
      Some (set_ID (provisional env c (volume_base self) t H phi_v theta_v x' y' z')
                   (ID_INITIAL_NOT_FOUND env)) /\
    q = (List.length (heap w) + Z.to_nat MAX_DICE_ROLL)%nat /\
    List.length (heap w') = (List.length (heap w) + Z.to_nat MAX_DICE_ROLL + 1)%nat.
Proof.
  intros Hpsw Hc Hs Hnever.
  assert (Hheap0 : heap w0 = heap w).
  { destruct (start_values_outcome env fuel self w) as (k & l & _ & [[pt E]|E]);
      rewrite E in Hs; [|discriminate].
    injection Hs as _ _ _ _ _ _ <-. reflexivity. }
  destruct (dice_loop_exhausted env (RandomPointInSourceVolume env fuel (shape self))
              c (volume_base self) t H phi_v theta_v polarisation Hc
              (draws_only_point env fuel (shape self))
              (Z.to_nat MAX_DICE_ROLL) dice_rounds 0%Z x y z H (announced self H w0)
              ltac:(unfold MAX_DICE_ROLL; lia) dice_rounds_enough Hnever)
    as (x' & y' & z' & w' & Hloop & Hlen & Hpart).
  cbn [announced heap] in Hloop, Hlen, Hpart. rewrite Hheap0 in Hloop, Hlen, Hpart.
  exists (List.length (heap w) + Z.to_nat MAX_DICE_ROLL)%nat, x', y', z', w'.
  split; [|split; [exact Hpart|split; [reflexivity|exact Hlen]]].
  rewrite (volume_call_with_loop env fuel self w t H phi_v theta_v polarisation
             x y z w0 _ _ _ Hpsw Hs Hloop).
  now rewrite set_volume_base_same.
Qed.

(** C1, as the code runs: when no candidate passes the test the call
    does not end the process; it returns the particle of the last trial
    with the status [ID_INITIAL_NOT_FOUND], and the source as it was.  The
    trials are numbered from 0 to [MAX_DICE_ROLL], both included: the call
    builds 42000001 provisional particles, one per trial, and not
    42000000; the particle it returns is the last of them.  The total
    energy [H] is not 0: the test divides by it. *)
Theorem C1_exhaustion_after_all_trials
  env fuel self w c t H phi_v theta_v polarisation x y z w0 :
  fPhaseSpaceWeighting self = true ->
  class_of_name (fParticleName (volume_base self)) = Some c ->
  start_values env fuel self w = Ret (t, H, phi_v, theta_v, polarisation, (x, y, z)) w0 ->
  H <> 0 ->
  never_accepted env (RandomPointInSourceVolume env fuel (shape self)) c
    (volume_base self) t H phi_v theta_v (Z.to_nat MAX_DICE_ROLL) 0 x y z
    (announced self H w0) ->
  exists q p w',
    TVolumeSource_CreateParticle env fuel self w = Ret (q, self) w' /\
    particle_at w' q = Some p /\
    ID p = ID_INITIAL_NOT_FOUND env /\
    particlenumber p = (ParticleCounter (volume_base self) + 1)%Z /\
    Estart p = H /\
    (Z.of_nat (List.length (heap w')) - Z.of_nat (List.length (heap w)) = 42000001)%Z /\
    (Z.of_nat q = Z.of_nat (List.length (heap w')) - 1)%Z.
Proof.
  intros Hpsw Hc Hs _ Hnever.
  destruct (volume_exhaustion env fuel self w c t H phi_v theta_v polarisation
              x y z w0 Hpsw Hc Hs Hnever)
    as (q & x' & y' & z' & w' & Hcall & Hpart & Hq & Hlen).
  exists q, (set_ID (provisional env c (volume_base self) t H phi_v theta_v x' y' z')
                    (ID_INITIAL_NOT_FOUND env)), w'.
  split; [exact Hcall|]. split; [exact Hpart|].
  split; [reflexivity|]. split; [reflexivity|]. split; [reflexivity|].
  rewrite Hlen, Hq. unfold MAX_DICE_ROLL. split; lia.
Qed.

(** *** The unit cube in which no kinetic energy is left *)

Lemma start_values_cuboid env fuel self c w :
  shape self = CuboidShape c ->
  start_values env fuel self w =
  Ret (real_at w 0, real_at w 1, real_at w 2, real_at w 3, int_at w 4,
       (real_at w 5, real_at w 6, real_at w 7))
    (mkWorld (consumed (mc w) 8
                (volume_draws self ++
                 [UniformDraw (xmin c) (xmax c); UniformDraw (ymin c) (ymax c);
                  UniformDraw (cuboid_zmin c) (cuboid_zmax c)]))
       (heap w) (out w)).
Proof.
  intros Hshape. unfold start_values, real_at, int_at. rewrite Hshape.
  do 4 step_draw. cbn [RandomPointInSourceVolume].
  unfold bind at 1. rewrite cuboid_point. unfold real_at; cbn [mc heap out consumed cursor reals].
  rewrite consumed_consumed. unfold ret.
  rewrite !Nat.add_0_r.
  replace (cursor (mc w) + 1 + 1)%nat with (cursor (mc w) + 2)%nat by lia.
  replace (S (cursor (mc w) + 2))%nat with (cursor (mc w) + 3)%nat by lia.
  replace (cursor (mc w) + 1 + 1 + 2)%nat with (cursor (mc w) + 4)%nat by lia.
  replace (cursor (mc w) + 5 + 1)%nat with (cursor (mc w) + 6)%nat by lia.
  replace (cursor (mc w) + 5 + 2)%nat with (cursor (mc w) + 7)%nat by lia.
  reflexivity.
Qed.

Lemma all_ones_never_accepted fuel self n :
  forall nroll w,
    reals (mc w) = all_ones ->
    never_accepted plain_env
      (RandomPointInSourceVolume plain_env fuel (shape (unit_cube true)))
      TNeutron self 1 1 1 1 n nroll 1 1 1 w.
Proof.
  induction n as [|n IH]; intros nroll w Hreals.
  - split; [|exact I].
    unfold potential, provisional, construct, next_real; cbn [plain_env Hstart Estart zstart].
    rewrite Hreals. unfold all_ones.
    replace ((1 - (1 + 1 - 1)) / 1) with 0 by lra. rewrite sqrt_0. lra.
  - split.
    + unfold potential, provisional, construct, next_real; cbn [plain_env Hstart Estart zstart].
      rewrite Hreals. unfold all_ones.
      replace ((1 - (1 + 1 - 1)) / 1) with 0 by lra. rewrite sqrt_0. lra.
    + exists 1, 1, 1. eexists. split.
      * cbn [unit_cube TCuboidVolumeSource_new shape RandomPointInSourceVolume].
        rewrite cuboid_point. unfold real_at; cbn [tried mc advance reals cursor].
        rewrite Hreals. reflexivity.
      * apply IH. cbn [mc consumed reals tried advance]. exact Hreals.
Qed.

Lemma unit_cube_exhausts fuel w :
  reals (mc w) = all_ones ->
  exists q x' y' z' w',
    TVolumeSource_CreateParticle plain_env fuel (unit_cube true) w
      = Ret (q, unit_cube true) w' /\
    particle_at w' q =
      Some (set_ID (provisional plain_env TNeutron (volume_base (unit_cube true))
                      1 1 1 1 x' y' z')
                   (ID_INITIAL_NOT_FOUND plain_env)) /\
    q = (List.length (heap w) + Z.to_nat MAX_DICE_ROLL)%nat /\
    List.length (heap w') = (List.length (heap w) + Z.to_nat MAX_DICE_ROLL + 1)%nat.
Proof.
  intros Hreals.
  eapply (volume_exhaustion plain_env fuel (unit_cube true) w TNeutron 1 1 1 1
            (int_at w 4) 1 1 1).
  - reflexivity.
  - reflexivity.
  - rewrite (start_values_cuboid plain_env fuel (unit_cube true) (mkCuboid 0 1 0 1 0 1))
      by reflexivity.
    unfold real_at. rewrite Hreals. reflexivity.
  - apply all_ones_never_accepted. exact Hreals.
Qed.

Lemma C1_witness :
  exists q p w',
    TVolumeSource_CreateParticle plain_env 0 (unit_cube true)
      (fresh_world (scripted all_ones)) = Ret (q, unit_cube true) w' /\
    particle_at w' q = Some p /\
    ID p = ID_INITIAL_NOT_FOUND plain_env /\
    particlenumber p = (ParticleCounter (volume_base (unit_cube true)) + 1)%Z /\
    Estart p = 1 /\
    (Z.of_nat (List.length (heap w'))
     - Z.of_nat (List.length (heap (fresh_world (scripted all_ones)))) = 42000001)%Z /\
    (Z.of_nat q = Z.of_nat (List.length (heap w')) - 1)%Z.
Proof.
  eapply (C1_exhaustion_after_all_trials plain_env 0 (unit_cube true)
            (fresh_world (scripted all_ones)) TNeutron 1 1 1 1 1%Z 1 1 1).
  - reflexivity.
  - reflexivity.
  - rewrite (start_values_cuboid plain_env 0 (unit_cube true) (mkCuboid 0 1 0 1 0 1))
      by reflexivity.
    reflexivity.
  - lra.
  - apply all_ones_never_accepted. reflexivity.
Defined.

(** ** The trials the loop comes to *)

Section Reaching.

Variable env : Collaborators.
Variable point : M CPoint.
Variable c : ParticleClass.
Variable self : TParticleSource.
Variables t H phi_v theta_v : R.
Variable polarisation : Z.
Hypothesis known : class_of_name (fParticleName self) = Some c.

Lemma goes_on_loop s s' rounds :
  goes_on env point c self t H phi_v theta_v s s' ->
  dice_loop_from env (S rounds) point self t H phi_v theta_v polarisation s =
  dice_loop_from env rounds point self t H phi_v theta_v polarisation s' /\
  trial_nroll s' = (trial_nroll s + 1)%Z /\ (trial_nroll s <= MAX_DICE_ROLL)%Z.
Proof.
  intros Hgo. unfold dice_loop_from.
  destruct Hgo as [nroll x y z E w x' y' z' w' Hrej Hroll Hpoint
                  |nroll x y z E w x' y' z' w' Hacc Hneg Hroll Hpoint];
    cbn [trial_nroll trial_x trial_y trial_z trial_E trial_world];
    (split; [|split; [reflexivity|lia]]);
    rewrite (dice_loop_trial env point c self t H phi_v theta_v polarisation known)
      by lia;
    cbv zeta.
  - destruct (Rlt_dec _ _) as [Hacc|_]; [contradiction|].
    replace (MAX_DICE_ROLL <=? nroll)%Z with false by (symmetry; apply Z.leb_gt; lia).
    unfold bind. rewrite Hpoint. reflexivity.
  - destruct (Rlt_dec _ _) as [_|Hrej]; [|contradiction].
    destruct (Rgt_dec _ 0) as [Hpos|_]; [contradiction|].
    unfold bind. rewrite Hpoint. reflexivity.
Qed.

Lemma reaches_loop s s' :
  reaches env point c self t H phi_v theta_v s s' ->
  exists k,
    trial_nroll s' = (trial_nroll s + Z.of_nat k)%Z /\
    forall rounds,
      dice_loop_from env (k + rounds) point self t H phi_v theta_v polarisation s =
      dice_loop_from env rounds point self t H phi_v theta_v polarisation s'.
Proof.
  induction 1 as [s|s s' s'' Hgo _ (k & Hk & IH)].
  - exists 0%nat. split; [lia|]. reflexivity.
  - exists (S k). split.
    + destruct (goes_on_loop s s' 0 Hgo) as (_ & Hn & _). lia.
    + intros rounds. cbn [Nat.add].
      destruct (goes_on_loop s s' (k + rounds) Hgo) as (-> & _ & _). apply IH.
Qed.



End Reaching.



(** *** A search that is left by the condition of the loop *)






(** ** The numbers of the particles *)

Lemma particle_at_inside w q p : particle_at w q = Some p -> (q < List.length (heap w))%nat.
Proof.
  unfold particle_at. intros H. apply nth_error_Some.
  destruct (nth_error (heap w) q); [intros [=]|discriminate H].
Qed.

Lemma TSource_call_outcome env fuel src w :
  call_outcome env src w (TSource_CreateParticle env fuel src w).
Proof.
  destruct src as [mode [v|s]]; unfold TSource_CreateParticle, counter;
    cbn [source sourcemode].
  - pose proof (volume_call_outcome env fuel v w) as Hv.
    unfold bind.
    destruct (TVolumeSource_CreateParticle env fuel v w) as [[q v'] w'|code w'|w'|w'];
      destruct Hv as (_ & Hheap & Hres); cbn [world_of] in *;
      (split; [exact Hheap|]); try exact I.
    cbn [source].
    destruct Hres as (_ & _ & _ & _ & Hq & p & Hp & Hnum & Hcnt).
    split; [exact Hq|]. exists p. split; [exact Hp|]. split; [exact Hnum|].
    destruct Hcnt as [[Hc Hid]|(Hc & Hid & _)]; auto.
  - unfold bind.
    destruct (chosen_triangle s w) as [tri|] eqn:Ht.
    + destruct (class_of_name (fParticleName (surface_base s))) as [c|] eqn:Hc.
      * rewrite (surface_returns env s w c tri Hc Ht). unfold ret.
        split; [cbn [world_of heap]; eauto|]. cbn [source]. split; [lia|].
        eexists. split; [apply particle_at_new|].
        split; [reflexivity|]. left. split; reflexivity.
      * rewrite (surface_exits env s w tri Hc Ht). cbn [world_of heap].
        split; [|exact I]. exists []. now rewrite app_nil_r.
    + rewrite (surface_reads_end env s w Ht). cbn [world_of heap].
      split; [|exact I]. exists []. now rewrite app_nil_r.
Qed.

Lemma simulate_outcome env fuel n :
  forall src w ps src' w',
    simulate env fuel n src w = Ret (ps, src') w' ->
    (exists extra, heap w' = heap w ++ extra) /\
    (counter src <= counter src')%Z /\
    (forall q, In q ps ->
       forall p, particle_at w' q = Some p -> (counter src < particlenumber p)%Z) /\
    (forall i j qi qj pi pj,
       (i < j)%nat ->
       nth_error ps i = Some qi -> nth_error ps j = Some qj ->
       particle_at w' qi = Some pi -> particle_at w' qj = Some pj ->
       (particlenumber pi <= particlenumber pj)%Z /\
       (ID pi <> ID_INITIAL_NOT_FOUND env ->
        (particlenumber pi < particlenumber pj)%Z)).
Proof.
  induction n as [|n IH]; intros src w ps src' w' Hrun.
  - cbn in Hrun. injection Hrun as <- <- <-.
    split; [exists []; now rewrite app_nil_r|]. split; [lia|].
    split; [intros q []|].
    intros i j qi qj pi pj _ Hi. destruct i; discriminate.
  - cbn [simulate] in Hrun.
    apply bind_Ret_inv in Hrun as ([q1 src1] & w1 & Hcall & Hrun).
    apply bind_Ret_inv in Hrun as ([ps' src2] & w2 & Hrest & Hret).
    injection Hret as <- <- <-.
    pose proof (TSource_call_outcome env fuel src w) as Hc.
    rewrite Hcall in Hc.
    destruct Hc as ((extra1 & Hheap1) & Hq1 & p1 & Hp1 & Hnum1 & Hcnt1).
    cbn [world_of] in Hheap1.
    destruct (IH _ _ _ _ _ Hrest) as ((extra2 & Hheap2) & Hmono & Habove & Hord).
    assert (Hp1' : particle_at w2 q1 = Some p1)
      by exact (particle_at_extended _ _ _ _ _ Hheap2 Hp1).
    assert (Hcnt : (counter src <= counter src1)%Z)
      by (destruct Hcnt1 as [[-> _]|[-> _]]; lia).
    split; [|split; [|split]].
    + exists (extra1 ++ extra2). now rewrite Hheap2, Hheap1, <- app_assoc.
    + lia.
    + intros q [<-|Hin] p Hp.
      * rewrite Hp1' in Hp. injection Hp as <-. lia.
      * specialize (Habove q Hin p Hp). lia.
    + intros [|i] [|j] qi qj pi pj Hij Hi Hj Hpi Hpj; try lia.
      * cbn in Hi, Hj. injection Hi as <-.
        rewrite Hp1' in Hpi. injection Hpi as <-.
        apply nth_error_In in Hj.
        specialize (Habove qj Hj pj Hpj).
        split; [lia|]. intros Hid.
        destruct Hcnt1 as [[Hs _]|[_ Hs]]; [lia|contradiction].
      * cbn in Hi, Hj. apply (Hord i j qi qj pi pj); auto. lia.
Qed.

Lemma TSource_surface_call env fuel mode s w q s' w' :
  TSurfaceSource_CreateParticle env s w = Ret (q, s') w' ->
  TSource_CreateParticle env fuel (mkSource mode (SurfaceSource s)) w =
  Ret (q, mkSource mode (SurfaceSource s')) w'.
Proof.
  intros H. unfold TSource_CreateParticle; cbn [source sourcemode].
  unfold bind. now rewrite H.
Qed.

Lemma TSource_volume_call env fuel mode v w q v' w' :
  TVolumeSource_CreateParticle env fuel v w = Ret (q, v') w' ->
  TSource_CreateParticle env fuel (mkSource mode (VolumeSource v)) w =
  Ret (q, mkSource mode (VolumeSource v')) w'.
Proof.
  intros H. unfold TSource_CreateParticle; cbn [source sourcemode].
  unfold bind. now rewrite H.
Qed.

Lemma simulate_step env fuel n src w q src1 w1 ps src2 w2 :
  TSource_CreateParticle env fuel src w = Ret (q, src1) w1 ->
  simulate env fuel n src1 w1 = Ret (ps, src2) w2 ->
  simulate env fuel (S n) src w = Ret (q :: ps, src2) w2.
Proof.
  intros H1 H2. cbn [simulate]. unfold bind. now rewrite H1, H2.
Qed.

(** C3, as the code has it: the factory gives a particle the number
    [++ParticleCounter], so that the first particle of a source has the
    number 1.  The particle a call returns has the number of the counter
    plus one; the call leaves the counter one higher, or, when the
    phase-space search fails and the provisional particle is returned with
    the status [ID_INITIAL_NOT_FOUND], as it was, because the decrement
    follows every provisional particle.  Over a run the numbers of the
    returned particles never decrease, and the number of a particle that
    was not returned with that status is below the numbers of all
    particles returned after it. *)
Theorem C3_particle_numbers env fuel :
  (forall name time, ParticleCounter (TParticleSource_new name time) = 0%Z) /\
  (forall self t x y z E phi_v theta_v polarisation c w,
     class_of_name (fParticleName self) = Some c ->
     exists p,
       TParticleSource_CreateParticle env self t x y z E phi_v theta_v polarisation w =
         Ret (List.length (heap w),
              set_ParticleCounter self (ParticleCounter self + 1))
             (mkWorld (mc w) (heap w ++ [Some p]) (out w)) /\
       particlenumber p = (ParticleCounter self + 1)%Z) /\
  (forall src w q src' w',
     TSource_CreateParticle env fuel src w = Ret (q, src') w' ->
     exists p,
       particle_at w' q = Some p /\
       particlenumber p = (counter src + 1)%Z /\
       ((counter src' = (counter src + 1)%Z /\ ID p = ID_UNKNOWN env) \/
        (counter src' = counter src /\ ID p = ID_INITIAL_NOT_FOUND env))) /\
  (forall n src w ps src' w',
     simulate env fuel n src w = Ret (ps, src') w' ->
     forall i j qi qj pi pj,
       (i < j)%nat ->
       nth_error ps i = Some qi -> nth_error ps j = Some qj ->
       particle_at w' qi = Some pi -> particle_at w' qj = Some pj ->
       (particlenumber pi <= particlenumber pj)%Z /\
       (ID pi <> ID_INITIAL_NOT_FOUND env ->
        (particlenumber pi < particlenumber pj)%Z)).
Proof.
  split; [reflexivity|]. split; [|split].
  - intros self t x y z E phi_v theta_v polarisation c w Hc.
    eexists. split; [apply (factory_known env self _ _ _ _ _ _ _ _ c w Hc)|].
    reflexivity.
  - intros src w q src' w' Hcall.
    pose proof (TSource_call_outcome env fuel src w) as H. rewrite Hcall in H.
    destruct H as (_ & _ & H). exact H.
  - intros n src w ps src' w' Hrun.
    exact (proj2 (proj2 (proj2 (simulate_outcome env fuel n src w ps src' w' Hrun)))).
Qed.

Lemma C3_witness :
  exists ps src' w',
    simulate plain_env 0 2 (mkSource "STLsurface" (SurfaceSource (two_triangles 0)))
      (fresh_world (scripted (fun _ => 0))) = Ret (ps, src') w' /\
    forall i j qi qj pi pj,
      (i < j)%nat ->
      nth_error ps i = Some qi -> nth_error ps j = Some qj ->
      particle_at w' qi = Some pi -> particle_at w' qj = Some pj ->
      (particlenumber pi <= particlenumber pj)%Z /\
      (ID pi <> ID_INITIAL_NOT_FOUND plain_env ->
       (particlenumber pi < particlenumber pj)%Z).
Proof.
  assert (Hrun : exists ps src' w',
    simulate plain_env 0 2 (mkSource "STLsurface" (SurfaceSource (two_triangles 0)))
      (fresh_world (scripted (fun _ => 0))) = Ret (ps, src') w').
  { eexists _, _, _.
    eapply simulate_step;
      [apply TSource_surface_call;
       apply (surface_returns plain_env _ _ TNeutron small_triangle);
       [reflexivity
       |unfold chosen_triangle, real_at; cbn; decide_reals; reflexivity]|].
    eapply simulate_step;
      [apply TSource_surface_call;
       apply (surface_returns plain_env _ _ TNeutron small_triangle);
       [reflexivity
       |unfold chosen_triangle, real_at; cbn; decide_reals; reflexivity]|].
    reflexivity. }
  destruct Hrun as (ps & src' & w' & Hrun).
  exists ps, src', w'. split; [exact Hrun|].
  exact (proj2 (proj2 (proj2 (C3_particle_numbers plain_env 0))) 2%nat _ _ _ _ _ Hrun).
Defined.

(** C3 as stated fails when the phase-space search fails: two calls in a
    row return two particles, in different cells of the heap, that both
    have the number 1, and the counter is still 0 afterwards. *)
Lemma C3_counterexample :
  exists q1 q2 src' w' p1 p2,
    simulate plain_env 0 2 (mkSource "boxvolume" (VolumeSource (unit_cube true)))
      (fresh_world (scripted all_ones)) = Ret ([q1; q2], src') w' /\
    q1 <> q2 /\
    particle_at w' q1 = Some p1 /\ particle_at w' q2 = Some p2 /\
    particlenumber p1 = 1%Z /\ particlenumber p2 = 1%Z /\
    ~ (particlenumber p1 < particlenumber p2)%Z /\
    counter src' = 0%Z.
Proof.
  destruct (unit_cube_exhausts 0 (fresh_world (scripted all_ones)) eq_refl)
    as (q1 & x1 & y1 & z1 & w1 & Hcall1 & Hp1 & Hq1 & Hlen1).
  pose proof (volume_call_outcome plain_env 0 (unit_cube true)
                (fresh_world (scripted all_ones))) as Hout1.
  rewrite Hcall1 in Hout1.
  destruct Hout1 as ((k1 & l1 & _ & Hmc1) & _ & _). cbn [world_of] in Hmc1.
  assert (Hreals1 : reals (mc w1) = all_ones) by (rewrite Hmc1; reflexivity).
  destruct (unit_cube_exhausts 0 w1 Hreals1)
    as (q2 & x2 & y2 & z2 & w2 & Hcall2 & Hp2 & Hq2 & Hlen2).
  pose proof (volume_call_outcome plain_env 0 (unit_cube true) w1) as Hout2.
  rewrite Hcall2 in Hout2.
  destruct Hout2 as (_ & (extra2 & Hheap2) & _). cbn [world_of] in Hheap2.
  exists q1, q2, (mkSource "boxvolume" (VolumeSource (unit_cube true))), w2.
  eexists _, _.
  split.
  { eapply simulate_step; [apply TSource_volume_call; exact Hcall1|].
    eapply simulate_step; [apply TSource_volume_call; exact Hcall2|].
    reflexivity. }
  split; [lia|].
  split; [exact (particle_at_extended _ _ _ _ _ Hheap2 Hp1)|].
  split; [exact Hp2|].
  cbn [particlenumber set_ID provisional construct unit_cube TCuboidVolumeSource_new
         volume_base TParticleSource_new ParticleCounter counter source].
  repeat split; lia.
Qed.

(** ** The order of the draws *)

Lemma volume_call_unweighted env fuel self box c w :
  fPhaseSpaceWeighting self = false ->
  shape self = CuboidShape box ->
  class_of_name (fParticleName (volume_base self)) = Some c ->
  TVolumeSource_CreateParticle env fuel self w =
  Ret (List.length (heap w),
       set_volume_base self
         (set_ParticleCounter (volume_base self)
            (ParticleCounter (volume_base self) + 1)))
    (mkWorld
       (consumed (mc w) 8
          (volume_draws self ++
           [UniformDraw (xmin box) (xmax box); UniformDraw (ymin box) (ymax box);
            UniformDraw (cuboid_zmin box) (cuboid_zmax box)]))
       (heap w ++
        [Some (construct env c (ParticleCounter (volume_base self) + 1)
                 (real_at w 0) (real_at w 5) (real_at w 6) (real_at w 7)
                 (real_at w 1) (real_at w 2) (real_at w 3))])
       (out w ++ [Text nl])).
Proof.
  intros Hpsw Hshape Hc. unfold TVolumeSource_CreateParticle.
  unfold bind at 1. rewrite (start_values_cuboid env fuel self box w Hshape), Hpsw.
  now rewrite (final_particle_known env self _ _ _ _ _ _ _ _ _ c) by exact Hc.
Qed.

(** ** The rounds given to the loop are enough *)

Lemma dice_loop_unknown env rounds point self t H phi_v theta_v polarisation
  nroll x y z E w :
  class_of_name (fParticleName self) = None ->
  (nroll <= MAX_DICE_ROLL)%Z ->
  exists w',
    dice_loop env (S rounds) point self t H phi_v theta_v polarisation nroll x y z E w
    = Exit (-1) w'.
Proof.
  intros Hc Hroll. cbn [dice_loop].
  replace (nroll <=? MAX_DICE_ROLL)%Z with true by (symmetry; apply Z.leb_le; exact Hroll).
  destruct (nroll mod 100000 =? 0)%Z.
  - rewrite bind_print. unfold bind. rewrite factory_unknown by exact Hc. eauto.
  - rewrite bind_ret. unfold bind. rewrite factory_unknown by exact Hc. eauto.
Qed.

Lemma dice_loop_enough_rounds env point self t H phi_v theta_v polarisation :
  (forall w w', point w <> Spin w') ->
  forall rounds nroll x y z E w w',
    (0 < rounds)%nat ->
    (MAX_DICE_ROLL + 1 - nroll < Z.of_nat rounds)%Z ->
    dice_loop env rounds point self t H phi_v theta_v polarisation nroll x y z E w
    <> Spin w'.
Proof.
  intros Hpoint.
  induction rounds as [|rounds IH]; intros nroll x y z E w w' Hpos Hrounds; [lia|].
  destruct (Z_le_gt_dec nroll MAX_DICE_ROLL) as [Hroll|Hroll].
  2:{ rewrite dice_loop_over by lia. discriminate. }
  destruct (class_of_name (fParticleName self)) as [c|] eqn:Hc.
  2:{ destruct (dice_loop_unknown env rounds point self t H phi_v theta_v polarisation
                  nroll x y z E w Hc Hroll) as (w1 & ->). discriminate. }
  rewrite (dice_loop_trial env point c self t H phi_v theta_v polarisation Hc)
    by exact Hroll.
  cbv zeta.
  assert (Hnext : forall E' w1,
    bind point
      (fun x0 => let '(x', y', z') := x0 in
         dice_loop env rounds point self t H phi_v theta_v polarisation
           (nroll + 1) x' y' z' E') w1 <> Spin w').
  { intros E' w1. unfold bind.
    destruct (point w1) as [[[x' y'] z'] w2|code w2|w2|w2] eqn:Hp;
      try discriminate.
    - apply IH; lia.
    - exfalso. exact (Hpoint _ _ Hp). }
  destruct (Rlt_dec _ _).
  - destruct (Rgt_dec _ 0); [discriminate|apply Hnext].
  - destruct (MAX_DICE_ROLL <=? nroll)%Z; [discriminate|apply Hnext].
Qed.

(** a source whose points are always found returns from every call, or
    ends the process when its particle name is unknown *)
Lemma volume_call_returns env fuel self w :
  (forall w1 w2, RandomPointInSourceVolume env fuel (shape self) w1 <> Spin w2) ->
  (exists r w', TVolumeSource_CreateParticle env fuel self w = Ret r w') \/
  (exists w', TVolumeSource_CreateParticle env fuel self w = Exit (-1) w' /\
              class_of_name (fParticleName (volume_base self)) = None).
Proof.
  intros Hpoint.
  pose proof (volume_call_outcome env fuel self w) as Hout.
  destruct (TVolumeSource_CreateParticle env fuel self w) as [r w'|code w'|w'|w'] eqn:Hcall.
  - left. eauto.
  - right. destruct Hout as (_ & _ & Hc & ->). eauto.
  - destruct Hout as (_ & _ & []).
  - exfalso. clear Hout. revert Hcall. unfold TVolumeSource_CreateParticle.
    pose proof dice_rounds_cover as Hcover. revert Hcover.
    generalize dice_rounds. intros rounds Hcover.
    assert (Hfinal : forall base t x y z E phi_v theta_v polarisation w1,
              final_particle env self base t x y z E phi_v theta_v polarisation w1
              <> Spin w').
    { intros base t x y z E phi_v theta_v polarisation w1.
      destruct (class_of_name (fParticleName base)) as [c|] eqn:Hc.
      - rewrite (final_particle_known _ _ _ _ _ _ _ _ _ _ _ c) by exact Hc. discriminate.
      - rewrite final_particle_unknown by exact Hc. discriminate. }
    destruct (start_values_outcome env fuel self w)
      as (k & l & _ & [[[[x y] z] Hs]|Hs]).
    2:{ revert Hs. unfold start_values.
        do 4 step_draw. unfold bind.
        match goal with |- context [RandomPointInSourceVolume env fuel (shape self) ?w1] =>
          destruct (RandomPointInSourceVolume env fuel (shape self) w1) eqn:Hp end;
          try discriminate.
        exfalso. exact (Hpoint _ _ Hp). }
    unfold bind at 1. rewrite Hs.
    destruct (fPhaseSpaceWeighting self); [|apply Hfinal].
    cbv zeta. rewrite bind_print. unfold bind at 1.
    match goal with |- context [dice_loop env rounds ?pt ?b ?t ?H ?p ?th ?pol ?n ?x0 ?y0 ?z0 ?E ?w1] =>
      pose proof (dice_loop_enough_rounds env pt b t H p th pol Hpoint rounds
                    n x0 y0 z0 E w1) as Hrounds;
      destruct (dice_loop env rounds pt b t H p th pol n x0 y0 z0 E w1)
        as [[[q|[[[x' y'] z'] E']] s] w2|code w2|w2|w2]
    end; try discriminate.
    + apply Hfinal.
    + intros _. unfold MAX_DICE_ROLL in Hcover, Hrounds.
      apply (Hrounds w2); [lia | lia | reflexivity].
Qed.

Lemma parametric_point_returns env fuel s :
  (forall f, s <> STLShape f) ->
  forall w1 w2, RandomPointInSourceVolume env fuel s w1 <> Spin w2.
Proof.
  intros Hs w1 w2. destruct s as [c|c|f]; cbn [RandomPointInSourceVolume].
  - rewrite cuboid_point. discriminate.
  - rewrite cylinder_point. discriminate.
  - now elim (Hs f).
Qed.

(** ** The sources the constructor of [TSource] does build *)

Lemma TSource_new_returns env mode line rest geom w :
  recognized mode = true -> ~ parse_failed env mode line ->
  exists src w', TSource_new env ((mode, line) :: rest) geom w = Ret src w'.
Proof.
  intros Hmode Hparse.
  assert (Hbuilt : exists s w', TSource_build env mode line geom w = Ret (Some s) w').
  { unfold recognized in Hmode. rewrite !orb_true_iff in Hmode.
    unfold parse_failed in Hparse. unfold TSource_build.
    destruct Hmode as [[[[Hm|Hm]|Hm]|Hm]|Hm]; apply String.eqb_eq in Hm; subst mode; cbn.
    - destruct (extract_volume_box env line)
        as [[[[[name [[[[[a b] c] d] e] f]] time] psw] left]|] eqn:E.
      + eexists _, _. reflexivity.
      + exfalso. apply Hparse. left. split; [left; reflexivity|reflexivity].
    - destruct (extract_volume_box env line)
        as [[[[[name [[[[[a b] c] d] e] f]] time] psw] left]|] eqn:E.
      + eexists _, _. reflexivity.
      + exfalso. apply Hparse. left. split; [right; reflexivity|reflexivity].
    - destruct (extract_volume_file env line) as [[[[[name file] time] psw] left]|] eqn:E.
      + eexists _, _. reflexivity.
      + exfalso. apply Hparse. right. left. split; [reflexivity|reflexivity].
    - destruct (extract_surface_box env line)
        as [[[[[name [[[[[a b] c] d] e] f]] time] En] left]|] eqn:E.
      + unfold bind, TCylindricalSurfaceSource_new.
        destruct (collect_triangles _ _ _ _) as [tris total].
        eexists _, _. reflexivity.
      + exfalso. apply Hparse. right. right. left. split; [reflexivity|reflexivity].
    - destruct (extract_surface_file env line) as [[[[[name file] time] En] left]|] eqn:E.
      + unfold bind, TSTLSurfaceSource_new.
        destruct (collect_triangles _ _ _ _) as [tris total].
        eexists _, _. reflexivity.
      + exfalso. apply Hparse. right. right. right. split; [reflexivity|reflexivity]. }
  destruct Hbuilt as (s & w' & Hb).
  unfold TSource_new. unfold bind at 1. rewrite Hb.
  eexists _, _. reflexivity.
Qed.

(** * Further properties of the sources *)

(** ** Which draws choose which triangle *)

Lemma prefix_area_monotone tris :
  (forall t, In t tris -> 0 <= area t) ->
  forall m n, (m <= n)%nat ->
    total_area (firstn m tris) <= total_area (firstn n tris).
Proof.
  induction tris as [|t tris IH]; intros Hpos m n Hmn.
  - rewrite !firstn_nil. lra.
  - destruct m as [|m].
    + cbn [firstn]. change (total_area []) with 0.
      destruct n as [|n]; [cbn; lra|].
      cbn [firstn]. rewrite total_area_cons.
      pose proof (Hpos t (or_introl eq_refl)).
      specialize (IH (fun t' Ht' => Hpos t' (or_intror Ht')) 0%nat n ltac:(lia)).
      cbn [firstn] in IH. change (total_area []) with 0 in IH. lra.
    + destruct n as [|n]; [lia|].
      cbn [firstn]. rewrite !total_area_cons.
      specialize (IH (fun t' Ht' => Hpos t' (or_intror Ht')) m n ltac:(lia)). lra.
Qed.

Lemma running_sum_next tris j t :
  nth_error tris (S j) = Some t ->
  running_sum tris (S j) = running_sum tris j + area t.
Proof.
  unfold running_sum. revert j; induction tris as [|t0 tris IH]; intros j H.
  - discriminate.
  - change (firstn (S (S j)) (t0 :: tris)) with (t0 :: firstn (S j) tris).
    change (firstn (S j) (t0 :: tris)) with (t0 :: firstn j tris).
    rewrite !total_area_cons. cbn [nth_error] in H.
    destruct j as [|j].
    + destruct tris as [|t1 tris]; [discriminate|].
      injection H as ->. cbn. lra.
    + rewrite (IH j H). lra.
Qed.

(** X1: with triangles of non-negative area, the scan stops at the
    triangle number [k] exactly for the draws above the running sum of the
    triangles before it and up to its own running sum, an interval as long
    as its area; a triangle of area 0 that is not the first one is
    therefore never chosen. *)
Theorem X1_draws_that_choose_a_triangle self w k :
  (forall t, In t (sourcetris self) -> 0 <= area t) ->
  (k < List.length (sourcetris self))%nat ->
  (scan_triangles (sourcetris self) 0 (real_at w 1) 0 = k <->
   real_at w 1 <= running_sum (sourcetris self) k /\
   forall j, k = S j -> running_sum (sourcetris self) j < real_at w 1) /\
  (forall j t, k = S j -> nth_error (sourcetris self) k = Some t ->
     running_sum (sourcetris self) k = running_sum (sourcetris self) j + area t /\
     (area t = 0 -> scan_triangles (sourcetris self) 0 (real_at w 1) 0 <> k)).
Proof.
  intros Hpos Hk.
  destruct (scan_triangles_stops (sourcetris self) (real_at w 1) 0)
    as (Hle & Hbefore & Hat).
  assert (Hiff : scan_triangles (sourcetris self) 0 (real_at w 1) 0 = k <->
     real_at w 1 <= running_sum (sourcetris self) k /\
     forall j, k = S j -> running_sum (sourcetris self) j < real_at w 1).
  { unfold running_sum. split.
    - intros E. rewrite E in Hbefore, Hat. split.
      + specialize (Hat Hk). lra.
      + intros j ->. specialize (Hbefore j ltac:(lia)). lra.
    - intros [Hu Hprev].
      set (k' := scan_triangles (sourcetris self) 0 (real_at w 1) 0) in *.
      destruct (Nat.lt_trichotomy k' k) as [Hlt|[E|Hgt]]; [|exact E|].
      + exfalso. destruct k as [|j]; [lia|].
        specialize (Hprev j eq_refl). specialize (Hat ltac:(lia)).
        pose proof (prefix_area_monotone _ Hpos (S k') (S j) ltac:(lia)). lra.
      + exfalso. specialize (Hbefore k Hgt). lra. }
  split; [exact Hiff|].
  intros j t -> Ht.
  pose proof (running_sum_next _ _ _ Ht) as Hnext.
  split; [exact Hnext|].
  intros Hzero E. apply Hiff in E as [Hu Hprev].
  specialize (Hprev j eq_refl). lra.
Qed.

Lemma X1_witness :
  scan_triangles (sourcetris (two_triangles 0)) 0
    (real_at (fresh_world (scripted all_ones)) 1) 0 = 1%nat <->
  real_at (fresh_world (scripted all_ones)) 1
    <= running_sum (sourcetris (two_triangles 0)) 1 /\
  forall j, 1%nat = S j ->
    running_sum (sourcetris (two_triangles 0)) j
      < real_at (fresh_world (scripted all_ones)) 1.
Proof.
  apply (X1_draws_that_choose_a_triangle (two_triangles 0)
           (fresh_world (scripted all_ones)) 1).
  - intros t [<-|[<-|[]]]; cbn; lra.
  - cbn. lia.
Defined.

(** ** From the constructor to the emission *)

Lemma constructed_source env geometry inside s :
  constructed env geometry inside s ->
  sourcetris s = filter (all_inside inside) (mesh_triangles geometry) /\
  sourcearea s = total_area (sourcetris s) /\
  ParticleCounter (surface_base s) = 0%Z.
Proof.
  intros [(name & time & En & c & w0 & w1 & -> & H)
         |(name & time & En & file & w0 & w1 & -> & H)]; revert H.
  - unfold TCylindricalSurfaceSource_new. rewrite collect_triangles_filter.
    cbn [TSurfaceSource_new sourcetris sourcearea app].
    rewrite bind_print. unfold ret. intros [= <- _].
    cbn [sourcetris sourcearea surface_base TParticleSource_new ParticleCounter].
    repeat split. lra.
  - unfold TSTLSurfaceSource_new. rewrite collect_triangles_filter.
    cbn [TSurfaceSource_new sourcetris sourcearea app].
    rewrite bind_print. unfold ret. intros [= <- _].
    cbn [sourcetris sourcearea surface_base TParticleSource_new ParticleCounter].
    repeat split. lra.
Qed.

(** X2: a surface source that one of the two constructors built and that
    kept at least one triangle never reads through [end()] when the draw
    that selects the triangle is at most the cached area; the triangle it
    emits from is one of the geometry whose three vertices passed the test
    of the constructor, and the first particle has the number 1. *)
Theorem X2_emission_from_a_kept_triangle env geometry inside s w :
  constructed env geometry inside s ->
  sourcetris s <> [] ->
  real_at w 1 <= sourcearea s ->
  exists tri,
    chosen_triangle s w = Some tri /\
    In tri (mesh_triangles geometry) /\
    inside (tri0 tri) = true /\ inside (tri1 tri) = true /\
    inside (tri2 tri) = true /\
    (forall w', TSurfaceSource_CreateParticle env s w <> Undefined w') /\
    (forall c,
       class_of_name (fParticleName (surface_base s)) = Some c ->
       exists q s' w',
         TSurfaceSource_CreateParticle env s w = Ret (q, s') w' /\
         particle_at w' q = Some (surface_particle env s w c tri) /\
         particlenumber (surface_particle env s w c tri) = 1%Z).
Proof.
  intros Hbuilt Hne Hu.
  destruct (constructed_source env geometry inside s Hbuilt) as (Htris & Harea & Hcount).
  rewrite Harea in Hu.
  pose proof (scan_triangles_inside _ _ Hne Hu) as Hk.
  destruct (nth_error_inside _ _ Hk) as [tri Ht].
  exists tri. split; [exact Ht|].
  assert (Hin : In tri (sourcetris s)) by (eapply nth_error_In; exact Ht).
  rewrite Htris in Hin. apply filter_In in Hin as [Hin Hall].
  unfold all_inside in Hall. rewrite !andb_true_iff in Hall.
  destruct Hall as [[H0 H1] H2].
  repeat (split; [assumption|]).
  split.
  - intros w'.
    destruct (class_of_name (fParticleName (surface_base s))) as [c|] eqn:Hc.
    + rewrite (surface_returns env s w c tri Hc Ht). discriminate.
    + rewrite (surface_exits env s w tri Hc Ht). discriminate.
  - intros c Hc. eexists _, _, _.
    split; [apply (surface_returns env s w c tri Hc Ht)|].
    split; [apply particle_at_new|].
    unfold surface_particle, construct; cbn [particlenumber]. rewrite Hcount. reflexivity.
Qed.

Lemma X2_witness :
  exists s w1 tri,
    TSTLSurfaceSource_new plain_env "neutron" 1
      (mkGeometry [small_triangle; large_triangle]) "source.stl" 0
      (fresh_world (scripted all_ones)) = Ret s w1 /\
    chosen_triangle s (fresh_world (scripted all_ones)) = Some tri /\
    In tri [small_triangle; large_triangle] /\
    (forall w', TSurfaceSource_CreateParticle plain_env s
                  (fresh_world (scripted all_ones)) <> Undefined w').
Proof.
  eexists _, _.
  assert (Hnew : TSTLSurfaceSource_new plain_env "neutron" 1
            (mkGeometry [small_triangle; large_triangle]) "source.stl" 0
            (fresh_world (scripted all_ones)) = Ret _ _) by reflexivity.
  destruct (X2_emission_from_a_kept_triangle plain_env
              (mkGeometry [small_triangle; large_triangle])
              (InSolid plain_env "source.stl") _ (fresh_world (scripted all_ones))
              (or_intror (ex_intro _ _ (ex_intro _ _ (ex_intro _ _ (ex_intro _ _
                 (ex_intro _ _ (ex_intro _ _ (conj eq_refl Hnew))))))))
              ltac:(discriminate)
              ltac:(cbn; unfold all_ones; lra))
    as (tri & Ht & Hin & _ & _ & _ & Hsafe & _).
  exists tri. split; [exact Hnew|]. split; [exact Ht|]. split; [exact Hin|exact Hsafe].
Defined.

(** ** Sectors that hold no point *)

Lemma atan2_range y x : - PI < atan2 y x <= PI.
Proof.
  pose proof PI_RGT_0 as Hpi.
  pose proof (atan_bound (y / x)) as Hb.
  unfold atan2.
  destruct (Rlt_dec 0 x) as [Hx|Hx]; [lra|].
  destruct (Rlt_dec x 0) as [Hx'|Hx'].
  - assert (Hinv : / x < 0) by (apply Rinv_lt_0_compat; exact Hx').
    destruct (Rle_dec 0 y) as [Hy|Hy].
    + assert (Hq : y / x <= 0) by (unfold Rdiv; nra).
      assert (Ha : atan (y / x) <= 0).
      { destruct Hq as [Hq|Hq].
        - left. rewrite <- atan_0. now apply atan_increasing.
        - rewrite Hq, atan_0. lra. }
      lra.
    + assert (Hq : 0 < y / x) by (unfold Rdiv; nra).
      assert (Ha : 0 < atan (y / x)).
      { rewrite <- atan_0. now apply atan_increasing. }
      lra.
  - destruct (Rlt_dec 0 y); [lra|]. destruct (Rlt_dec y 0); lra.
Qed.

Lemma empty_sector c p :
  PI < phimin c \/ phimax c <= - PI \/ rmax c < 0 ->
  TCylindricalSurfaceSource_InSourceVolume c p = false.
Proof.
  intros Hc. unfold TCylindricalSurfaceSource_InSourceVolume, Rgeb, Rleb.
  pose proof (atan2_range (coord1 p) (coord0 p)) as Hphi.
  pose proof (sqrt_pos (coord0 p * coord0 p + coord1 p * coord1 p)) as Hr.
  destruct (Rge_dec _ (rmin c)); [|reflexivity].
  destruct (Rle_dec _ (rmax c)) as [Hmax|]; [|reflexivity].
  destruct (Rge_dec _ (phimin c)) as [Hmin|]; [|reflexivity].
  destruct (Rle_dec _ (phimax c)) as [Hmax'|]; [|reflexivity].
  exfalso. lra.
Qed.

(** X3: the azimuth [atan2] gives lies above [-pi] and not above [pi], and
    the radius is not negative.  A cylindrical sector whose azimuth starts
    above [pi], or ends at [-pi] or below, or whose outer radius is
    negative, holds no point: the constructor keeps no triangle, caches
    the area 0, and every call of [CreateParticle] on the source it
    returns reads through [end()]. *)
Theorem X3_sector_without_points env ParticleName ActiveTime geometry E_normal c :
  PI < phimin c \/ phimax c <= - PI \/ rmax c < 0 ->
  (forall p, TCylindricalSurfaceSource_InSourceVolume c p = false) /\
  forall w0, exists s w1,
    TCylindricalSurfaceSource_new ParticleName ActiveTime geometry E_normal c w0
      = Ret s w1 /\
    sourcetris s = [] /\ sourcearea s = 0 /\
    out w1 = out w0 ++ [Text "Source Area: "; Real 0; Text " m^2"; Text nl] /\
    forall w, exists w', TSurfaceSource_CreateParticle env s w = Undefined w'.
Proof.
  intros Hc. split; [intros p; now apply empty_sector|].
  intros w0.
  assert (Hnone : filter (all_inside (TCylindricalSurfaceSource_InSourceVolume c))
                    (mesh_triangles geometry) = []).
  { induction (mesh_triangles geometry) as [|i rest IH]; [reflexivity|].
    cbn [filter]. unfold all_inside at 1. rewrite (empty_sector c (tri0 i) Hc).
    exact IH. }
  unfold TCylindricalSurfaceSource_new. rewrite collect_triangles_filter, Hnone.
  cbn [TSurfaceSource_new sourcetris sourcearea app total_area fold_right].
  replace (0 + 0) with 0 by lra.
  eexists _, _. split; [reflexivity|].
  cbn [sourcetris sourcearea out]. repeat split.
  intros w. eexists. apply surface_reads_end. reflexivity.
Qed.

Lemma X3_witness :
  (forall p, TCylindricalSurfaceSource_InSourceVolume beyond_pi p = false) /\
  forall w0, exists s w1,
    TCylindricalSurfaceSource_new "neutron" 1
      (mkGeometry [small_triangle; large_triangle]) 0 beyond_pi w0 = Ret s w1 /\
    sourcetris s = [] /\ sourcearea s = 0 /\
    out w1 = out w0 ++ [Text "Source Area: "; Real 0; Text " m^2"; Text nl] /\
    forall w, exists w', TSurfaceSource_CreateParticle plain_env s w = Undefined w'.
Proof.
  apply (X3_sector_without_points plain_env "neutron" 1
           (mkGeometry [small_triangle; large_triangle]) 0 beyond_pi).
  left. pose proof PI_4. cbn. lra.
Defined.

(** ** The points of a cylindrical volume lie in the sector *)

Lemma tan_shift x : cos x <> 0 -> tan (x + PI) = tan x.
Proof.
  intros Hc. unfold tan. rewrite neg_sin, neg_cos. field. exact Hc.
Qed.

Lemma atan2_polar r phi :
  0 < r -> - PI < phi <= PI -> atan2 (r * sin phi) (r * cos phi) = phi.
Proof.
  intros Hr [Hlo Hhi].
  pose proof PI_RGT_0 as Hpi.
  assert (Hquot : cos phi <> 0 -> r * sin phi / (r * cos phi) = tan phi).
  { intros Hc. unfold tan. field. split; [exact Hc|lra]. }
  unfold atan2.
  destruct (Rlt_or_le phi (- (PI / 2))) as [H1|H1].
  - (* third quadrant *)
    assert (Hcos : cos phi < 0).
    { rewrite <- cos_neg. apply cos_lt_0; lra. }
    assert (Hsin : sin phi < 0) by (apply sin_lt_0_var; lra).
    destruct (Rlt_dec 0 (r * cos phi)); [nra|].
    destruct (Rlt_dec (r * cos phi) 0); [|nra].
    destruct (Rle_dec 0 (r * sin phi)); [nra|].
    rewrite Hquot by lra.
    rewrite <- (tan_shift phi) by lra.
    rewrite atan_tan by lra. lra.
  - destruct H1 as [H1|H1].
    2:{ (* phi = - pi/2 *)
        rewrite <- H1, cos_neg, sin_neg, cos_PI2, sin_PI2.
        replace (r * 0) with 0 by ring.
        destruct (Rlt_dec 0 0); [lra|]. destruct (Rlt_dec 0 0); [lra|].
        destruct (Rlt_dec 0 (r * - (1))); [lra|].
        destruct (Rlt_dec (r * - (1)) 0); lra. }
    destruct (Rlt_or_le phi (PI / 2)) as [H2|H2].
    + (* right half plane *)
      assert (Hcos : 0 < cos phi) by (apply cos_gt_0; lra).
      destruct (Rlt_dec 0 (r * cos phi)); [|nra].
      rewrite Hquot by lra. apply atan_tan. lra.
    + destruct H2 as [H2|H2].
      2:{ (* phi = pi/2 *)
          rewrite <- H2, cos_PI2, sin_PI2.
          replace (r * 0) with 0 by ring.
          destruct (Rlt_dec 0 0); [lra|]. destruct (Rlt_dec 0 0); [lra|].
          destruct (Rlt_dec 0 (r * 1)); lra. }
      (* second quadrant *)
      assert (Hcos : cos phi < 0) by (apply cos_lt_0; lra).
      assert (Hsin : 0 <= sin phi) by (apply sin_ge_0; lra).
      destruct (Rlt_dec 0 (r * cos phi)); [nra|].
      destruct (Rlt_dec (r * cos phi) 0); [|nra].
      destruct (Rle_dec 0 (r * sin phi)); [|nra].
      rewrite Hquot by lra.
      replace phi with ((phi - PI) + PI) at 1 by ring.
      rewrite tan_shift.
      * rewrite atan_tan by lra. lra.
      * replace (phi - PI) with (- (PI - phi)) by ring.
        rewrite cos_neg. rewrite cos_minus, cos_PI, sin_PI. nra.
Qed.

Lemma radius_polar r phi :
  0 <= r ->
  sqrt (r * cos phi * (r * cos phi) + r * sin phi * (r * sin phi)) = r.
Proof.
  intros Hr.
  replace (r * cos phi * (r * cos phi) + r * sin phi * (r * sin phi))
    with (r * r * (Rsqr (sin phi) + Rsqr (cos phi))) by (unfold Rsqr; ring).
  rewrite sin2_cos2, Rmult_1_r. now apply sqrt_square.
Qed.

(** X4: a point of a cylindrical volume source, drawn with a positive
    radius and an azimuth above [-pi] and not above [pi], has the drawn
    radius as its distance from the axis and the drawn azimuth as its
    [atan2]; when the three draws are within the bounds of the source, the
    point passes [InSourceVolume] of the cylindrical surface source with
    the same bounds. *)
Theorem X4_cylinder_point_in_sector c w :
  0 < real_at w 0 ->
  - PI < real_at w 1 <= PI ->
  exists p w',
    TCylindricalVolumeSource_RandomPointInSourceVolume c w = Ret p w' /\
    sqrt (coord0 p * coord0 p + coord1 p * coord1 p) = real_at w 0 /\
    atan2 (coord1 p) (coord0 p) = real_at w 1 /\
    coord2 p = real_at w 2 /\
    (rmin c <= real_at w 0 <= rmax c ->
     phimin c <= real_at w 1 <= phimax c ->
     zmin c <= real_at w 2 <= zmax c ->
     TCylindricalSurfaceSource_InSourceVolume c p = true).
Proof.
  intros Hr Hphi.
  eexists _, _. split; [apply cylinder_point|].
  cbn [coord0 coord1 coord2 fst snd].
  assert (Hrad := radius_polar (real_at w 0) (real_at w 1) ltac:(lra)).
  assert (Hang := atan2_polar (real_at w 0) (real_at w 1) Hr Hphi).
  split; [exact Hrad|]. split; [exact Hang|]. split; [reflexivity|].
  intros Hrb Hpb Hzb.
  unfold TCylindricalSurfaceSource_InSourceVolume, Rgeb, Rleb.
  cbn [coord0 coord1 coord2 fst snd]. rewrite Hrad, Hang.
  decide_reals; reflexivity.
Qed.

Lemma X4_witness :
  exists p w',
    TCylindricalVolumeSource_RandomPointInSourceVolume front_sector
      (fresh_world (scripted one_then_zeros)) = Ret p w' /\
    sqrt (coord0 p * coord0 p + coord1 p * coord1 p) = 1 /\
    atan2 (coord1 p) (coord0 p) = 0 /\
    coord2 p = 0 /\
    TCylindricalSurfaceSource_InSourceVolume front_sector p = true.
Proof.
  pose proof PI_RGT_0 as Hpi.
  destruct (X4_cylinder_point_in_sector front_sector
              (fresh_world (scripted one_then_zeros))
              ltac:(cbn; lra) ltac:(cbn; lra))
    as (p & w' & Hp & Hr & Ha & Hz & Hin).
  exists p, w'. split; [exact Hp|]. split; [exact Hr|]. split; [exact Ha|].
  split; [exact Hz|].
  apply Hin; cbn; lra.
Defined.

(** ** The search for a point in a solid *)

Lemma stl_round env fuel sourcefile w :
  TSTLVolumeSource_RandomPointInSourceVolume env (S fuel) sourcefile w =
  let w1 := mkWorld (consumed (mc w) 3 (box_draws env sourcefile 1)) (heap w) (out w) in
  if InSolid env sourcefile (candidate w 0) then Ret (candidate w 0) w1
  else TSTLVolumeSource_RandomPointInSourceVolume env fuel sourcefile w1.
Proof.
  cbn [TSTLVolumeSource_RandomPointInSourceVolume box_draws].
  destruct (bbox env sourcefile) as [[bx by_] bz]. cbn [fst snd].
  do 3 step_draw.
  unfold candidate, real_at. cbn [Nat.mul Nat.add].
  rewrite !Nat.add_0_r.
  replace (cursor (mc w) + 1 + 1)%nat with (cursor (mc w) + 2)%nat by lia.
  destruct (InSolid env sourcefile _); reflexivity.
Qed.

Lemma candidate_later w w1 l j :
  mc w1 = consumed (mc w) 3 l -> candidate w1 j = candidate w (S j).
Proof.
  intros H. unfold candidate, real_at. rewrite H. cbn [consumed reals cursor].
  replace (cursor (mc w) + 3 + 3 * j)%nat with (cursor (mc w) + 3 * S j)%nat by lia.
  replace (cursor (mc w) + 3 + (3 * j + 1))%nat
    with (cursor (mc w) + (3 * S j + 1))%nat by lia.
  replace (cursor (mc w) + 3 + (3 * j + 2))%nat
    with (cursor (mc w) + (3 * S j + 2))%nat by lia.
  reflexivity.
Qed.

Lemma stl_first_inside env sourcefile fuel :
  forall w k,
    (k < fuel)%nat ->
    InSolid env sourcefile (candidate w k) = true ->
    (forall j, (j < k)%nat -> InSolid env sourcefile (candidate w j) = false) ->
    TSTLVolumeSource_RandomPointInSourceVolume env fuel sourcefile w =
    Ret (candidate w k)
      (mkWorld (consumed (mc w) (3 * S k) (box_draws env sourcefile (S k)))
         (heap w) (out w)).
Proof.
  induction fuel as [|fuel IH]; intros w k Hk Hin Hout; [lia|].
  rewrite stl_round. cbv zeta.
  destruct k as [|k].
  - rewrite Hin. reflexivity.
  - rewrite (Hout 0%nat ltac:(lia)).
    set (w1 := mkWorld (consumed (mc w) 3 (box_draws env sourcefile 1)) (heap w) (out w)).
    assert (Hshift : forall j, candidate w1 j = candidate w (S j))
      by (intros j; now apply (candidate_later w w1 (box_draws env sourcefile 1))).
    rewrite (IH w1 k ltac:(lia)).
    + rewrite Hshift. cbn [mc heap out w1]. rewrite consumed_consumed.
      replace (3 + 3 * S k)%nat with (3 * S (S k))%nat by lia.
      reflexivity.
    + rewrite Hshift. exact Hin.
    + intros j Hj. rewrite Hshift. apply Hout. lia.
Qed.

Lemma stl_none_inside env sourcefile fuel :
  forall w,
    (forall j, (j < fuel)%nat -> InSolid env sourcefile (candidate w j) = false) ->
    TSTLVolumeSource_RandomPointInSourceVolume env fuel sourcefile w =
    Spin (mkWorld (consumed (mc w) (3 * fuel) (box_draws env sourcefile fuel))
            (heap w) (out w)).
Proof.
  induction fuel as [|fuel IH]; intros w Hout.
  - cbn. now rewrite consumed_nothing, world_eta.
  - rewrite stl_round. cbv zeta. rewrite (Hout 0%nat ltac:(lia)).
    set (w1 := mkWorld (consumed (mc w) 3 (box_draws env sourcefile 1)) (heap w) (out w)).
    rewrite (IH w1).
    + cbn [mc heap out w1]. rewrite consumed_consumed.
      replace (3 + 3 * fuel)%nat with (3 * S fuel)%nat by lia.
      reflexivity.
    + intros j Hj.
      rewrite (candidate_later w w1 (box_draws env sourcefile 1) j eq_refl).
      apply Hout. lia.
Qed.

Lemma first_inside_or_none (inside : nat -> bool) fuel :
  (exists k, (k < fuel)%nat /\ inside k = true /\
             forall j, (j < k)%nat -> inside j = false) \/
  (forall j, (j < fuel)%nat -> inside j = false).
Proof.
  induction fuel as [|fuel [(k & Hk & Hin & Hout)|Hnone]].
  - right. intros j Hj. lia.
  - left. exists k. split; [lia|auto].
  - destruct (inside fuel) eqn:E.
    + left. exists fuel. split; [lia|]. split; [exact E|]. exact Hnone.
    + right. intros j Hj.
      destruct (Nat.eq_dec j fuel) as [->|]; [exact E|]. apply Hnone. lia.
Qed.

(** X5: the search of the STL volume source draws candidates in the
    bounding box, three answers each, and returns the first one that
    [InSolid] accepts, having consumed three answers for every candidate
    up to it; a point it returns is always inside the solid.  When none of
    the first [fuel] candidates is inside, the loop is still running after
    [fuel] rounds, and so it is for every [fuel] when no candidate ever
    is. *)
Theorem X5_first_candidate_in_the_solid env sourcefile fuel w :
  (forall k,
     (k < fuel)%nat ->
     InSolid env sourcefile (candidate w k) = true ->
     (forall j, (j < k)%nat -> InSolid env sourcefile (candidate w j) = false) ->
     TSTLVolumeSource_RandomPointInSourceVolume env fuel sourcefile w =
     Ret (candidate w k)
       (mkWorld (consumed (mc w) (3 * S k) (box_draws env sourcefile (S k)))
          (heap w) (out w))) /\
  ((forall j, (j < fuel)%nat -> InSolid env sourcefile (candidate w j) = false) ->
   TSTLVolumeSource_RandomPointInSourceVolume env fuel sourcefile w =
   Spin (mkWorld (consumed (mc w) (3 * fuel) (box_draws env sourcefile fuel))
           (heap w) (out w))) /\
  (forall pt w',
     TSTLVolumeSource_RandomPointInSourceVolume env fuel sourcefile w = Ret pt w' ->
     InSolid env sourcefile pt = true /\
     exists k, (k < fuel)%nat /\ pt = candidate w k /\
               (forall j, (j < k)%nat -> InSolid env sourcefile (candidate w j) = false) /\
               cursor (mc w') = (cursor (mc w) + 3 * S k)%nat).
Proof.
  split; [|split].
  - intros k. apply stl_first_inside.
  - apply stl_none_inside.
  - intros pt w' Hret.
    destruct (first_inside_or_none (fun j => InSolid env sourcefile (candidate w j)) fuel)
      as [(k & Hk & Hin & Hout)|Hnone].
    + rewrite (stl_first_inside env sourcefile fuel w k Hk Hin Hout) in Hret.
      injection Hret as <- <-. split; [exact Hin|].
      exists k. repeat split; auto.
    + rewrite (stl_none_inside env sourcefile fuel w Hnone) in Hret. discriminate.
Qed.

Lemma X5_witness :
  TSTLVolumeSource_RandomPointInSourceVolume plain_env 1 "source.stl"
    (fresh_world (scripted all_ones)) =
  Ret (candidate (fresh_world (scripted all_ones)) 0)
    (mkWorld (consumed (mc (fresh_world (scripted all_ones))) (3 * 1)
                (box_draws plain_env "source.stl" 1))
       (heap (fresh_world (scripted all_ones)))
       (out (fresh_world (scripted all_ones)))) /\
  TSTLVolumeSource_RandomPointInSourceVolume hollow_env 7 "source.stl"
    (fresh_world (scripted all_ones)) =
  Spin (mkWorld (consumed (mc (fresh_world (scripted all_ones))) (3 * 7)
                   (box_draws hollow_env "source.stl" 7))
          (heap (fresh_world (scripted all_ones)))
          (out (fresh_world (scripted all_ones)))).
Proof.
  split.
  - apply (proj1 (X5_first_candidate_in_the_solid plain_env "source.stl" 1
                    (fresh_world (scripted all_ones))) 0%nat).
    + lia.
    + reflexivity.
    + intros j Hj. lia.
  - apply (proj1 (proj2 (X5_first_candidate_in_the_solid hollow_env "source.stl" 7
                           (fresh_world (scripted all_ones))))).
    intros j Hj. reflexivity.
Defined.

(** ** The particles of a run *)

Lemma simulate_pointers env fuel n :
  forall src w ps src' w',
    simulate env fuel n src w = Ret (ps, src') w' ->
    List.length ps = n /\
    NoDup ps /\
    forall q, In q ps ->
      (List.length (heap w) <= q)%nat /\ exists p, particle_at w' q = Some p.
Proof.
  induction n as [|n IH]; intros src w ps src' w' Hrun.
  - cbn in Hrun. injection Hrun as <- <- <-.
    split; [reflexivity|]. split; [constructor|]. intros q [].
  - cbn [simulate] in Hrun.
    apply bind_Ret_inv in Hrun as ([q1 src1] & w1 & Hcall & Hrun).
    apply bind_Ret_inv in Hrun as ([ps' src2] & w2 & Hrest & Hret).
    injection Hret as <- <- <-.
    pose proof (TSource_call_outcome env fuel src w) as Hc.
    rewrite Hcall in Hc.
    destruct Hc as ((extra1 & Hheap1) & Hq1 & p1 & Hp1 & _).
    cbn [world_of] in Hheap1.
    destruct (simulate_outcome env fuel n _ _ _ _ _ Hrest) as ((extra2 & Hheap2) & _).
    destruct (IH _ _ _ _ _ Hrest) as (Hlen & Hnodup & Hlive).
    pose proof (particle_at_inside _ _ _ Hp1) as Hin1.
    split; [cbn; lia|]. split.
    + constructor; [|exact Hnodup].
      intros Hin. destruct (Hlive q1 Hin) as (Hq & _). lia.
    + intros q [<-|Hin].
      * split; [exact Hq1|]. exists p1.
        exact (particle_at_extended _ _ _ _ _ Hheap2 Hp1).
      * destruct (Hlive q Hin) as (Hq & Hp). split; [|exact Hp].
        rewrite Hheap1, length_app in Hq. lia.
Qed.

(** X12: the pointers a run of calls returns are as many as the calls,
    pairwise distinct, and each of them points to a particle when the run
    is over: no call frees or hands out again what an earlier call has
    returned.  The particles that existed before the run are still where
    they were, and none of them is returned. *)
Theorem X12_pointers_of_a_run env fuel n src w ps src' w' :
  simulate env fuel n src w = Ret (ps, src') w' ->
  List.length ps = n /\
  NoDup ps /\
  (forall q, In q ps -> exists p, particle_at w' q = Some p) /\
  (forall q p, particle_at w q = Some p ->
     particle_at w' q = Some p /\ ~ In q ps).
Proof.
  intros Hrun.
  destruct (simulate_pointers env fuel n src w ps src' w' Hrun) as (Hlen & Hnodup & Hlive).
  destruct (simulate_outcome env fuel n src w ps src' w' Hrun) as ((extra & Hheap) & _).
  split; [exact Hlen|]. split; [exact Hnodup|]. split.
  - intros q Hin. exact (proj2 (Hlive q Hin)).
  - intros q p Hp. split; [exact (particle_at_extended _ _ _ _ _ Hheap Hp)|].
    intros Hin. destruct (Hlive q Hin) as (Hq & _).
    pose proof (particle_at_inside _ _ _ Hp). lia.
Qed.

Lemma X12_witness :
  exists ps src' w',
    simulate plain_env 0 2 (mkSource "STLsurface" (SurfaceSource (two_triangles 0)))
      (fresh_world (scripted (fun _ => 0))) = Ret (ps, src') w' /\
    List.length ps = 2%nat /\ NoDup ps /\
    forall q, In q ps -> exists p, particle_at w' q = Some p.
Proof.
  assert (Hrun : exists ps src' w',
    simulate plain_env 0 2 (mkSource "STLsurface" (SurfaceSource (two_triangles 0)))
      (fresh_world (scripted (fun _ => 0))) = Ret (ps, src') w').
  { eexists _, _, _.
    eapply simulate_step;
      [apply TSource_surface_call;
       apply (surface_returns plain_env _ _ TNeutron small_triangle);
       [reflexivity
       |unfold chosen_triangle, real_at; cbn; decide_reals; reflexivity]|].
    eapply simulate_step;
      [apply TSource_surface_call;
       apply (surface_returns plain_env _ _ TNeutron small_triangle);
       [reflexivity
       |unfold chosen_triangle, real_at; cbn; decide_reals; reflexivity]|].
    reflexivity. }
  destruct Hrun as (ps & src' & w' & Hrun).
  destruct (X12_pointers_of_a_run plain_env 0 2 _ _ ps src' w' Hrun)
    as (Hlen & Hnodup & Hlive & _).
  exists ps, src', w'. auto.
Defined.

(** ** Sources that do not weight their positions *)

Lemma call_not_weighted env fuel src w q src' w' :
  weighted src = false ->
  TSource_CreateParticle env fuel src w = Ret (q, src') w' ->
  weighted src' = false /\
  counter src' = (counter src + 1)%Z /\
  q = List.length (heap w) /\
  exists p, heap w' = heap w ++ [Some p] /\
            particlenumber p = (counter src + 1)%Z /\ ID p = ID_UNKNOWN env.
Proof.
  destruct src as [mode [v|s]]; unfold weighted, counter, TSource_CreateParticle;
    cbn [source sourcemode]; intros Hpsw Hcall.
  - apply bind_Ret_inv in Hcall as ([q0 v'] & w1 & Hcall & Hret).
    injection Hret as <- <- <-. cbn [source].
    revert Hcall. unfold TVolumeSource_CreateParticle.
    destruct (start_values_outcome env fuel v w) as (k & l & Hl & [[[[x y] z] Hs]|Hs]);
      unfold bind at 1; rewrite Hs; [|discriminate].
    rewrite Hpsw.
    destruct (class_of_name (fParticleName (volume_base v))) as [c|] eqn:Hc.
    + rewrite (final_particle_known _ _ _ _ _ _ _ _ _ _ _ c) by exact Hc.
      intros [= <- <- <-].
      cbn [set_volume_base fPhaseSpaceWeighting volume_base set_ParticleCounter
             ParticleCounter heap].
      split; [exact Hpsw|]. split; [reflexivity|]. split; [reflexivity|].
      eexists. split; [reflexivity|]. split; reflexivity.
    + rewrite final_particle_unknown by exact Hc. discriminate.
  - apply bind_Ret_inv in Hcall as ([q0 s'] & w1 & Hcall & Hret).
    injection Hret as <- <- <-. cbn [source].
    destruct (chosen_triangle s w) as [tri|] eqn:Ht.
    + destruct (class_of_name (fParticleName (surface_base s))) as [c|] eqn:Hc.
      * rewrite (surface_returns env s w c tri Hc Ht) in Hcall.
        injection Hcall as <- <- <-. cbn [heap].
        split; [reflexivity|]. split; [reflexivity|]. split; [reflexivity|].
        eexists. split; [reflexivity|]. split; reflexivity.
      * rewrite (surface_exits env s w tri Hc Ht) in Hcall. discriminate.
    + rewrite (surface_reads_end env s w Ht) in Hcall. discriminate.
Qed.

(** X10: a surface source, and a volume source without phase-space
    weighting, allocates exactly one particle per call.  In a run of [n]
    calls the pointers returned are the [n] cells that follow the heap as
    it was, the particle of the call number [i] (from 0) has the number
    [ParticleCounter + i + 1] and the status [ID_UNKNOWN], and the counter
    ends [n] higher: without weighting no number is skipped or given
    twice. *)
Theorem X10_consecutive_numbers_without_weighting env fuel n :
  forall src w ps src' w',
    weighted src = false ->
    simulate env fuel n src w = Ret (ps, src') w' ->
    counter src' = (counter src + Z.of_nat n)%Z /\
    ps = seq (List.length (heap w)) n /\
    List.length (heap w') = (List.length (heap w) + n)%nat /\
    forall i, (i < n)%nat ->
      exists p, particle_at w' (List.length (heap w) + i)%nat = Some p /\
                particlenumber p = (counter src + Z.of_nat i + 1)%Z /\
                ID p = ID_UNKNOWN env.
Proof.
  induction n as [|n IH]; intros src w ps src' w' Hpsw Hrun.
  - cbn in Hrun. injection Hrun as <- <- <-.
    split; [lia|]. split; [reflexivity|]. split; [lia|]. intros i Hi. lia.
  - cbn [simulate] in Hrun.
    apply bind_Ret_inv in Hrun as ([q1 src1] & w1 & Hcall & Hrun).
    apply bind_Ret_inv in Hrun as ([ps' src2] & w2 & Hrest & Hret).
    injection Hret as <- <- <-.
    destruct (call_not_weighted env fuel src w q1 src1 w1 Hpsw Hcall)
      as (Hpsw1 & Hcnt1 & -> & p1 & Hheap1 & Hnum1 & Hid1).
    destruct (IH _ _ _ _ _ Hpsw1 Hrest) as (Hcnt & Hps & Hlen & Hnth).
    destruct (simulate_outcome env fuel n _ _ _ _ _ Hrest) as ((extra2 & Hheap2) & _).
    assert (Hlen1 : List.length (heap w1) = S (List.length (heap w)))
      by (rewrite Hheap1, length_app; cbn; lia).
    rewrite Hlen1 in Hps, Hlen, Hnth.
    split; [lia|]. split; [cbn [seq]; now rewrite Hps|]. split; [lia|].
    intros [|i] Hi.
    + exists p1. rewrite Nat.add_0_r. split; [|split; [lia|exact Hid1]].
      apply (particle_at_extended w1 w2 _ _ extra2 Hheap2).
      unfold particle_at. rewrite Hheap1, nth_error_last. reflexivity.
    + destruct (Hnth i ltac:(lia)) as (p & Hp & Hnum & Hid).
      exists p. replace (List.length (heap w) + S i)%nat
        with (S (List.length (heap w)) + i)%nat by lia.
      split; [exact Hp|]. split; [lia|exact Hid].
Qed.

Lemma X10_witness :
  exists ps src' w',
    simulate plain_env 0 2 (mkSource "boxvolume" (VolumeSource (unit_cube false)))
      (fresh_world (scripted (fun _ => 0))) = Ret (ps, src') w' /\
    counter src' = 2%Z /\ ps = [0%nat; 1%nat] /\
    (exists p, particle_at w' 0%nat = Some p /\ particlenumber p = 1%Z) /\
    (exists p, particle_at w' 1%nat = Some p /\ particlenumber p = 2%Z).
Proof.
  assert (Hrun : exists ps src' w',
    simulate plain_env 0 2 (mkSource "boxvolume" (VolumeSource (unit_cube false)))
      (fresh_world (scripted (fun _ => 0))) = Ret (ps, src') w').
  { eexists _, _, _.
    eapply simulate_step;
      [apply TSource_volume_call;
       apply (volume_call_unweighted plain_env 0 _ (mkCuboid 0 1 0 1 0 1) TNeutron);
       reflexivity|].
    eapply simulate_step;
      [apply TSource_volume_call;
       apply (volume_call_unweighted plain_env 0 _ (mkCuboid 0 1 0 1 0 1) TNeutron);
       reflexivity|].
    reflexivity. }
  destruct Hrun as (ps & src' & w' & Hrun).
  destruct (X10_consecutive_numbers_without_weighting plain_env 0 2
              (mkSource "boxvolume" (VolumeSource (unit_cube false)))
              (fresh_world (scripted (fun _ => 0))) ps src' w'
              eq_refl Hrun) as (Hcnt & Hps & _ & Hnth).
  exists ps, src', w'. split; [exact Hrun|]. split; [exact Hcnt|].
  split; [exact Hps|]. split.
  - destruct (Hnth 0%nat ltac:(lia)) as (p & Hp & Hnum & _). exists p. auto.
  - destruct (Hnth 1%nat ltac:(lia)) as (p & Hp & Hnum & _). exists p. auto.
Defined.

(** ** The particle name is looked at by the factory only *)

Lemma volume_unknown_name env fuel v w :
  class_of_name (fParticleName (volume_base v)) = None ->
  forall r w', TVolumeSource_CreateParticle env fuel v w <> Ret r w'.
Proof.
  intros Hc r w'. unfold TVolumeSource_CreateParticle.
  generalize dice_rounds. intros rounds.
  destruct (start_values_outcome env fuel v w) as (k & l & Hl & [[[[x y] z] Hs]|Hs]);
    unfold bind at 1; rewrite Hs; [|discriminate].
  destruct (fPhaseSpaceWeighting v).
  - cbv zeta. rewrite bind_print. unfold bind at 1.
    destruct rounds as [|rounds]; [discriminate|].
    match goal with |- context [dice_loop env _ ?pt ?b ?t ?H ?p ?th ?pol ?n ?x0 ?y0 ?z0 ?E ?w1] =>
      destruct (dice_loop_unknown env rounds pt b t H p th pol n x0 y0 z0 E w1 Hc
                  ltac:(unfold MAX_DICE_ROLL; lia)) as (w2 & ->)
    end.
    discriminate.
  - rewrite final_particle_unknown by exact Hc. discriminate.
Qed.

Lemma unknown_name_never_returns env fuel src w :
  class_of_name (fParticleName (base_of src)) = None ->
  forall r w', TSource_CreateParticle env fuel src w <> Ret r w'.
Proof.
  destruct src as [mode [v|s]]; unfold base_of, TSource_CreateParticle;
    cbn [source sourcemode]; intros Hc r w' Hcall;
    apply bind_Ret_inv in Hcall as ([q0 s'] & w1 & Hcall & _).
  - exact (volume_unknown_name env fuel v w Hc _ _ Hcall).
  - destruct (chosen_triangle s w) as [tri|] eqn:Ht.
    + rewrite (surface_exits env s w tri Hc Ht) in Hcall. discriminate.
    + rewrite (surface_reads_end env s w Ht) in Hcall. discriminate.
Qed.

Ltac scan_all E :=
  repeat match type of E with
         | context [match ?e with _ => _ end] =>
             destruct e as [[? ?]|]; try discriminate E
         end.

Lemma TSource_new_source env mode line rest geom w :
  recognized mode = true -> ~ parse_failed env mode line ->
  exists src w',
    TSource_new env ((mode, line) :: rest) geom w = Ret src w' /\
    sourcemode src = mode /\
    mc w' = mc w /\ heap w' = heap w /\
    ParticleCounter (base_of src) = 0%Z /\
    (forall name left, scan_string env line = Some (name, left) ->
       fParticleName (base_of src) = name) /\
    ((mode = "boxvolume"%string \/ mode = "cylvolume"%string) ->
     exists v, source src = VolumeSource v /\ forall f, shape v <> STLShape f).
Proof.
  intros Hmode Hparse.
  unfold recognized in Hmode. rewrite !orb_true_iff in Hmode.
  unfold parse_failed in Hparse. unfold TSource_new, TSource_build.
  destruct Hmode as [[[[Hm|Hm]|Hm]|Hm]|Hm]; apply String.eqb_eq in Hm; subst mode;
    cbn [String.eqb Ascii.eqb Bool.eqb].
  - destruct (extract_volume_box env line)
      as [[[[[name [[[[[a b] c] d] e] f]] time] psw] left]|] eqn:E.
    2:{ exfalso. apply Hparse. left. split; [left; reflexivity|reflexivity]. }
    rewrite bind_ret, bind_print. eexists _, _. split; [reflexivity|].
    cbn [sourcemode mc heap base_of source TCuboidVolumeSource_new volume_base
           TParticleSource_new ParticleCounter fParticleName shape].
    repeat (split; [reflexivity|]). split.
    + intros name0 left0 Hname. unfold extract_volume_box, xbind, xret in E.
      rewrite Hname in E. scan_all E. now injection E.
    + intros _. eexists. split; [reflexivity|]. discriminate.
  - destruct (extract_volume_box env line)
      as [[[[[name [[[[[a b] c] d] e] f]] time] psw] left]|] eqn:E.
    2:{ exfalso. apply Hparse. left. split; [right; reflexivity|reflexivity]. }
    rewrite bind_ret, bind_print. eexists _, _. split; [reflexivity|].
    cbn [sourcemode mc heap base_of source TCylindricalVolumeSource_new volume_base
           TParticleSource_new ParticleCounter fParticleName shape].
    repeat (split; [reflexivity|]). split.
    + intros name0 left0 Hname. unfold extract_volume_box, xbind, xret in E.
      rewrite Hname in E. scan_all E. now injection E.
    + intros _. eexists. split; [reflexivity|]. discriminate.
  - destruct (extract_volume_file env line) as [[[[[name file] time] psw] left]|] eqn:E.
    2:{ exfalso. apply Hparse. right. left. split; reflexivity. }
    rewrite bind_ret, bind_print. eexists _, _. split; [reflexivity|].
    cbn [sourcemode mc heap base_of source TSTLVolumeSource_new volume_base
           TParticleSource_new ParticleCounter fParticleName shape].
    repeat (split; [reflexivity|]). split.
    + intros name0 left0 Hname. unfold extract_volume_file, xbind, xret in E.
      rewrite Hname in E. scan_all E. now injection E.
    + intros [H|H]; discriminate H.
  - destruct (extract_surface_box env line)
      as [[[[[name [[[[[a b] c] d] e] f]] time] En] left]|] eqn:E.
    2:{ exfalso. apply Hparse. right. right. left. split; reflexivity. }
    unfold TCylindricalSurfaceSource_new.
    destruct (collect_triangles _ _ _ _) as [tris total].
    unfold bind, print, ret.
    eexists _, _. split; [reflexivity|].
    cbn [sourcemode mc heap base_of source surface_base TSurfaceSource_new
           TParticleSource_new ParticleCounter fParticleName].
    repeat (split; [reflexivity|]). split.
    + intros name0 left0 Hname. unfold extract_surface_box, xbind, xret in E.
      rewrite Hname in E. scan_all E. now injection E.
    + intros [H|H]; discriminate H.
  - destruct (extract_surface_file env line) as [[[[[name file] time] En] left]|] eqn:E.
    2:{ exfalso. apply Hparse. right. right. right. split; reflexivity. }
    unfold TSTLSurfaceSource_new.
    destruct (collect_triangles _ _ _ _) as [tris total].
    unfold bind, print, ret.
    eexists _, _. split; [reflexivity|].
    cbn [sourcemode mc heap base_of source surface_base TSurfaceSource_new
           TParticleSource_new ParticleCounter fParticleName].
    repeat (split; [reflexivity|]). split.
    + intros name0 left0 Hname. unfold extract_surface_file, xbind, xret in E.
      rewrite Hname in E. scan_all E. now injection E.
    + intros [H|H]; discriminate H.
Qed.

(** X11: the constructor of [TSource] does not look at the particle name.
    With a known mode and fields that can all be read it returns a source
    that has the mode and the name as they were read and the counter 0,
    and it neither draws from the generator nor allocates.  When the name
    is none of neutron, proton and electron, no call of [CreateParticle]
    on that source ever returns a particle; on a box or cylinder volume
    source every call ends the process by [exit(-1)]. *)
Theorem X11_particle_name_is_checked_by_the_calls env mode line rest geom w :
  recognized mode = true -> ~ parse_failed env mode line ->
  exists src w',
    TSource_new env ((mode, line) :: rest) geom w = Ret src w' /\
    sourcemode src = mode /\
    counter src = 0%Z /\
    mc w' = mc w /\ heap w' = heap w /\
    forall name left,
      scan_string env line = Some (name, left) ->
      fParticleName (base_of src) = name /\
      (class_of_name name = None ->
       forall fuel w1,
         (forall r w2, TSource_CreateParticle env fuel src w1 <> Ret r w2) /\
         ((mode = "boxvolume"%string \/ mode = "cylvolume"%string) ->
          exists w2, TSource_CreateParticle env fuel src w1 = Exit (-1) w2)).
Proof.
  intros Hmode Hparse.
  destruct (TSource_new_source env mode line rest geom w Hmode Hparse)
    as (src & w' & Hnew & Hm & Hmc & Hheap & Hcnt & Hname & Hshape).
  exists src, w'. split; [exact Hnew|]. split; [exact Hm|].
  split; [destruct src as [m [v|s]]; exact Hcnt|].
  split; [exact Hmc|]. split; [exact Hheap|].
  intros name left Hscan. specialize (Hname name left Hscan).
  split; [exact Hname|]. intros Hc fuel w1.
  rewrite <- Hname in Hc.
  pose proof (unknown_name_never_returns env fuel src w1 Hc) as Hnever.
  split; [exact Hnever|]. intros Hbox.
  destruct (Hshape Hbox) as (v & Hv & Hparam).
  destruct src as [m src0]. cbn [source] in Hv. subst src0.
  destruct (volume_call_returns env fuel v w1
              (parametric_point_returns env fuel (shape v) Hparam))
    as [(r & w2 & Hret)|(w2 & Hexit & _)].
  - exfalso. destruct r as [q v'].
    apply (Hnever (q, mkSource m (VolumeSource v')) w2).
    exact (TSource_volume_call env fuel m v w1 q v' w2 Hret).
  - exists w2. unfold TSource_CreateParticle. cbn [source].
    unfold bind. now rewrite Hexit.
Qed.

Lemma X11_witness :
  exists src w',
    TSource_new (reading_env "photon" false) [("boxvolume"%string, "photon"%string)]
      (mkGeometry []) (fresh_world (scripted all_ones)) = Ret src w' /\
    counter src = 0%Z /\
    fParticleName (base_of src) = "photon"%string /\
    exists w2,
      TSource_CreateParticle (reading_env "photon" false) 0 src w' = Exit (-1) w2.
Proof.
  destruct (X11_particle_name_is_checked_by_the_calls (reading_env "photon" false)
              "boxvolume" "photon" [] (mkGeometry []) (fresh_world (scripted all_ones)))
    as (src & w' & Hnew & _ & Hcnt & _ & _ & Hname).
  - reflexivity.
  - unfold parse_failed. intros [[_ H]|[[H _]|[[H _]|[H _]]]]; discriminate H.
  - destruct (Hname "photon"%string "photon"%string eq_refl) as (Hn & Hcalls).
    destruct (Hcalls eq_refl 0%nat w') as (_ & Hexit).
    exists src, w'. split; [exact Hnew|]. split; [exact Hcnt|]. split; [exact Hn|].
    apply Hexit. left. reflexivity.
Defined.

(** ** The kinetic energy a weighted source gives *)

(** the call of a weighted source from its loop on *)
Lemma volume_call_by_loop env fuel self w t H phi_v theta_v polarisation x y z w0 :
  fPhaseSpaceWeighting self = true ->
  start_values env fuel self w = Ret (t, H, phi_v, theta_v, polarisation, (x, y, z)) w0 ->
  TVolumeSource_CreateParticle env fuel self w =
  (' (r, base) <- dice_loop env dice_rounds
                     (RandomPointInSourceVolume env fuel (shape self))
                     (volume_base self) t H phi_v theta_v polarisation 0 x y z H ;;
   match r with
   | inl p => ret (p, set_volume_base self base)
   | inr (x', y', z', E') =>
       final_particle env self base t x' y' z' E' phi_v theta_v polarisation
   end) (announced self H w0).
Proof.
  intros Hpsw Hs. unfold TVolumeSource_CreateParticle.
  generalize dice_rounds. intros rounds.
  unfold bind at 1. rewrite Hs, Hpsw. cbv zeta.
  rewrite bind_print. reflexivity.
Qed.

Lemma accepted_is_positive H V u :
  0 < H -> 0 <= u -> u < sqrt ((H - V) / H) -> H - V > 0.
Proof.
  intros HH Hu Hacc.
  destruct (Rle_dec ((H - V) / H) 0) as [Hle|Hgt].
  - rewrite (sqrt_neg_0 _ Hle) in Hacc. lra.
  - assert (Hpos : 0 < (H - V) / H) by lra.
    replace (H - V) with ((H - V) / H * H) by (field; lra).
    apply Rlt_gt, Rmult_lt_0_compat; assumption.
Qed.

Section PositiveEnergy.

Variable env : Collaborators.
Variable point : M CPoint.
Variable c : ParticleClass.
Variable self : TParticleSource.
Variables t H phi_v theta_v : R.
Variable polarisation : Z.
Hypothesis known : class_of_name (fParticleName self) = Some c.
Hypothesis H_positive : 0 < H.

Lemma dice_loop_positive rounds :
  forall nroll x y z E w x' y' z' E' s w',
    (forall s0, reaches env point c self t H phi_v theta_v (mkTrial nroll x y z E w) s0 ->
                0 <= next_real (trial_world s0)) ->
    (nroll <= MAX_DICE_ROLL)%Z ->
    dice_loop env rounds point self t H phi_v theta_v polarisation nroll x y z E w
      = Ret (inr (x', y', z', E'), s) w' ->
    E' > 0 /\ E' = H - potential env c self t H phi_v theta_v x' y' z'.
Proof.
  induction rounds as [|rounds IH];
    intros nroll x y z E w x' y' z' E' s w' Hdraws Hroll Hloop; [discriminate|].
  rewrite (dice_loop_trial env point c self t H phi_v theta_v polarisation known)
    in Hloop by exact Hroll.
  cbv zeta in Hloop.
  pose proof (Hdraws _ (reaches_here _ _ _ _ _ _ _ _ _)) as Hu.
  cbn [trial_world] in Hu.
  destruct (Rlt_dec _ _) as [Hacc|Hrej].
  - pose proof (accepted_is_positive H _ (next_real w) H_positive Hu Hacc) as Hpos.
    destruct (Rgt_dec _ 0) as [_|Hneg]; [|contradiction].
    injection Hloop as <- <- <- <- _ _. split; [exact Hpos|reflexivity].
  - destruct (MAX_DICE_ROLL <=? nroll)%Z eqn:Hlast; [discriminate|].
    apply Z.leb_gt in Hlast.
    apply bind_Ret_inv in Hloop as ([[x1 y1] z1] & w1 & Hpoint & Hrest).
    apply (IH _ _ _ _ _ w1 _ _ _ _ _ _) with (3 := Hrest); [|lia].
    intros s0 Hs0. apply Hdraws.
    eapply reaches_later; [|exact Hs0].
    apply goes_on_rejected; assumption.
Qed.

End PositiveEnergy.

Lemma reaches_same_answers env point c self t H phi_v theta_v s s' :
  draws_only point ->
  reaches env point c self t H phi_v theta_v s s' ->
  reals (mc (trial_world s')) = reals (mc (trial_world s)).
Proof.
  intros Hpoint. induction 1 as [s|s s' s'' Hgo _ IH]; [reflexivity|].
  rewrite IH.
  destruct Hgo as [nroll x y z E w x' y' z' w' _ _ Hp|nroll x y z E w x' y' z' w' _ _ _ Hp];
    destruct (draws_only_Ret _ _ _ _ Hpoint Hp) as (k & l & _ & ->); reflexivity.
Qed.

(** X8: a source with phase-space weighting and a known particle name
    whose spectrum gives a positive total energy [H] only returns
    particles with a positive kinetic energy, provided the numbers drawn
    to decide on the candidates are not negative.  The particle of a call
    that returns is the provisional one with the status
    [ID_INITIAL_NOT_FOUND], or it has the status [ID_UNKNOWN] and the
    kinetic energy [H - V], which is positive, where [V] is the potential
    at the position the particle starts at: an accepted candidate never
    has to be drawn again for want of energy. *)
Theorem X8_positive_kinetic_energy
  env fuel self w c t H phi_v theta_v polarisation x y z w0 q self' w' :
  fPhaseSpaceWeighting self = true ->
  class_of_name (fParticleName (volume_base self)) = Some c ->
  start_values env fuel self w = Ret (t, H, phi_v, theta_v, polarisation, (x, y, z)) w0 ->
  0 < H ->
  (forall s,
     reaches env (RandomPointInSourceVolume env fuel (shape self)) c (volume_base self)
       t H phi_v theta_v (mkTrial 0 x y z H (announced self H w0)) s ->
     0 <= next_real (trial_world s)) ->
  TVolumeSource_CreateParticle env fuel self w = Ret (q, self') w' ->
  exists p,
    particle_at w' q = Some p /\
    (ID p = ID_INITIAL_NOT_FOUND env \/
     (ID p = ID_UNKNOWN env /\
      Estart p > 0 /\
      Estart p =
        H - potential env c (volume_base self) t H phi_v theta_v
              (xstart p) (ystart p) (zstart p))).
Proof.
  intros Hpsw Hc Hs HH Hdraws.
  rewrite (volume_call_by_loop env fuel self w t H phi_v theta_v polarisation
             x y z w0 Hpsw Hs).
  generalize dice_rounds. intros rounds Hcall.
  apply bind_Ret_inv in Hcall as ([r base] & w1 & Hloop & Hrest).
  pose proof (dice_loop_outcome env (RandomPointInSourceVolume env fuel (shape self))
                (volume_base self) t H phi_v theta_v polarisation
                (draws_only_point env fuel (shape self)) rounds 0 x y z H
                (announced self H w0)) as Hout.
  rewrite Hloop in Hout. destruct Hout as (_ & _ & Hres).
  destruct r as [q0|[[[x' y'] z'] E']].
  - destruct Hres as (_ & _ & p & Hp & _ & Hid).
    injection Hrest as <- _ <-. exists p. split; [exact Hp|]. left. exact Hid.
  - subst base.
    assert (Hroll : (0 <= MAX_DICE_ROLL)%Z) by (unfold MAX_DICE_ROLL; lia).
    destruct (dice_loop_positive env _ c (volume_base self) t H phi_v theta_v
                polarisation Hc HH rounds 0 x y z H (announced self H w0)
                x' y' z' E' (volume_base self) w1 Hdraws Hroll Hloop) as (Hpos & HE).
    rewrite (final_particle_known env self _ _ _ _ _ _ _ _ _ c) in Hrest by exact Hc.
    injection Hrest as <- _ <-.
    eexists. split; [apply particle_at_new|]. right.
    split; [reflexivity|]. split; [exact Hpos|exact HE].
Qed.

Lemma X8_witness :
  exists q self' w' p,
    TVolumeSource_CreateParticle plain_env 0 (unit_cube true)
      (fresh_world (scripted second_try)) = Ret (q, self') w' /\
    particle_at w' q = Some p /\
    (ID p = ID_INITIAL_NOT_FOUND plain_env \/
     (ID p = ID_UNKNOWN plain_env /\ Estart p > 0)).
Proof.
  pose (w := fresh_world (scripted second_try)).
  pose (w0 := mkWorld (consumed (mc w) 8
                         (volume_draws (unit_cube true) ++
                          [UniformDraw 0 1; UniformDraw 0 1; UniformDraw 0 1]))
                      (heap w) (out w)).
  assert (Hs : start_values plain_env 0 (unit_cube true) w
               = Ret (0, 1, 0, 0, 1%Z, (0, 0, 1)) w0)
    by exact (start_values_cuboid plain_env 0 (unit_cube true)
                (mkCuboid 0 1 0 1 0 1) w eq_refl).
  destruct (volume_call_returns plain_env 0 (unit_cube true) w
              (parametric_point_returns plain_env 0 (shape (unit_cube true))
                 ltac:(intros f; cbn; discriminate)))
    as [([q self'] & w' & Hcall)|(w' & _ & Hc)]; [|discriminate Hc].
  destruct (X8_positive_kinetic_energy plain_env 0 (unit_cube true) w TNeutron
              0 1 0 0 1%Z 0 0 1 w0 q self' w' eq_refl eq_refl Hs) as (p & Hp & Hid).
  - lra.
  - intros s Hreach. unfold next_real.
    rewrite (reaches_same_answers _ _ _ _ _ _ _ _ _ _
               (draws_only_point plain_env 0 (shape (unit_cube true))) Hreach).
    cbn [trial_world announced mc w0 consumed reals w fresh_world scripted].
    generalize (cursor (mc (trial_world s))). intros n. unfold second_try.
    do 13 (destruct n as [|n]; [cbv iota; lra|]). cbv iota. lra.
  - exact Hcall.
  - exists q, self', w', p. split; [exact Hcall|]. split; [exact Hp|].
    destruct Hid as [Hid|(Hid & Hpos & _)]; [left; exact Hid|right; auto].
Defined.

(** ** What becomes of the particle of a rejected candidate *)

Section Rejected.

Variable env : Collaborators.
Variable point : M CPoint.
Variable c : ParticleClass.
Variable self : TParticleSource.
Variables t H phi_v theta_v : R.
Variable polarisation : Z.
Hypothesis known : class_of_name (fParticleName self) = Some c.
Hypothesis point_draws : draws_only point.

Lemma rejected_stays rounds nroll x y z E w :
  (nroll < MAX_DICE_ROLL)%Z ->
  ~ next_real w < sqrt ((H - potential env c self t H phi_v theta_v x y z) / H) ->
  (exists extra,
     heap (world_of (dice_loop env (S rounds) point self t H phi_v theta_v
                       polarisation nroll x y z E w)) =
     heap w ++ Some (provisional env c self t H phi_v theta_v x y z) :: extra) /\
  (forall q b w',
     dice_loop env (S rounds) point self t H phi_v theta_v polarisation nroll x y z E w
       = Ret (inl q, b) w' ->
     (List.length (heap w) < q)%nat).
Proof.
  intros Hroll Hrej.
  rewrite (dice_loop_trial env point c self t H phi_v theta_v polarisation known)
    by lia.
  cbv zeta.
  destruct (Rlt_dec _ _) as [Hacc|_]; [contradiction|].
  replace (MAX_DICE_ROLL <=? nroll)%Z with false by (symmetry; apply Z.leb_gt; lia).
  unfold bind.
  destruct (point_draws (tried nroll
              (Some (provisional env c self t H phi_v theta_v x y z)) w))
    as (k & l & _ & [[[[x' y'] z'] Hp]|Hp]); rewrite Hp.
  - match goal with |- context [dice_loop env rounds point self t H phi_v theta_v
                                  polarisation ?n x' y' z' E ?w1] =>
      pose proof (dice_loop_outcome env point self t H phi_v theta_v polarisation
                    point_draws rounds n x' y' z' E w1) as Hout;
      destruct (dice_loop env rounds point self t H phi_v theta_v polarisation
                  n x' y' z' E w1) as [[[q|v] s] w'|code w'|w'|w']
    end;
      destruct Hout as (_ & (extra & Hheap) & Hres);
      cbn [world_of heap tried] in Hheap |- *;
      (split; [exists extra; rewrite Hheap, <- app_assoc; reflexivity|]);
      intros q0 b0 w0 Heq; try discriminate Heq.
    injection Heq as <- _ _.
    destruct Hres as (_ & Hq & _). cbn [heap tried] in Hq.
    rewrite length_app in Hq. cbn [List.length] in Hq. lia.
  - cbn [world_of heap tried]. split; [exists []; reflexivity|].
    intros q0 b0 w0 Heq. discriminate Heq.
Qed.

Lemma rejected_is_kept rounds nroll x y z E w s :
  reaches env point c self t H phi_v theta_v (mkTrial nroll x y z E w) s ->
  (trial_nroll s < MAX_DICE_ROLL)%Z ->
  (MAX_DICE_ROLL - nroll < Z.of_nat rounds)%Z ->
  ~ next_real (trial_world s)
    < sqrt ((H - potential env c self t H phi_v theta_v
                   (trial_x s) (trial_y s) (trial_z s)) / H) ->
  (exists extra,
     heap (world_of (dice_loop env rounds point self t H phi_v theta_v
                       polarisation nroll x y z E w)) =
     heap (trial_world s) ++
       Some (provisional env c self t H phi_v theta_v
               (trial_x s) (trial_y s) (trial_z s)) :: extra) /\
  (forall q b w',
     dice_loop env rounds point self t H phi_v theta_v polarisation nroll x y z E w
       = Ret (inl q, b) w' ->
     (List.length (heap (trial_world s)) < q)%nat).
Proof.
  intros Hreach Hroll Hrounds Hrej.
  destruct (reaches_loop env point c self t H phi_v theta_v polarisation known
              _ _ Hreach) as (k & Hk & Hloop).
  cbn [trial_nroll] in Hk.
  specialize (Hloop (S (rounds - k - 1))).
  replace (k + S (rounds - k - 1))%nat with rounds in Hloop by lia.
  unfold dice_loop_from in Hloop at 1.
  cbn [trial_nroll trial_x trial_y trial_z trial_E trial_world] in Hloop.
  rewrite Hloop. unfold dice_loop_from.
  apply rejected_stays; assumption.
Qed.

End Rejected.

(** the call of a weighted source after its loop *)
Lemma volume_call_after_loop env fuel self w t H phi_v theta_v polarisation x y z w0 c :
  fPhaseSpaceWeighting self = true ->
  class_of_name (fParticleName (volume_base self)) = Some c ->
  start_values env fuel self w = Ret (t, H, phi_v, theta_v, polarisation, (x, y, z)) w0 ->
  (exists extra,
     heap (world_of (TVolumeSource_CreateParticle env fuel self w)) =
     heap (world_of
             (dice_loop env dice_rounds (RandomPointInSourceVolume env fuel (shape self))
                (volume_base self) t H phi_v theta_v polarisation 0 x y z H
                (announced self H w0))) ++ extra) /\
  (forall q self' w',
     TVolumeSource_CreateParticle env fuel self w = Ret (q, self') w' ->
     (exists b w1,
        dice_loop env dice_rounds (RandomPointInSourceVolume env fuel (shape self))
          (volume_base self) t H phi_v theta_v polarisation 0 x y z H
          (announced self H w0) = Ret (inl q, b) w1) \/
     (List.length
        (heap (world_of
                 (dice_loop env dice_rounds
                    (RandomPointInSourceVolume env fuel (shape self))
                    (volume_base self) t H phi_v theta_v polarisation 0 x y z H
                    (announced self H w0)))) <= q)%nat).
Proof.
  intros Hpsw Hc Hs.
  rewrite (volume_call_by_loop env fuel self w t H phi_v theta_v polarisation
             x y z w0 Hpsw Hs).
  generalize dice_rounds. intros rounds.
  pose proof (dice_loop_outcome env (RandomPointInSourceVolume env fuel (shape self))
                (volume_base self) t H phi_v theta_v polarisation
                (draws_only_point env fuel (shape self)) rounds 0 x y z H
                (announced self H w0)) as Hout.
  unfold bind.
  destruct (dice_loop env rounds (RandomPointInSourceVolume env fuel (shape self))
              (volume_base self) t H phi_v theta_v polarisation 0 x y z H
              (announced self H w0))
    as [[[q|[[[x' y'] z'] E']] b] w1|code w1|w1|w1];
    destruct Hout as (_ & _ & Hres); cbn [world_of].
  - split; [exists []; now rewrite app_nil_r|].
    intros q0 self' w' [= <- _ _]. left. eauto.
  - subst b.
    rewrite (final_particle_known env self _ _ _ _ _ _ _ _ _ c) by exact Hc.
    cbn [world_of heap]. split; [eauto|].
    intros q0 self' w' [= <- _ _]. right. lia.
  - split; [exists []; now rewrite app_nil_r|]. intros q0 self' w' Heq. discriminate Heq.
  - split; [exists []; now rewrite app_nil_r|]. intros q0 self' w' Heq. discriminate Heq.
  - split; [exists []; now rewrite app_nil_r|]. intros q0 self' w' Heq. discriminate Heq.
Qed.

(** X6: the particle built for a candidate that is not accepted is never
    freed.  When the phase-space loop comes to a trial before the last one
    and the number drawn is not below [sqrt((H - V)/H)], the provisional
    particle of that trial is still in its cell of the heap in the world
    in which the call ends, however it ends, and the pointer the call
    returns is another one: the caller has no pointer to that particle.
    The total energy [H] is not 0: the test divides by it. *)
Theorem X6_rejected_candidate_is_never_freed
  env fuel self w c t H phi_v theta_v polarisation x y z w0 s :
  fPhaseSpaceWeighting self = true ->
  class_of_name (fParticleName (volume_base self)) = Some c ->
  start_values env fuel self w = Ret (t, H, phi_v, theta_v, polarisation, (x, y, z)) w0 ->
  H <> 0 ->
  reaches env (RandomPointInSourceVolume env fuel (shape self)) c (volume_base self)
    t H phi_v theta_v (mkTrial 0 x y z H (announced self H w0)) s ->
  (trial_nroll s < MAX_DICE_ROLL)%Z ->
  ~ next_real (trial_world s)
    < sqrt ((H - potential env c (volume_base self) t H phi_v theta_v
                   (trial_x s) (trial_y s) (trial_z s)) / H) ->
  particle_at (world_of (TVolumeSource_CreateParticle env fuel self w))
    (List.length (heap (trial_world s))) =
    Some (provisional env c (volume_base self) t H phi_v theta_v
            (trial_x s) (trial_y s) (trial_z s)) /\
  forall q self' w',
    TVolumeSource_CreateParticle env fuel self w = Ret (q, self') w' ->
    (List.length (heap (trial_world s)) < q)%nat /\
    particle_at w' (List.length (heap (trial_world s))) =
      Some (provisional env c (volume_base self) t H phi_v theta_v
              (trial_x s) (trial_y s) (trial_z s)).
Proof.
  intros Hpsw Hc Hs _ Hreach Hroll Hrej.
  destruct (volume_call_after_loop env fuel self w t H phi_v theta_v polarisation
              x y z w0 c Hpsw Hc Hs) as ((extra' & Hheap') & Hret).
  pose proof dice_rounds_cover as Hcover.
  revert Hcover Hheap' Hret. generalize dice_rounds. intros rounds Hcover Hheap' Hret.
  destruct (rejected_is_kept env _ c (volume_base self) t H phi_v theta_v polarisation
              Hc (draws_only_point env fuel (shape self)) rounds 0 x y z H
              (announced self H w0) s Hreach Hroll ltac:(lia) Hrej)
    as ((extra & Hheap) & Hq).
  assert (Hkept :
    particle_at (world_of (TVolumeSource_CreateParticle env fuel self w))
      (List.length (heap (trial_world s))) =
      Some (provisional env c (volume_base self) t H phi_v theta_v
              (trial_x s) (trial_y s) (trial_z s))).
  { unfold particle_at. rewrite Hheap', Hheap, <- app_assoc.
    rewrite nth_error_app2 by lia. rewrite Nat.sub_diag. reflexivity. }
  split; [exact Hkept|].
  intros q self' w' Hcall. split.
  - destruct (Hret q self' w' Hcall) as [(b & w1 & Hloop)|Hlen].
    + exact (Hq q b w1 Hloop).
    + rewrite Hheap, length_app in Hlen. cbn [List.length] in Hlen. lia.
  - rewrite Hcall in Hkept. exact Hkept.
Qed.

Lemma X6_witness :
  particle_at
    (world_of (TVolumeSource_CreateParticle plain_env 0 (unit_cube true)
                 (fresh_world (scripted second_try)))) 0%nat =
    Some (provisional plain_env TNeutron (volume_base (unit_cube true)) 0 1 0 0 0 0 1) /\
  forall q self' w',
    TVolumeSource_CreateParticle plain_env 0 (unit_cube true)
      (fresh_world (scripted second_try)) = Ret (q, self') w' ->
    (0 < q)%nat.
Proof.
  pose (w := fresh_world (scripted second_try)).
  pose (w0 := mkWorld (consumed (mc w) 8
                         (volume_draws (unit_cube true) ++
                          [UniformDraw 0 1; UniformDraw 0 1; UniformDraw 0 1]))
                      (heap w) (out w)).
  assert (Hs : start_values plain_env 0 (unit_cube true) w
               = Ret (0, 1, 0, 0, 1%Z, (0, 0, 1)) w0)
    by exact (start_values_cuboid plain_env 0 (unit_cube true)
                (mkCuboid 0 1 0 1 0 1) w eq_refl).
  destruct (X6_rejected_candidate_is_never_freed plain_env 0 (unit_cube true) w
              TNeutron 0 1 0 0 1%Z 0 0 1 w0
              (mkTrial 0 0 0 1 1 (announced (unit_cube true) 1 w0))
              eq_refl eq_refl Hs ltac:(lra)
              (reaches_here _ _ _ _ _ _ _ _ _)) as (Hkept & Hq).
  - unfold MAX_DICE_ROLL. cbn. lia.
  - unfold potential, provisional, construct, next_real.
    cbn [plain_env Hstart Estart zstart trial_x trial_y trial_z trial_world].
    replace ((1 - (1 + 1 - 1)) / 1) with 0 by lra. rewrite sqrt_0.
    cbn. lra.
  - split; [exact Hkept|].
    intros q self' w' Hcall. exact (proj1 (Hq q self' w' Hcall)).
Defined.

(** ** The work of one call of a box or cylinder source *)

Lemma parametric_takes_three env fuel s :
  (forall f, s <> STLShape f) ->
  takes_three (RandomPointInSourceVolume env fuel s).
Proof.
  intros Hs w. destruct s as [c|c|f]; cbn [RandomPointInSourceVolume].
  - rewrite cuboid_point. eauto.
  - rewrite cylinder_point. eauto.
  - now elim (Hs f).
Qed.

Lemma start_values_three env fuel self w :
  takes_three (RandomPointInSourceVolume env fuel (shape self)) ->
  exists pt l,
    start_values env fuel self w =
    Ret (real_at w 0, real_at w 1, real_at w 2, real_at w 3, int_at w 4, pt)
      (mkWorld (consumed (mc w) 8 (volume_draws self ++ l)) (heap w) (out w)).
Proof.
  intros Hthree. unfold start_values, real_at, int_at.
  do 4 step_draw.
  rewrite Nat.add_0_r.
  match goal with |- context [bind _ _ ?w1] =>
    destruct (Hthree w1) as (pt & l & Hp) end.
  cbn [mc heap out] in Hp. rewrite consumed_consumed in Hp.
  exists pt, l. unfold bind. rewrite Hp.
  replace (cursor (mc w) + 1 + 1)%nat with (cursor (mc w) + 2)%nat by lia.
  replace (S (cursor (mc w) + 2))%nat with (cursor (mc w) + 3)%nat by lia.
  replace (cursor (mc w) + 1 + 1 + 2)%nat with (cursor (mc w) + 4)%nat by lia.
  reflexivity.
Qed.

Section Bounded.

Variable env : Collaborators.
Variable point : M CPoint.
Variable c : ParticleClass.
Variable self : TParticleSource.
Variables t H phi_v theta_v : R.
Variable polarisation : Z.
Hypothesis known : class_of_name (fParticleName self) = Some c.
Hypothesis point_three : takes_three point.

Lemma dice_loop_bounded rounds :
  forall nroll x y z E w,
    (nroll <= MAX_DICE_ROLL + 1)%Z ->
    (Z.of_nat (List.length
       (heap (world_of (dice_loop env rounds point self t H phi_v theta_v
                          polarisation nroll x y z E w))))
     <= Z.of_nat (List.length (heap w)) + (MAX_DICE_ROLL + 1 - nroll))%Z /\
    (Z.of_nat (cursor
       (mc (world_of (dice_loop env rounds point self t H phi_v theta_v
                        polarisation nroll x y z E w))))
     <= Z.of_nat (cursor (mc w)) + 4 * (MAX_DICE_ROLL + 1 - nroll))%Z.
Proof.
  induction rounds as [|rounds IH]; intros nroll x y z E w Hroll.
  - cbn [dice_loop world_of]. lia.
  - destruct (Z_le_gt_dec nroll MAX_DICE_ROLL) as [Hle|Hgt].
    2:{ rewrite dice_loop_over by lia. cbn [world_of]. lia. }
    rewrite (dice_loop_trial env point c self t H phi_v theta_v polarisation known)
      by exact Hle.
    cbv zeta.
    assert (Hnext : forall cell E0,
      (Z.of_nat (List.length
         (heap (world_of
            (bind point
               (fun x0 => let '(x1, y1, z1) := x0 in
                  dice_loop env rounds point self t H phi_v theta_v polarisation
                    (nroll + 1) x1 y1 z1 E0) (tried nroll cell w)))))
       <= Z.of_nat (List.length (heap w)) + (MAX_DICE_ROLL + 1 - nroll))%Z /\
      (Z.of_nat (cursor
         (mc (world_of
            (bind point
               (fun x0 => let '(x1, y1, z1) := x0 in
                  dice_loop env rounds point self t H phi_v theta_v polarisation
                    (nroll + 1) x1 y1 z1 E0) (tried nroll cell w)))))
       <= Z.of_nat (cursor (mc w)) + 4 * (MAX_DICE_ROLL + 1 - nroll))%Z).
    { intros cell E0. unfold bind.
      destruct (point_three (tried nroll cell w)) as ([[x1 y1] z1] & l & ->).
      match goal with |- context [dice_loop env rounds point self t H phi_v theta_v
                                    polarisation _ x1 y1 z1 E0 ?w1] =>
        destruct (IH (nroll + 1)%Z x1 y1 z1 E0 w1 ltac:(lia)) as (Hh & Hc);
        revert Hh Hc;
        generalize (world_of (dice_loop env rounds point self t H phi_v theta_v
                                polarisation (nroll + 1) x1 y1 z1 E0 w1))
      end.
      intros wf Hh Hc.
      cbn [mc heap tried consumed advance cursor] in Hh, Hc.
      rewrite length_app in Hh. cbn [List.length] in Hh. lia. }
    destruct (Rlt_dec _ _).
    + destruct (Rgt_dec _ 0); [|apply Hnext].
      cbn [world_of mc heap tried advance cursor].
      rewrite length_app. cbn [List.length]. lia.
    + destruct (MAX_DICE_ROLL <=? nroll)%Z; [|apply Hnext].
      cbn [world_of mc heap advance cursor].
      rewrite length_app. cbn [List.length]. lia.
Qed.

End Bounded.

(** X7: every call of a box or a cylinder volume source with a known
    particle name ends and returns a particle.  It allocates at least one
    particle and at most [MAX_DICE_ROLL + 2], and takes at most
    [8 + 4 * (MAX_DICE_ROLL + 1)] answers of the generator; without
    phase-space weighting it allocates exactly one particle and takes
    exactly eight answers. *)
Theorem X7_call_of_a_parametric_source_ends env fuel self w c :
  (forall f, shape self <> STLShape f) ->
  class_of_name (fParticleName (volume_base self)) = Some c ->
  exists q self' w',
    TVolumeSource_CreateParticle env fuel self w = Ret (q, self') w' /\
    (List.length (heap w) < List.length (heap w'))%nat /\
    (Z.of_nat (List.length (heap w'))
     <= Z.of_nat (List.length (heap w)) + (MAX_DICE_ROLL + 2))%Z /\
    (Z.of_nat (cursor (mc w'))
     <= Z.of_nat (cursor (mc w)) + 8 + 4 * (MAX_DICE_ROLL + 1))%Z /\
    (fPhaseSpaceWeighting self = false ->
     List.length (heap w') = S (List.length (heap w)) /\
     cursor (mc w') = (cursor (mc w) + 8)%nat).
Proof.
  intros Hshape Hc.
  pose proof (parametric_takes_three env fuel (shape self) Hshape) as Hthree.
  destruct (start_values_three env fuel self w Hthree) as ([[x y] z] & l & Hs).
  destruct (fPhaseSpaceWeighting self) eqn:Hpsw.
  - rewrite (volume_call_by_loop env fuel self w _ _ _ _ _ x y z _ Hpsw Hs).
    unfold bind.
    match goal with |- context [dice_loop env dice_rounds ?pt ?b ?t ?H ?p ?th ?pol ?n ?x0 ?y0 ?z0 ?E ?w1] =>
      pose proof (dice_loop_bounded env pt c b t H p th pol Hc Hthree dice_rounds
                    n x0 y0 z0 E w1 ltac:(unfold MAX_DICE_ROLL; lia)) as Hbound;
      pose proof (dice_loop_outcome env pt b t H p th pol
                    (draws_only_point env fuel (shape self)) dice_rounds
                    n x0 y0 z0 E w1) as Hout;
      pose proof (fun w2 => dice_loop_enough_rounds env pt b t H p th pol
                    (parametric_point_returns env fuel (shape self) Hshape)
                    dice_rounds n x0 y0 z0 E w1 w2) as Hends
    end.
    pose proof dice_rounds_cover as Hcover.
    revert Hbound Hout Hends Hcover. generalize dice_rounds.
    intros rounds Hbound Hout Hends Hcover.
    match goal with |- context [dice_loop env rounds ?pt ?b ?t ?H ?p ?th ?pol ?n ?x0 ?y0 ?z0 ?E ?w1] =>
      destruct (dice_loop env rounds pt b t H p th pol n x0 y0 z0 E w1)
        as [[[q|[[[x' y'] z'] E']] b0] w1'|code w1'|w1'|w1']
    end;
      destruct Hout as (_ & (extra & Hheap) & Hres);
      cbn [world_of announced mc heap consumed cursor] in Hbound, Hheap.
    + destruct Hres as (_ & Hq & p & Hp & _).
      pose proof (particle_at_inside _ _ _ Hp) as Hin.
      cbn [announced heap] in Hq.
      eexists _, _, _. split; [reflexivity|].
      split; [lia|]. split; [lia|]. split; [lia|]. discriminate.
    + subst b0.
      rewrite (final_particle_known env self _ _ _ _ _ _ _ _ _ c) by exact Hc.
      eexists _, _, _. split; [reflexivity|]. cbn [mc heap].
      rewrite length_app. cbn [List.length].
      assert (Hext : (List.length (heap w) <= List.length (heap w1'))%nat)
        by (rewrite Hheap, length_app; lia).
      split; [lia|]. split; [lia|]. split; [lia|]. discriminate.
    + destruct Hres as (Hnone & _). congruence.
    + contradiction.
    + exfalso. unfold MAX_DICE_ROLL in Hcover, Hends.
      apply (Hends w1'); [lia | lia | reflexivity].
  - unfold TVolumeSource_CreateParticle. generalize dice_rounds. intros rounds.
    unfold bind at 1. rewrite Hs, Hpsw.
    rewrite (final_particle_known env self _ _ _ _ _ _ _ _ _ c) by exact Hc.
    eexists _, _, _. split; [reflexivity|]. cbn [mc heap consumed cursor].
    rewrite length_app. cbn [List.length]. unfold MAX_DICE_ROLL.
    split; [lia|]. split; [lia|]. split; [lia|]. intros _. split; lia.
Qed.

Lemma X7_witness :
  exists q self' w',
    TVolumeSource_CreateParticle plain_env 0 (unit_cube true)
      (fresh_world (scripted all_ones)) = Ret (q, self') w' /\
    (0 < List.length (heap w'))%nat /\
    (Z.of_nat (List.length (heap w')) <= MAX_DICE_ROLL + 2)%Z.
Proof.
  destruct (X7_call_of_a_parametric_source_ends plain_env 0 (unit_cube true)
              (fresh_world (scripted all_ones)) TNeutron
              ltac:(intros f; cbn; discriminate) eq_refl)
    as (q & self' & w' & Hcall & Hlow & Hhigh & _).
  exists q, self', w'. split; [exact Hcall|].
  cbn [fresh_world heap List.length] in Hlow, Hhigh.
  split; [exact Hlow|]. lia.
Defined.

(** ** The loop that is left by its condition *)




(** ** The order of the draws of a call *)










